(** * Politeia trust-log backend: a shallow embedding of selected operations

    The development follows the Go sources of the repository:

    - [Trillian]  the in-memory test log client ([TestTrillianClient]) of
      politeiad/backend/tlogbe: [treesAll], [treeNew], [leavesAppend],
      [leavesAll], [leavesByRange];
    - [Store]     the [fileSystem] blob store of the politeiatlog tool;
    - [Key]       [EncryptionKey] of politeiad/backend/tlogbe/encryptionkey.go;
    - [Verify]    the politeiaverify bundle checks ([verifyProposal] and the
      record check of [_main]);
    - [Www]       [getPluginInventory] of politeiawww;
    - [Comments]  the signature and vote-change checks of the comments plugin
      handlers.

    Go values are modelled as the code has them: [int64] as [Z] with its
    wrap-around, byte slices as lists of 8-bit [Z], Go maps as [gmap],
    pointers as locations of an explicit heap, and a call's outcome as a
    value, an [error] or a run-time panic. *)

From stdpp Require Import gmap strings list fin_maps pretty.
From Stdlib Require Import ZArith Lia.

Open Scope Z_scope.

(** ** Go outcomes *)

(** A byte slice: every element is meant to lie in [0, 256). *)
Abbreviation bytes := (list Z).

(** [comments.ErrorStatusT]: the error codes that the plugin tests name. *)
Inductive ErrorStatusT : Type :=
  | ErrorStatusStateInvalid
  | ErrorStatusTokenInvalid
  | ErrorStatusPublicKeyInvalid
  | ErrorStatusSignatureInvalid
  | ErrorStatusCommentTextInvalid
  | ErrorStatusRecordNotFound
  | ErrorStatusCommentNotFound
  | ErrorStatusUserUnauthorized
  | ErrorStatusParentIDInvalid
  | ErrorStatusVoteInvalid
  | ErrorStatusVoteChangesMax.

(** The errors that the modelled functions build. *)
Inductive error : Type :=
  | ErrNotFound                      (* store.ErrNotFound *)
  | ErrIO (msg : string)             (* an error of the operating system *)
  | Errorf (msg : string)            (* fmt.Errorf / errors.New *)
  | PluginUserError (code : ErrorStatusT).  (* backend.PluginUserError *)

(** What a Go call does: it returns a value, returns a non-nil [error], or
    panics (nil dereference, slicing a nil array pointer). *)
Inductive go_result (A : Type) : Type :=
  | Ret (a : A)
  | Err (e : error)
  | Panic.
Arguments Ret {A} a.
Arguments Err {A} e.
Arguments Panic {A}.

Definition bind {A B} (r : go_result A) (k : A -> go_result B) : go_result B :=
  match r with
  | Ret a => k a
  | Err e => Err e
  | Panic => Panic
  end.

Declare Scope go_scope.
Delimit Scope go_scope with go.
Notation "x <- c1 ;; c2" := (bind c1 (fun x => c2))
  (at level 100, c1 at next level, right associativity) : go_scope.

(** A call fails loudly when it does not return a value. *)
Definition fails_loudly {A} (r : go_result A) : Prop :=
  match r with Ret _ => False | _ => True end.

Definition is_Ret {A} (r : go_result A) : bool :=
  match r with Ret _ => true | _ => false end.

(** Two's complement wrap-around of [int64] arithmetic. *)
Definition wrap64 (z : Z) : Z := (z + 2 ^ 63) mod 2 ^ 64 - 2 ^ 63.

(** Heap locations; a Go pointer is [Some l] or nil ([None]). *)
Abbreviation loc := positive.

(** ** The in-memory test log client *)

Module Trillian.

(** [trillian.LogLeaf], the fields the client touches. *)
Record LogLeaf : Type := mkLeaf {
  MerkleLeafHash : bytes;
  LeafValue : bytes;
  ExtraData : bytes;
  LeafIndex : Z
}.

(** [trillian.Tree]: the client only stores and returns trees. *)
Record Tree : Type := mkTree {
  TreeId : Z;
  PrivateKey : bytes
}.

(** [QueuedLeafProof{QueuedLeaf: &QueuedLogLeaf{Leaf: l, Status: nil},
    Proof: nil}]: only the leaf pointer carries information. *)
Record QueuedLeafProof : Type := mkQueued { Leaf : loc }.

(** [TestTrillianClient]: [leaves] holds pointers, the leaves themselves
    live in the heap and are shared with the caller of [leavesAppend]. *)
Record TestTrillianClient : Type := mkClient {
  trees : gmap Z Tree;
  leaves : gmap Z (list loc)
}.

Abbreviation heap := (gmap loc LogLeaf).

(** [newTestTrillianClient]: both maps start empty. *)
Definition newTestTrillianClient : TestTrillianClient :=
  {| trees := ∅; leaves := ∅ |}.

(** [t.leaves[treeID]]: a missing key reads as the nil slice. *)
Definition leaves_of (t : TestTrillianClient) (treeID : Z) : list loc :=
  default [] (leaves t !! treeID).

(** [tree]. *)
Definition tree (t : TestTrillianClient) (treeID : Z) : go_result Tree :=
  match trees t !! treeID with
  | Some tr => Ret tr
  | None => Err (Errorf "Tree ID not found")
  end.

(** [treesAll], given the order in which [range t.trees] visits the map
    (Go leaves it unspecified): [make([]*trillian.Tree, len(t.trees))]
    allocates [len] nil pointers and [append] adds the trees after them. *)
Definition treesAll_in (order : list (Z * Tree)) : list (option Tree) :=
  fold_left (fun acc kv => acc ++ [Some kv.2]) order
            (replicate (length order) None).

Definition treesAll (t : TestTrillianClient) : go_result (list (option Tree)) :=
  Ret (treesAll_in (map_to_list (trees t))).

(** [treeNew]; [id] is the value drawn by [rand.Int63] and [pk] the result
    of marshalling the private key. *)
Definition treeNew (id : Z) (pk : go_result bytes) (t : TestTrillianClient)
  : go_result (Tree * TestTrillianClient) :=
  (k <- pk ;;
   let tr := {| TreeId := id; PrivateKey := k |} in
   Ret (tr, {| trees := <[id := tr]> (trees t);
               leaves := <[id := []]> (leaves t) |}))%go.

Section WithHash.

(** [MerkleLeafHash] of the tlog backend (RFC 6962 leaf hash). *)
Variable merkleLeafHash : bytes -> bytes.

(** The first statement of [leavesAppend]: the index after the last leaf. *)
Definition next_index (h : heap) (cur : list loc) : go_result Z :=
  match last cur with
  | None => Ret 0
  | Some p =>
      match h !! p with
      | Some lf => Ret (wrap64 (LeafIndex lf + 1))
      | None => Panic
      end
  end.

(** One iteration of the loop of [leavesAppend]: the leaf is written through
    its pointer, the pointer is appended to the tree and to [queued]. The
    variable [index] is read, never assigned, in the loop. *)
Definition append_step (index : Z)
    (st : go_result (heap * list loc * list QueuedLeafProof))
    (l : option loc) : go_result (heap * list loc * list QueuedLeafProof) :=
  (s <- st ;;
   let '(h, cur, queued) := s in
   match l with
   | None => Panic
   | Some p =>
       match h !! p with
       | None => Panic
       | Some lf =>
           let lf' := {| MerkleLeafHash := merkleLeafHash (LeafValue lf);
                         LeafValue := LeafValue lf;
                         ExtraData := ExtraData lf;
                         LeafIndex := index |} in
           Ret (<[p := lf']> h, cur ++ [p], queued ++ [mkQueued p])
       end
   end)%go.

(** [leavesAppend]. The batch is a slice of pointers, any of which may be
    nil. The result carries the queued leaves with the new heap and client. *)
Definition leavesAppend (treeID : Z) (batch : list (option loc))
    (h : heap) (t : TestTrillianClient)
  : go_result (list QueuedLeafProof * heap * TestTrillianClient) :=
  (index <- next_index h (leaves_of t treeID) ;;
   s <- fold_left (append_step index) batch
          (Ret (h, leaves_of t treeID, [])) ;;
   let '(h', cur, queued) := s in
   Ret (queued, h',
        match batch with
        | [] => t
        | _ => {| trees := trees t; leaves := <[treeID := cur]> (leaves t) |}
        end))%go.

(** [leavesAll]. *)
Definition leavesAll (treeID : Z) (t : TestTrillianClient)
  : go_result (list loc) :=
  match leaves t !! treeID with
  | None => Err (Errorf "Tree ID does not contain any leaf data")
  | Some ls => Ret ls
  end.

(** The loop of [leavesByRange]: it collects, in slice order, the leaves
    with [LeafIndex >= startIndex] while fewer than [count] were taken. *)
Definition range_step (h : heap) (startIndex count : Z)
    (st : go_result (Z * list loc)) (p : loc) : go_result (Z * list loc) :=
  (s <- st ;;
   let '(c, acc) := s in
   match h !! p with
   | None => Panic
   | Some lf =>
       if (startIndex <=? LeafIndex lf) && (c <? count)
       then Ret (wrap64 (c + 1), acc ++ [p])
       else Ret (c, acc)
   end)%go.

Definition range_loop (h : heap) (startIndex count : Z) (ls : list loc)
  : go_result (Z * list loc) :=
  fold_left (range_step h startIndex count) ls (Ret (0, [])).

(** [leavesByRange]: after the loop the function ends in [return nil, nil];
    the slice built by the loop is not returned. *)
Definition leavesByRange (treeID startIndex count : Z)
    (h : heap) (t : TestTrillianClient) : go_result (list loc) :=
  match leaves t !! treeID with
  | None => Err (Errorf "Tree ID does not contain any leaf data")
  | Some ls =>
      (_ <- range_loop h startIndex count ls ;;
       Ret [])%go
  end.

(** The indices of the leaves of a tree, in slice order. *)
Definition indices (h : heap) (ls : list loc) : list (option Z) :=
  (fun p => LeafIndex <$> h !! p) <$> ls.

(** The indices that the leaves of a tree carry after an append. *)
Definition appended_indices (treeID : Z) (batch : list (option loc))
    (h : heap) (t : TestTrillianClient) : go_result (list (option Z)) :=
  (r <- leavesAppend treeID batch h t ;;
   let '(_, h', t') := r in
   Ret (indices h' (leaves_of t' treeID)))%go.

End WithHash.

(** Every leaf of [ps] carries the index [index]. *)
Definition all_at (index : Z) (h : heap) (ps : list loc) : Prop :=
  forall p, p ∈ ps -> LeafIndex <$> h !! p = Some index.

(** Sample data: two fresh leaves, a client with the empty tree 7, the same
    client once the first leaf sits in the tree at index 0, and a client
    with two trees. *)
Definition leaf_a : LogLeaf :=
  {| MerkleLeafHash := []; LeafValue := [1]; ExtraData := []; LeafIndex := 0 |}.
Definition leaf_b : LogLeaf :=
  {| MerkleLeafHash := []; LeafValue := [2]; ExtraData := []; LeafIndex := 0 |}.
Definition heap_ab : heap := {[ 1%positive := leaf_a; 2%positive := leaf_b ]}.
Definition tree7 : Tree := {| TreeId := 7; PrivateKey := [] |}.
Definition tree9 : Tree := {| TreeId := 9; PrivateKey := [] |}.
Definition client_empty7 : TestTrillianClient :=
  {| trees := {[ 7 := tree7 ]}; leaves := {[ 7 := [] ]} |}.
Definition client_one7 : TestTrillianClient :=
  {| trees := {[ 7 := tree7 ]}; leaves := {[ 7 := [1%positive] ]} |}.
Definition client_two : TestTrillianClient :=
  {| trees := {[ 7 := tree7; 9 := tree9 ]};
     leaves := {[ 7 := []; 9 := [] ]} |}.

End Trillian.

(** ** The blob store of the politeiatlog tool *)

Module Store.

(** What [ioutil.ReadFile] reports for a path. *)
Inductive os_error : Type :=
  | ENOENT                    (* the file does not exist *)
  | EOther (msg : string).    (* any other failure: permissions, I/O *)

(** A path either holds readable bytes or fails to be read with an error
    other than "does not exist"; a path outside the map does not exist. *)
Inductive file : Type :=
  | Readable (b : bytes)
  | Unreadable (msg : string).

Abbreviation disk := (gmap string file).

Definition ReadFile (d : disk) (path : string) : bytes * option os_error :=
  match d !! path with
  | None => ([], Some ENOENT)
  | Some (Readable b) => (b, None)
  | Some (Unreadable msg) => ([], Some (EOther msg))
  end.

(** [os.IsNotExist]. *)
Definition IsNotExist (e : os_error) : bool :=
  match e with ENOENT => true | EOther _ => false end.

(** The error value handed to the caller for an [os_error]. *)
Definition as_error (e : os_error) : error :=
  match e with
  | ENOENT => ErrIO "no such file or directory"
  | EOther msg => ErrIO msg
  end.

(** [errors.Is(err, store.ErrNotFound)] on an error of [ioutil.ReadFile]:
    the operating system never returns the store's sentinel. *)
Definition Is_ErrNotFound (e : os_error) : bool := false.

Section WithPath.

(** [filepath.Join]. *)
Variable Join : string -> string -> string.

(** [fileSystem]: the root directory (the lock is not modelled). *)
Record fileSystem : Type := mkFS { root : string }.

(** The loop of [Get], statement by statement: the first [if err != nil]
    returns on every error, so the second one is never entered. *)
Fixpoint Get_loop (f : fileSystem) (d : disk) (keys : list string)
    (blobs : gmap string bytes) : go_result (gmap string bytes) :=
  match keys with
  | [] => Ret blobs
  | key :: rest =>
      let '(b, err) := ReadFile d (Join (root f) key) in
      match err with
      | Some e =>
          if IsNotExist e then Err ErrNotFound else Err (as_error e)
      | None =>
          match err with
          | Some e =>
              if Is_ErrNotFound e
              then Get_loop f d rest blobs
              else Err (Errorf "get")
          | None => Get_loop f d rest (<[key := b]> blobs)
          end
      end
  end.

(** [Get]. *)
Definition Get (f : fileSystem) (d : disk) (keys : list string)
  : go_result (gmap string bytes) :=
  Get_loop f d keys ∅.

(** [Put] is a stub: it returns [[]string{}, nil] and writes nothing. *)
Definition Put (f : fileSystem) (d : disk) (blobs : list bytes)
  : go_result (list string) * disk :=
  (Ret [], d).

(** [Del] is a stub. *)
Definition Del (f : fileSystem) (d : disk) (keys : list string)
  : go_result unit * disk :=
  (Ret tt, d).

End WithPath.

(** Sample data: a store rooted at "data" over an empty directory. *)
Definition fs_data : fileSystem := {| root := "data" |}.
Definition join_slash (dir name : string) : string := dir ++ "/" ++ name.

End Store.

(** ** The encryption key *)

Module Key.

(** The [[32]byte] arrays that key pointers refer to. *)
Abbreviation heap := (gmap loc bytes).

(** [EncryptionKey]: a pointer to the key array (the lock is not modelled). *)
Record EncryptionKey : Type := mkKey { key : option loc }.

(** [NewEncryptionKey]. *)
Definition NewEncryptionKey (k : option loc) : EncryptionKey := {| key := k |}.

(** Reading through a [*[32]byte]: a nil pointer panics. *)
Definition deref (h : heap) (p : option loc) : go_result bytes :=
  match p with
  | None => Panic
  | Some l => match h !! l with Some k => Ret k | None => Panic end
  end.

(** Modelled from the spec: [util.Zero] of the repository's util package is
    not among the sources; it "zeroes" the slice it is given, every byte
    becomes 0. *)
Definition util_Zero (b : bytes) : bytes := (fun _ => 0) <$> b.

Section WithSbox.

(** The package marcopeereboom/sbox is an external dependency. It is
    modelled by what it does with its key argument: [sbox.Encrypt] draws a
    nonce, then seals the data, which reads the key through the pointer;
    [sbox.Decrypt] validates the packed blob (header, magic, length of the
    box), then opens the box, which reads the key through the pointer. The
    key-independent steps and the cipher are left open. *)
Variable rand_nonce : go_result bytes.
Variable seal : Z -> bytes -> bytes -> bytes -> bytes.
Variable parse_header : bytes -> go_result (Z * bytes * bytes).
Variable open : bytes -> bytes -> bytes -> option bytes.

Definition sbox_Encrypt (h : heap) (version : Z) (k : option loc)
    (data : bytes) : go_result bytes :=
  (nonce <- rand_nonce ;;
   kb <- deref h k ;;
   Ret (seal version nonce kb data))%go.

Definition sbox_Decrypt (h : heap) (k : option loc) (packed : bytes)
  : go_result (bytes * Z) :=
  (hdr <- parse_header packed ;;
   let '(version, nonce, box) := hdr in
   kb <- deref h k ;;
   match open nonce kb box with
   | Some data => Ret (data, version)
   | None => Err (Errorf "could not decrypt")
   end)%go.

(** [Encrypt]. *)
Definition Encrypt (h : heap) (e : EncryptionKey) (version : Z)
    (blob : bytes) : go_result bytes :=
  sbox_Encrypt h version (key e) blob.

(** [Decrypt]. *)
Definition Decrypt (h : heap) (e : EncryptionKey) (blob : bytes)
  : go_result (bytes * Z) :=
  sbox_Decrypt h (key e) blob.

End WithSbox.

(** [zero]: [e.key[:]] slices the array behind the pointer (a panic when
    the pointer is nil), [util.Zero] overwrites it in place, and the
    pointer is then set to nil. *)
Definition zero (h : heap) (e : EncryptionKey)
  : go_result (heap * EncryptionKey) :=
  match key e with
  | None => Panic
  | Some l =>
      match h !! l with
      | None => Panic
      | Some kb => Ret (<[l := util_Zero kb]> h, {| key := None |})
      end
  end.

(** Sample data: a 32-byte key at location 1 and a transparent box. *)
Definition heap_key : heap := {[ 1%positive := replicate 32 7 ]}.
Definition key_one : EncryptionKey := NewEncryptionKey (Some 1%positive).
Definition plain_seal (version : Z) (nonce kb data : bytes) : bytes := data.
Definition plain_header (packed : bytes) : go_result (Z * bytes * bytes) :=
  Ret (0, [], packed).
Definition plain_open (nonce kb box : bytes) : option bytes := Some box.

End Key.

(** ** The politeiaverify bundle checks *)

Module Verify.

(** [censorshipRecord] / [pi.CensorshipRecord]. *)
Record censorshipRecord : Type := mkCR {
  Token : string;
  Merkle : string;
  CRSignature : string
}.

(** [files] / [pi.File]. *)
Record files : Type := mkFile {
  Name : string;
  FDigest : string;
  FPayload : string
}.

(** [metadata] / [pi.Metadata]. *)
Record metadata : Type := mkMD {
  Hint : string;
  MDigest : string;
  MPayload : string
}.

(** [record] and [proposal] have the same fields. *)
Record record : Type := mkRecord {
  ServerPublicKey : string;
  PublicKey : string;
  Signature : string;
  CensorshipRecord : censorshipRecord;
  Files : list files;
  Metadata : list metadata
}.

Abbreviation proposal := record.

(** [copy(sha[:], d)] into a fresh [[sha256.Size]byte]. *)
Definition copy32 (d : bytes) : bytes := take 32 (d ++ replicate 32 0).

(** [bytes.Equal]. *)
Definition bytes_Equal (a b : bytes) : bool := bool_decide (a = b).

Section WithCrypto.

(** The packages the tool calls: encoding/json, encoding/base64,
    encoding/hex, dcrtime's merkle and the identity functions of the util
    package. [zeroSig] is the zero signature that [util.ConvertSignature]
    hands back next to an error. *)
Variable Identity : Type.
Variable Sig : Type.
Variable json_Unmarshal : string -> go_result record.
Variable base64_DecodeString : string -> go_result bytes.
Variable hex_EncodeToString : bytes -> string.
Variable util_Digest : bytes -> bytes.
Variable util_ConvertDigest : string -> option bytes.
Variable merkle_Root : list bytes -> bytes.
Variable util_IdentityFromString : string -> go_result Identity.
Variable util_ConvertSignature : string -> go_result Sig.
Variable zeroSig : Sig.
Variable VerifyMessage : Identity -> string -> Sig -> bool.

(** [wwwutil.MerkleRoot], called by [verifyProposal]; its body is in
    politeiawww/util, outside these sources. *)
Variable wwwutil_MerkleRoot : list files -> list metadata -> go_result string.

(** One iteration of either loop of [merkleRoot]: decode the payload, hash
    it, append the digest, then compare with the digest of the bundle. *)
Definition digest_step (what : string) (payload digest : string)
    (acc : go_result (list bytes)) : go_result (list bytes) :=
  (digests <- acc ;;
   b <- base64_DecodeString payload ;;
   let d := util_Digest b in
   let digests' := digests ++ [copy32 d] in
   match util_ConvertDigest digest with
   | None => Err (Errorf "invalid digest")
   | Some cd =>
       if bytes_Equal d cd then Ret digests'
       else Err (Errorf (what ++ ": digests do not match"))
   end)%go.

(** [merkle.Root(digests)[:]]: for no digests at all dcrtime's
    [merkle.Root] returns a nil pointer, and slicing a nil array pointer is
    a panic; [merkle_Root] stands for the root of one digest or more. *)
Definition root_slice (digests : list bytes) : go_result bytes :=
  match digests with
  | [] => Panic
  | _ :: _ => Ret (merkle_Root digests)
  end.

(** [merkleRoot] of the record verifier. *)
Definition merkleRoot (fs : list files) (mds : list metadata)
  : go_result string :=
  (d1 <- fold_left (fun acc f => digest_step "file" (FPayload f) (FDigest f) acc)
           fs (Ret []) ;;
   d2 <- fold_left (fun acc m => digest_step "metadata" (MPayload m) (MDigest m) acc)
           mds (Ret d1) ;;
   root <- root_slice d2 ;;
   Ret (hex_EncodeToString root))%go.

(** [verifyProposal]; [Ret tt] is the nil error. *)
Definition verifyProposal (payload : string) : go_result unit :=
  (prop <- json_Unmarshal payload ;;
   merkle <- wwwutil_MerkleRoot (Files prop) (Metadata prop) ;;
   if negb (String.eqb merkle (Merkle (CensorshipRecord prop)))
   then Err (Errorf "Merkle roots do not match")
   else
     id <- util_IdentityFromString (PublicKey prop) ;;
     sig <- util_ConvertSignature (Signature prop) ;;
     if negb (VerifyMessage id merkle sig)
     then Err (Errorf "Invalid proposal signature")
     else
       id <- util_IdentityFromString (ServerPublicKey prop) ;;
       sig <- util_ConvertSignature (CRSignature (CensorshipRecord prop)) ;;
       if negb (VerifyMessage id (merkle ++ Token (CensorshipRecord prop)) sig)
       then Err (Errorf "Invalid censhorship record signature")
       else Ret tt)%go.

(** The error of a call that the caller does not look at: the value is used
    whatever the call reported. *)
Definition unchecked_sig (r : go_result Sig) : Sig :=
  match r with Ret s => s | _ => zeroSig end.

(** The record check of [_main], from the bundle's bytes on. The error of
    the first [util.ConvertSignature] is not checked there. *)
Definition verifyRecord (payload : string) : go_result unit :=
  (rec <- json_Unmarshal payload ;;
   let merkle := Merkle (CensorshipRecord rec) in
   m <- merkleRoot (Files rec) (Metadata rec) ;;
   if negb (String.eqb m merkle)
   then Err (Errorf "Merkle roots do not match")
   else
     id <- util_IdentityFromString (PublicKey rec) ;;
     let sig := unchecked_sig (util_ConvertSignature (Signature rec)) in
     if negb (VerifyMessage id merkle sig)
     then Err (Errorf "Invalid record signature")
     else
       id <- util_IdentityFromString (ServerPublicKey rec) ;;
       sig <- util_ConvertSignature (CRSignature (CensorshipRecord rec)) ;;
       if negb (VerifyMessage id (merkle ++ Token (CensorshipRecord rec)) sig)
       then Err (Errorf "Invalid censhorship record signature")
       else Ret tt)%go.

(** The digests that the merkle root of a bundle is computed over: the
    SHA-256 digest of every decoded file payload, then of every decoded
    metadata payload. *)
Definition payload_digest (payload : string) : option bytes :=
  match base64_DecodeString payload with
  | Ret b => Some (copy32 (util_Digest b))
  | _ => None
  end.

Definition content_digests (fs : list files) (mds : list metadata)
  : list (option bytes) :=
  (payload_digest ∘ FPayload <$> fs) ++ (payload_digest ∘ MPayload <$> mds).

End WithCrypto.

(** Sample data: a bundle with one file and one metadata stream, and toy
    stand-ins for the packages: every payload decodes to itself as bytes of
    length 0, the digest of everything is 32 zero bytes, and a signature of
    [msg] under the identity [id] is the string [id ++ msg]. *)
Definition toy_digest (b : bytes) : bytes := replicate 32 0.
Definition toy_bundle : record :=
  {| ServerPublicKey := "S";
     PublicKey := "U";
     Signature := "Um";
     CensorshipRecord := {| Token := "t"; Merkle := "m"; CRSignature := "Smt" |};
     Files := [ {| Name := "index.md"; FDigest := "00"; FPayload := "" |} ];
     Metadata := [ {| Hint := "h"; MDigest := "00"; MPayload := "" |} ] |}.
Definition toy_verify (id msg sig : string) : bool := String.eqb sig (id ++ msg).

End Verify.

(** ** The plugin inventory of politeiawww *)

Module Www.

(** [pd.PluginSetting] and [pd.Plugin] of the politeiad API. *)
Module pd.
Record PluginSetting : Type := mkSetting { Key : string; Value : string }.
Record Plugin : Type := mkPlugin {
  ID : string;
  Version : string;
  Settings : list PluginSetting
}.
End pd.

(** [pluginSetting]. *)
Record pluginSetting : Type := mkSetting { Key : string; Value : string }.

(** [plugin]. *)
Record plugin : Type := mkPlugin {
  ID : string;
  Version : string;
  Settings : list pluginSetting
}.

Definition convertPluginSettingFromPD (ps : pd.PluginSetting) : pluginSetting :=
  {| Key := pd.Key ps; Value := pd.Value ps |}.

Definition convertPluginFromPD (p : pd.Plugin) : plugin :=
  {| ID := pd.ID p;
     Version := pd.Version p;
     Settings := convertPluginSettingFromPD <$> pd.Settings p |}.

(** [maxRetries] and [sleepInterval] (a [time.Duration], in nanoseconds). *)
Definition maxRetries : nat := 1000.
Definition sleepInterval : Z := 5 * 1000000000.

Section WithPoliteiad.

(** [p.pluginInventory()]: what the call number [n] (from 0) to politeiad
    answers. *)
Variable pluginInventory : nat -> go_result (list pd.Plugin).

(** The loop of [getPluginInventory]. [slept] records every [time.Sleep];
    [fuel] bounds the number of iterations and [None] means it ran out. *)
Fixpoint retry_loop (fuel : nat) (retries : nat) (plugins : list plugin)
    (slept : list Z) : option (go_result (list plugin) * list Z) :=
  match fuel with
  | O => None
  | S fuel' =>
      if Nat.eqb retries maxRetries
      then Some (Err (Errorf "max retries exceeded"), slept)
      else
        match pluginInventory retries with
        | Ret pi =>
            Some (Ret (plugins ++ (convertPluginFromPD <$> pi)), slept)
        | Err _ =>
            retry_loop fuel' (S retries) plugins (slept ++ [sleepInterval])
        | Panic => Some (Panic, slept)
        end
  end.

(** [getPluginInventory]. *)
Definition getPluginInventory : option (go_result (list plugin) * list Z) :=
  retry_loop (S maxRetries) 0 [] [].

End WithPoliteiad.

(** A sequence of delays is an exponential backoff when each delay is the
    previous one times a fixed factor greater than 1. *)
Definition exponential_backoff (delays : list Z) : Prop :=
  exists base factor : Z,
    0 < base /\ 1 < factor /\
    forall i d, delays !! i = Some d -> d = base * factor ^ Z.of_nat i.

(** Sample data: politeiad is unreachable twice, then answers with one
    plugin. *)
Definition pd_comments : pd.Plugin :=
  {| pd.ID := "comments"; pd.Version := "1";
     pd.Settings := [ {| pd.Key := "datadir"; pd.Value := "/tmp" |} ] |}.
Definition down_twice (n : nat) : go_result (list pd.Plugin) :=
  if (n <? 2)%nat then Err (ErrIO "connection refused") else Ret [pd_comments].

End Www.

(** ** The comments plugin: signature and vote-change checks *)

Module Comments.

(** [comments.StateT] and [comments.VoteT], as the tests name them. *)
Inductive StateT : Type := StateInvalid | StateUnvetted | StateVetted.
Inductive VoteT : Type := VoteInvalid | VoteDownvote | VoteUpvote.

#[export] Instance StateT_eq_dec : EqDecision StateT.
Proof. solve_decision. Defined.
#[export] Instance VoteT_eq_dec : EqDecision VoteT.
Proof. solve_decision. Defined.

(** [comments.Vote], the payload of the vote command. *)
Record Vote : Type := mkVote {
  UserID : string;
  State : StateT;
  Token : string;
  CommentID : N;
  VoteV : VoteT;
  PublicKey : string;
  Signature : string
}.

(** [comments.Edit], the payload of the edit command. *)
Record Edit : Type := mkEdit {
  EUserID : string;
  EState : StateT;
  EToken : string;
  EParentID : N;
  ECommentID : N;
  EComment : string;
  EPublicKey : string;
  ESignature : string
}.

(** A stored comment: its author, its parent and its text. *)
Record Comment : Type := mkComment {
  CUserID : string;
  CParentID : N;
  CText : string
}.

(** What the plugin has persisted: the tokens of the existing records, the
    comments by (token, comment id) and the votes cast, oldest first, by
    (token, comment id, user id). *)
Record plugin_state : Type := mkState {
  records : gset string;
  comments : gmap (string * N) Comment;
  votes : gmap (string * N * string) (list VoteT)
}.

Definition state_code (s : StateT) : N :=
  match s with StateInvalid => 0 | StateUnvetted => 1 | StateVetted => 2 end%N.

Definition vote_code (v : VoteT) : Z :=
  match v with VoteInvalid => 0 | VoteDownvote => -1 | VoteUpvote => 1 end.

(** Modelled from the spec: the handlers of the comments plugin are not
    among the sources (only their tests are). The signature is "over a
    canonical string (state + token + content-specific fields)": for a
    comment the fields are the parent id and the text, in the order in which
    the client of the repository concatenates them (commentnew.go). *)
Definition comment_msg (s : StateT) (token : string) (parentID : N)
    (comment : string) : string :=
  pretty (state_code s) ++ token ++ pretty parentID ++ comment.

(** Modelled from the spec: the canonical string of a vote; its
    content-specific fields are the comment id and the vote. *)
Definition vote_msg (s : StateT) (token : string) (commentID : N)
    (v : VoteT) : string :=
  pretty (state_code s) ++ token ++ pretty commentID ++ pretty (vote_code v).

Definition user_error {A} (c : ErrorStatusT) : go_result A :=
  Err (PluginUserError c).

Section WithPolicy.

(** The signature scheme of the identity package, the token format and the
    policy constants of the plugin. *)
Variable verify : string -> string -> string -> bool.
Variable pubkey_valid : string -> bool.
Variable token_valid : string -> bool.
Variable PolicyCommentLengthMax : nat.
Variable PolicyVoteChangesMax : nat.

(** Modelled from the spec: "validate signature over a canonical string
    using a provided public key"; a failure is a [PluginUserError]. The
    tests tell a malformed public key ([ErrorStatusPublicKeyInvalid]) from a
    signature that does not verify ([ErrorStatusSignatureInvalid]). *)
Definition verifySignature (signature pubkey msg : string) : go_result unit :=
  if negb (pubkey_valid pubkey) then user_error ErrorStatusPublicKeyInvalid
  else if negb (verify pubkey msg signature)
       then user_error ErrorStatusSignatureInvalid
       else Ret tt.

(** The checks on the decoded payload that every handler starts with. *)
Definition verifyStateToken (s : StateT) (token : string) : go_result unit :=
  if bool_decide (s = StateInvalid) then user_error ErrorStatusStateInvalid
  else if negb (token_valid token) then user_error ErrorStatusTokenInvalid
  else Ret tt.

(** Modelled from the spec: the vote handler. "Handlers must: decode
    payload; validate signature over a canonical string; resolve the target
    record; enforce plugin policy; on success, persist." Votes "accumulate
    per (user, comment) with a policy-bounded number of vote changes;
    exceeding the bound is a user error". The bound is placed where
    TestCmdVote puts it: [PolicyVoteChangesMax + 1] casts by one user on one
    comment succeed (a vote and [PolicyVoteChangesMax] changes of it) and
    the next one is refused. *)
Definition cmdVote (st : plugin_state) (v : Vote) : go_result plugin_state :=
  (_ <- verifyStateToken (State v) (Token v) ;;
   _ <- (if bool_decide (VoteV v = VoteInvalid)
         then user_error ErrorStatusVoteInvalid else Ret tt) ;;
   _ <- verifySignature (Signature v) (PublicKey v)
          (vote_msg (State v) (Token v) (CommentID v) (VoteV v)) ;;
   _ <- (if bool_decide (Token v ∈ records st)
         then Ret tt else user_error ErrorStatusRecordNotFound) ;;
   match comments st !! (Token v, CommentID v) with
   | None => user_error ErrorStatusCommentNotFound
   | Some c =>
       let k := (Token v, CommentID v, UserID v) in
       let uvotes := default [] (votes st !! k) in
       if (PolicyVoteChangesMax <? length uvotes)%nat
       then user_error ErrorStatusVoteChangesMax
       else if bool_decide (CUserID c = UserID v)
            then user_error ErrorStatusVoteInvalid
            else Ret {| records := records st;
                        comments := comments st;
                        votes := <[k := uvotes ++ [VoteV v]]> (votes st) |}
   end)%go.

(** Modelled from the spec: the edit handler; "Edit requires matching
    CommentID + author match". TestCmdEdit adds what the spec leaves out:
    an edit with another parent id is refused with
    [ErrorStatusParentIDInvalid], and an edit whose text is the stored text
    ("comment did not change") with [ErrorStatusCommentTextInvalid]. *)
Definition cmdEdit (st : plugin_state) (e : Edit) : go_result plugin_state :=
  (_ <- verifyStateToken (EState e) (EToken e) ;;
   _ <- verifySignature (ESignature e) (EPublicKey e)
          (comment_msg (EState e) (EToken e) (EParentID e) (EComment e)) ;;
   _ <- (if (PolicyCommentLengthMax <? String.length (EComment e))%nat
         then user_error ErrorStatusCommentTextInvalid else Ret tt) ;;
   _ <- (if bool_decide (EToken e ∈ records st)
         then Ret tt else user_error ErrorStatusRecordNotFound) ;;
   match comments st !! (EToken e, ECommentID e) with
   | None => user_error ErrorStatusCommentNotFound
   | Some c =>
       if negb (bool_decide (CUserID c = EUserID e))
       then user_error ErrorStatusUserUnauthorized
       else if negb (bool_decide (CParentID c = EParentID e))
            then user_error ErrorStatusParentIDInvalid
            else if bool_decide (EComment e = CText c)
                 then user_error ErrorStatusCommentTextInvalid
                 else Ret {| records := records st;
                             comments :=
                               <[(EToken e, ECommentID e) :=
                                   {| CUserID := CUserID c;
                                      CParentID := CParentID c;
                                      CText := EComment e |}]> (comments st);
                             votes := votes st |}
   end)%go.

(** The canonical strings of a payload. *)
Definition vote_msg_of (v : Vote) : string :=
  vote_msg (State v) (Token v) (CommentID v) (VoteV v).

Definition edit_msg_of (e : Edit) : string :=
  comment_msg (EState e) (EToken e) (EParentID e) (EComment e).

(** A payload that passes every check of its handler other than the
    signature check: a vote on an existing comment of another user who has
    changes left, an edit of an existing comment by its author that keeps
    the parent and changes the text. *)
Definition vote_admissible (st : plugin_state) (v : Vote) : Prop :=
  State v <> StateInvalid /\ token_valid (Token v) = true
  /\ VoteV v <> VoteInvalid /\ Token v ∈ records st
  /\ (exists c, comments st !! (Token v, CommentID v) = Some c
                /\ CUserID c <> UserID v)
  /\ (length (default [] (votes st !! (Token v, CommentID v, UserID v)))
      <= PolicyVoteChangesMax)%nat.

Definition edit_admissible (st : plugin_state) (e : Edit) : Prop :=
  EState e <> StateInvalid /\ token_valid (EToken e) = true
  /\ (String.length (EComment e) <= PolicyCommentLengthMax)%nat
  /\ EToken e ∈ records st
  /\ (exists c, comments st !! (EToken e, ECommentID e) = Some c
                /\ CUserID c = EUserID e /\ CParentID c = EParentID e
                /\ EComment e <> CText c).

(** Casting a sequence of votes, stopping at the first failure. *)
Definition cast_all (st : plugin_state) (vs : list Vote)
  : go_result plugin_state :=
  fold_left (fun acc v => bind acc (fun s => cmdVote s v)) vs (Ret st).

End WithPolicy.

(** The same payload with another signature. *)
Definition vote_signed (v : Vote) (sig : string) : Vote :=
  {| UserID := UserID v; State := State v; Token := Token v;
     CommentID := CommentID v; VoteV := VoteV v;
     PublicKey := PublicKey v; Signature := sig |}.

Definition edit_signed (e : Edit) (sig : string) : Edit :=
  {| EUserID := EUserID e; EState := EState e; EToken := EToken e;
     EParentID := EParentID e; ECommentID := ECommentID e;
     EComment := EComment e; EPublicKey := EPublicKey e; ESignature := sig |}.

(** The vote that [user] casts with the key [pk], signed with [sig]. *)
Definition vote_by (user : string) (s : StateT) (token : string)
    (commentID : N) (pk sig : string) (x : VoteT) : Vote :=
  {| UserID := user; State := s; Token := token; CommentID := commentID;
     VoteV := x; PublicKey := pk; Signature := sig |}.

(** The plugin state with one more vote of a user on a comment. *)
Definition with_vote (st : plugin_state) (k : string * N * string)
    (x : VoteT) : plugin_state :=
  {| records := records st;
     comments := comments st;
     votes := <[k := default [] (votes st !! k) ++ [x]]> (votes st) |}.

(** Sample data: a toy signature scheme in which the public key is the
    private key and the signature of [m] is the key followed by [m]; a
    record "abcd" with comment 1 written by "alice". *)
Definition toy_pub (sk : string) : string := sk.
Definition toy_sign (sk m : string) : string := sk ++ m.
Definition toy_verify (pk m sig : string) : bool := String.eqb sig (pk ++ m).
Definition st_one_comment : plugin_state :=
  {| records := {[ "abcd" ]};
     comments := {[ ("abcd", 1%N) :=
                      {| CUserID := "alice"; CParentID := 0; CText := "hi" |} ]};
     votes := ∅ |}.
Definition bob_vote (x : VoteT) : Vote :=
  vote_by "bob" StateUnvetted "abcd" 1 (toy_pub "k")
    (toy_sign "k" (vote_msg StateUnvetted "abcd" 1 x)) x.
Definition alice_edit : Edit :=
  {| EUserID := "alice"; EState := StateUnvetted; EToken := "abcd";
     EParentID := 0; ECommentID := 1; EComment := "hi there";
     EPublicKey := toy_pub "k";
     ESignature := toy_sign "k" (comment_msg StateUnvetted "abcd" 0 "hi there") |}.

(** The same record with a reply of "alice" to comment 1, and her edit of
    the reply to the text "2 cents". *)
Definition st_reply : plugin_state :=
  {| records := {[ "abcd" ]};
     comments := {[ ("abcd", 1%N) :=
                      {| CUserID := "alice"; CParentID := 0; CText := "hi" |};
                    ("abcd", 2%N) :=
                      {| CUserID := "alice"; CParentID := 1; CText := "ok" |} ]};
     votes := ∅ |}.
Definition reply_edit : Edit :=
  {| EUserID := "alice"; EState := StateUnvetted; EToken := "abcd";
     EParentID := 1; ECommentID := 2; EComment := "2 cents";
     EPublicKey := toy_pub "k";
     ESignature := toy_sign "k" (comment_msg StateUnvetted "abcd" 1 "2 cents") |}.

End Comments.

(** ** Predicates on the state of the test log client *)

Module TrillianInv.

Import Trillian.

(** Every pointer of [ps] refers to a leaf of the heap. *)
Definition valid_ptrs (h : heap) (ps : list loc) : Prop :=
  Forall (fun p => is_Some (h !! p)) ps.

(** The leaves of a tree carry the indices 0, 1, 2, ... in slice order. *)
Definition contiguous (h : heap) (ls : list loc) : Prop :=
  forall i p, ls !! i = Some p ->
    LeafIndex <$> h !! p = Some (Z.of_nat i).

(** What [leavesAppend] writes through a leaf pointer. *)
Definition stamp (hash : bytes -> bytes) (index : Z) (lf : LogLeaf) : LogLeaf :=
  {| MerkleLeafHash := hash (LeafValue lf);
     LeafValue := LeafValue lf;
     ExtraData := ExtraData lf;
     LeafIndex := index |}.

(** Sample data: a hash that reverses the value; a heap whose two leaves
    carry the indices 0 and 1. *)
Definition rev_hash (b : bytes) : bytes := rev b.
Definition leaf_c : LogLeaf :=
  {| MerkleLeafHash := []; LeafValue := [3]; ExtraData := []; LeafIndex := 1 |}.
Definition heap_ac : heap := {[ 1%positive := leaf_a; 3%positive := leaf_c ]}.

End TrillianInv.

(** ** Files behind the keys of the blob store *)

Module StoreInv.

Import Store.

Section WithPath.

Variable Join : string -> string -> string.

(** The content of the file behind a key, when it can be read. *)
Definition content_of (f : fileSystem) (d : disk) (key : string)
  : option bytes :=
  match d !! Join (root f) key with
  | Some (Readable b) => Some b
  | _ => None
  end.

Definition readable (f : fileSystem) (d : disk) (key : string) : Prop :=
  exists b, d !! Join (root f) key = Some (Readable b).

End WithPath.

End StoreInv.

(** ** Go slices *)

(** [l[n:]]: a panic when [n] exceeds the length. *)
Definition slice_from {A} (l : list A) (n : nat) : go_result (list A) :=
  if (n <=? length l)%nat then Ret (drop n l) else Panic.

(** [l[i]]: a panic when [i] is out of range. *)
Definition index_at {A} (l : list A) (i : nat) : go_result A :=
  match l !! i with
  | Some x => Ret x
  | None => Panic
  end.

(** ** The other checks of the verification tools *)

Module VerifyMore.

Import Verify.

(** [comments]: the entries of a comments bundle. *)
Record comment : Type := mkComment {
  CommentID : string;
  Receipt : string;
  CSignature : string;
  CServerPublicKey : string
}.

(** [files] of the older record verifier, which also carries the MIME
    type. *)
Record files_mime : Type := mkFileMime {
  OName : string;
  OMIME : string;
  ODigest : string;
  OPayload : string
}.

Section WithCrypto.

Variable Identity : Type.
Variable Sig : Type.
Variable json_Unmarshal : string -> go_result record.
Variable json_Unmarshal_comments : string -> go_result (list comment).
Variable base64_DecodeString : string -> go_result bytes.
Variable hex_EncodeToString : bytes -> string.
Variable util_Digest : bytes -> bytes.
Variable merkle_Root : list bytes -> bytes.
Variable util_IdentityFromString : string -> go_result Identity.
Variable util_ConvertSignature : string -> go_result Sig.
Variable VerifyMessage : Identity -> string -> Sig -> bool.
Variable wwwutil_MerkleRoot : list files -> list metadata -> go_result string.
Variable ioutil_ReadFile : string -> go_result string.

(** One iteration of the loop of [verifyComments]. *)
Definition verify_receipt (acc : go_result unit) (c : comment)
  : go_result unit :=
  (_ <- acc ;;
   id <- util_IdentityFromString (CServerPublicKey c) ;;
   receipt <- util_ConvertSignature (Receipt c) ;;
   if negb (VerifyMessage id (CSignature c) receipt)
   then Err (Errorf "Could not verify receipt")
   else Ret tt)%go.

(** [verifyComments]. *)
Definition verifyComments (payload : string) : go_result unit :=
  (cs <- json_Unmarshal_comments payload ;;
   fold_left verify_receipt cs (Ret tt))%go.

(** [_main] of the proposal and comments verifier, from the parsed flags
    on: [args] are the positional arguments, the booleans the values of
    [-proposal] and [-comments]. *)
Definition main_verify (args : list string) (flagVerifyProposal
    flagVerifyComments : bool) : go_result unit :=
  if negb (length args =? 1)%nat
  then Err (Errorf "Must provide json bundle path as input")
  else if flagVerifyProposal && flagVerifyComments
  then Err (Errorf "Must choose only one verification type")
  else if negb flagVerifyProposal && negb flagVerifyComments
  then Err (Errorf "Must choose at least one verification type")
  else
    (path <- index_at args 0 ;;
     payload <- ioutil_ReadFile path ;;
     if flagVerifyProposal
     then verifyProposal Identity Sig json_Unmarshal util_IdentityFromString
            util_ConvertSignature VerifyMessage wwwutil_MerkleRoot payload
     else if flagVerifyComments
     then verifyComments payload
     else Ret tt)%go.

(** One iteration of either loop of the older [merkleRoot]: decode the
    payload, hash it, append the digest; the digest that the bundle states
    is not looked at. *)
Definition digest_step_old (payload : string) (acc : go_result (list bytes))
  : go_result (list bytes) :=
  (digests <- acc ;;
   b <- base64_DecodeString payload ;;
   Ret (digests ++ [copy32 (util_Digest b)]))%go.

(** [merkleRoot] of the older record verifier. *)
Definition merkleRoot_old (fs : list files_mime) (mds : list metadata)
  : go_result string :=
  (d1 <- fold_left (fun acc f => digest_step_old (OPayload f) acc) fs (Ret []) ;;
   d2 <- fold_left (fun acc m => digest_step_old (MPayload m) acc) mds (Ret d1) ;;
   root <- root_slice merkle_Root d2 ;;
   Ret (hex_EncodeToString root))%go.

(** [verifyRecord] of the politeia command line tool; [flagArgs] is
    [flag.Args()], action included. The four parameters are read before
    their number is checked. *)
Definition verifyRecord (flagArgs : list string) : go_result unit :=
  (flags <- slice_from flagArgs 1 ;;
   pk <- index_at flags 0 ;;
   token <- index_at flags 1 ;;
   merkleRoot <- index_at flags 2 ;;
   signature <- index_at flags 3 ;;
   if (length flags <? 4)%nat
   then Err (Errorf "Must pass all input parameters")
   else
     id <- util_IdentityFromString pk ;;
     sig <- util_ConvertSignature signature ;;
     if negb (VerifyMessage id (merkleRoot ++ token) sig)
     then Err (Errorf "Invalid censorship record signature")
     else Ret tt)%go.

End WithCrypto.

(** A bundle entry whose payload decodes and whose stated digest is the
    digest of the decoded payload. *)
Definition entry_ok (base64_DecodeString : string -> go_result bytes)
    (util_Digest : bytes -> bytes) (util_ConvertDigest : string -> option bytes)
    (payload digest : string) : Prop :=
  exists b, base64_DecodeString payload = Ret b
            /\ util_ConvertDigest digest = Some (util_Digest b).

(** Sample data: a comments bundle with one receipt. *)
Definition toy_comments : list comment :=
  [ {| CommentID := "1"; Receipt := "Ssig"; CSignature := "sig";
       CServerPublicKey := "S" |} ].

End VerifyMore.

(** ** The politeiatlog command line tool *)

Module Tlog.

(** What the tool writes to its output. *)
Inductive event (T L : Type) : Type :=
  | EvUsage                                 (* usage() *)
  | EvTree (t : T)                          (* printTree *)
  | EvPrompt (n : nat)                      (* "There is a total of n leaves" *)
  | EvParsed (ls : list L)                  (* the output of leavesParse *)
  | EvRange (treeID startIndex count : Z)   (* TreeID, StartIndex, Count *)
  | EvLeaf (l : L)                          (* printLeaf *)
  | EvNoLeaves.                             (* "Tree has no leaves" *)
Arguments EvUsage {T L}.
Arguments EvTree {T L} t.
Arguments EvPrompt {T L} n.
Arguments EvParsed {T L} ls.
Arguments EvRange {T L} treeID startIndex count.
Arguments EvLeaf {T L} l.
Arguments EvNoLeaves {T L}.

(** A call with its output so far: the result and what was printed. *)
Definition io (E A : Type) : Type := (go_result A * list E)%type.

Definition io_bind {E A B} (m : io E A) (k : A -> io E B) : io E B :=
  match m with
  | (Ret a, out) => let '(r, out') := k a in (r, out ++ out')
  | (Err e, out) => (Err e, out)
  | (Panic, out) => (Panic, out)
  end.

(** A call that prints nothing, and a print. *)
Definition quiet {E A} (r : go_result A) : io E A := (r, []).
Definition print {E} (e : E) : io E unit := (Ret tt, [e]).

Declare Scope io_scope.
Delimit Scope io_scope with io.
Notation "x <- c1 ;; c2" := (io_bind c1 (fun x => c2))
  (at level 100, c1 at next level, right associativity) : io_scope.

(** [errInputParams]. *)
Definition errInputParams : error := Errorf "Must provide correct input params".

(** [defaultMaxLeavesLength]. *)
Definition defaultMaxLeavesLength : nat := 30.

(** The line feed that ends a typed line. *)
Definition newline : string := String (Ascii.ascii_of_nat 10) EmptyString.

Section WithClient.

(** [strconv.ParseInt(s, 10, 64)], the trillian client, [leavesParse] (its
    output is the event [EvParsed]) and the string that
    [bufio.Reader.ReadString] returns for the user's answer: the bytes read
    up to and including the line feed. *)
Variable T L : Type.
Variable ParseInt : string -> go_result Z.
Variable tclient_Tree : Z -> go_result T.
Variable tclient_LeavesAll : Z -> go_result (list L).
Variable tclient_LeavesByRange : Z -> Z -> Z -> go_result (list L).
Variable leavesParse : list L -> go_result unit.
Variable answer : string.

Abbreviation ev := (event T L).

(** [tree]: [flagArgs] is [flag.Args()], action included. *)
Definition tree (flagArgs : list string) : io ev unit :=
  (args <- quiet (slice_from flagArgs 1) ;;
   if negb (length args =? 1)%nat
   then (_ <- print EvUsage ;; quiet (Err errInputParams))
   else
     a <- quiet (index_at args 1) ;;
     treeID <- quiet (ParseInt a) ;;
     match tclient_Tree treeID with
     | Ret t => print (EvTree t)
     | Err _ => quiet (Err (Errorf "Tree ID not found on database"))
     | Panic => quiet Panic
     end)%io.

(** The end of [leavesAll] and [leavesByRange]: the prompt for trees with
    many leaves, then [leavesParse]. *)
Definition confirm_and_parse (leaves : list L) : io ev unit :=
  (proceed <-
     (if (defaultMaxLeavesLength <? length leaves)%nat
      then
        _ <- print (EvPrompt (length leaves)) ;;
        quiet (Ret (negb (negb (String.eqb answer "y")
                          && negb (String.eqb answer "yes"))))
      else quiet (Ret true)) ;;
   if proceed
   then (_ <- print (EvParsed leaves) ;; quiet (leavesParse leaves))
   else quiet (Ret tt))%io.

(** [leavesAll]. *)
Definition leavesAll (flagArgs : list string) : io ev unit :=
  (args <- quiet (slice_from flagArgs 1) ;;
   if negb (length args =? 1)%nat
   then (_ <- print EvUsage ;; quiet (Err errInputParams))
   else
     a <- quiet (index_at args 0) ;;
     treeID <- quiet (ParseInt a) ;;
     leaves <- quiet (tclient_LeavesAll treeID) ;;
     confirm_and_parse leaves)%io.

(** [leavesByRange]. *)
Definition leavesByRange (flagArgs : list string) : io ev unit :=
  (args <- quiet (slice_from flagArgs 1) ;;
   if negb (length args =? 3)%nat
   then (_ <- print EvUsage ;; quiet (Err errInputParams))
   else
     a0 <- quiet (index_at args 0) ;;
     treeID <- quiet (ParseInt a0) ;;
     a1 <- quiet (index_at args 1) ;;
     startIndex <- quiet (ParseInt a1) ;;
     a2 <- quiet (index_at args 2) ;;
     count <- quiet (ParseInt a2) ;;
     leaves <- quiet (tclient_LeavesByRange treeID startIndex count) ;;
     confirm_and_parse leaves)%io.

(** The loop that prints the leaves, and the note for an empty list. *)
Definition print_leaves (leaves : list L) : io ev unit :=
  (Ret tt, (EvLeaf <$> leaves)
           ++ (if (length leaves =? 0)%nat then [EvNoLeaves] else [])).

(** [leavesByRange] of the earlier version of the tool: all three numbers
    are parsed from [args[0]]. *)
Definition leavesByRange_v0 (flagArgs : list string) : io ev unit :=
  (args <- quiet (slice_from flagArgs 1) ;;
   if negb (length args =? 3)%nat
   then (_ <- print EvUsage ;;
         quiet (Err (Errorf "Must pass in all required arguments")))
   else
     a0 <- quiet (index_at args 0) ;;
     treeID <- quiet (ParseInt a0) ;;
     a1 <- quiet (index_at args 0) ;;
     startIndex <- quiet (ParseInt a1) ;;
     a2 <- quiet (index_at args 0) ;;
     count <- quiet (ParseInt a2) ;;
     leaves <- quiet (tclient_LeavesByRange treeID startIndex count) ;;
     _ <- print (EvRange treeID startIndex count) ;;
     print_leaves leaves)%io.

End WithClient.

(** Sample data: a decimal parser for small numbers and a client whose
    tree 7 has forty leaves. *)
Definition toy_ParseInt (s : string) : go_result Z :=
  if String.eqb s "7" then Ret 7
  else if String.eqb s "0" then Ret 0
  else if String.eqb s "2" then Ret 2
  else Err (Errorf "invalid syntax").
Definition forty_leaves (treeID : Z) : go_result (list nat) :=
  if treeID =? 7 then Ret (seq 0 40) else Err ErrNotFound.

End Tlog.

(** ** The politeia command line tool: metadata flags *)

Module Politeia.

Import Stdlib.Strings.Ascii.

(** [\d] of Go's regexp package: an ASCII digit. *)
Definition is_digit (c : Ascii.ascii) : bool :=
  (48 <=? Ascii.nat_of_ascii c)%nat && (Ascii.nat_of_ascii c <=? 57)%nat.

(** The regular expressions of the tool are sequences of literal characters
    and of one bounded run of digits [[\d]{lo,hi}]. *)
Inductive item : Type :=
  | Chr (c : Ascii.ascii)
  | Digits (lo hi : nat).

Fixpoint lit (s : string) : list item :=
  match s with
  | EmptyString => []
  | String c s' => Chr c :: lit s'
  end.

(** Matching [[\d]{lo,hi}] followed by the rest [k] of the expression at
    the start of [s]: the repetition is greedy, a shorter run is tried when
    the rest fails after a longer one. The result is the length of the
    match. *)
Fixpoint digits_then (k : string -> option nat) (lo hi : nat) (s : string)
  : option nat :=
  let stop := if (lo =? 0)%nat then k s else None in
  match hi with
  | O => stop
  | S hi' =>
      match s with
      | String c s' =>
          if is_digit c
          then match digits_then k (pred lo) hi' s' with
               | Some n => Some (S n)
               | None => stop
               end
          else stop
      | EmptyString => stop
      end
  end.

(** Matching a whole expression at the start of [s]. *)
Fixpoint match_items (items : list item) : string -> option nat :=
  match items with
  | [] => fun _ => Some 0%nat
  | Chr c :: r =>
      fun s =>
        match s with
        | String c' s' =>
            if Ascii.eqb c c' then S <$> match_items r s' else None
        | EmptyString => None
        end
  | Digits lo hi :: r => digits_then (match_items r) lo hi
  end.

Fixpoint stake (n : nat) (s : string) : string :=
  match n, s with
  | S n', String c s' => String c (stake n' s')
  | _, _ => EmptyString
  end.

Fixpoint sdrop (n : nat) (s : string) : string :=
  match n, s with
  | S n', String _ s' => sdrop n' s'
  | _, _ => s
  end.

(** [MatchString] and [FindString] for an expression that starts with
    [^]. *)
Definition MatchString (re : list item) (v : string) : bool :=
  bool_decide (is_Some (match_items re v)).

Definition FindString (re : list item) (v : string) : string :=
  match match_items re v with
  | Some n => stake n v
  | None => EmptyString
  end.

(** [FindString] for an expression without anchor: the leftmost match. *)
Fixpoint FindString_anywhere (re : list item) (v : string) : string :=
  match match_items re v with
  | Some n => stake n v
  | None =>
      match v with
      | String _ v' => FindString_anywhere re v'
      | EmptyString => EmptyString
      end
  end.

(** [regexMDID], [regexAppendMD], [regexOverwriteMD] and [regexToken]. *)
Definition regexMDID : list item := [Digits 1 2].
Definition regexAppendMD : list item :=
  lit "appendmetadata" ++ [Digits 1 2; Chr ":"%char].
Definition regexOverwriteMD : list item :=
  lit "overwritemetadata" ++ [Digits 1 2; Chr ":"%char].
Definition regexToken : list item := lit "token:".

(** [strconv.ParseUint(s, 10, 64)]: decimal digits only, no sign, a value
    below 2^64. *)
Fixpoint parse_digits (acc : N) (s : string) : option N :=
  match s with
  | EmptyString => Some acc
  | String c s' =>
      if is_digit c
      then parse_digits (10 * acc + (Ascii.N_of_ascii c - 48)) s'
      else None
  end.

Definition ParseUint (s : string) : go_result N :=
  match s with
  | EmptyString => Err (Errorf "invalid syntax")
  | _ =>
      match parse_digits 0 s with
      | None => Err (Errorf "invalid syntax")
      | Some n =>
          if (n <? 2 ^ 64)%N then Ret n else Err (Errorf "value out of range")
      end
  end.

(** [v1.MetadataStream]. *)
Record MetadataStream : Type := mkMD { ID : N; Payload : string }.

(** The variables of the loop of [validateMetadataFlags]. *)
Record md_state : Type := mkMDState {
  mdAppend : list MetadataStream;
  mdOverwrite : list MetadataStream;
  token : string;
  tokenCount : N
}.

(** One iteration of the loop: the [switch] on the flag. *)
Definition md_step (st : md_state) (v : string) : go_result md_state :=
  if MatchString regexAppendMD v then
    let s := FindString regexAppendMD v in
    (i <- ParseUint (FindString_anywhere regexMDID s) ;;
     Ret {| mdAppend := mdAppend st
                        ++ [{| ID := i; Payload := sdrop (String.length s) v |}];
            mdOverwrite := mdOverwrite st;
            token := token st;
            tokenCount := tokenCount st |})%go
  else if MatchString regexOverwriteMD v then
    let s := FindString regexOverwriteMD v in
    (i <- ParseUint (FindString_anywhere regexMDID s) ;;
     Ret {| mdAppend := mdAppend st;
            mdOverwrite := mdOverwrite st
                           ++ [{| ID := i; Payload := sdrop (String.length s) v |}];
            token := token st;
            tokenCount := tokenCount st |})%go
  else if MatchString regexToken v then
    if negb (tokenCount st =? 0)%N
    then Err (Errorf "only 1 token allowed")
    else
      let s := FindString regexToken v in
      Ret {| mdAppend := mdAppend st;
             mdOverwrite := mdOverwrite st;
             token := sdrop (String.length s) v;
             tokenCount := (tokenCount st + 1)%N |}
  else Err (Errorf "invalid action").

Definition md_loop (flags : list string) (st : go_result md_state)
  : go_result md_state :=
  fold_left (fun acc v => bind acc (fun st => md_step st v)) flags st.

(** [validateMetadataFlags]. *)
Definition validateMetadataFlags (flags : list string)
  : go_result (list MetadataStream * list MetadataStream * string) :=
  (st <- md_loop flags (Ret {| mdAppend := []; mdOverwrite := [];
                               token := ""; tokenCount := 0 |}) ;;
   if negb (tokenCount st =? 1)%N
   then Err (Errorf "must provide token")
   else Ret (mdAppend st, mdOverwrite st, token st))%go.

(** How a user writes the flags: an action with the id of the metadata
    stream in decimal and the payload, and the token. *)
Definition append_flag (id : N) (payload : string) : string :=
  "appendmetadata" ++ pretty id ++ ":" ++ payload.
Definition overwrite_flag (id : N) (payload : string) : string :=
  "overwritemetadata" ++ pretty id ++ ":" ++ payload.
Definition token_flag (tok : string) : string := "token:" ++ tok.

(** A metadata action, as written on the command line: append or
    overwrite, the stream id and the payload. *)
Definition md_flag (a : bool * N * string) : string :=
  let '(app, id, payload) := a in
  if app then append_flag id payload else overwrite_flag id payload.

Definition md_of (a : bool * N * string) : MetadataStream :=
  {| ID := a.1.2; Payload := a.2 |}.

(** No character of the string is a digit. *)
Fixpoint no_digit (s : string) : bool :=
  match s with
  | EmptyString => true
  | String c s' => negb (is_digit c) && no_digit s'
  end.

(** One or two digits. *)
Definition digits12 (s : string) : bool :=
  match s with
  | String a EmptyString => is_digit a
  | String a (String b EmptyString) => is_digit a && is_digit b
  | _ => false
  end.

End Politeia.

(** ** The proposal status change mails of politeiawww *)

Module Email.

Import Tlog.

(** [v1.PropStatusT]: the two statuses the mail code names, and any
    other. *)
Inductive PropStatusT : Type :=
  | PropStatusCensored
  | PropStatusPublic
  | PropStatusOther.

(** The templates of the three mails. *)
Inductive template : Type :=
  | templateProposalCensoredForAuthor
  | templateProposalVettedForAuthor
  | templateProposalVetted.

(** [proposalStatusChangeTemplateData]. *)
Record proposalStatusChangeTemplateData : Type := mkTplData {
  Link : string;
  Name : string;
  Username : string;
  StatusChangeReason : string
}.

(** [dataProposalStatusChange], the fields that the mail code reads. *)
Record dataProposalStatusChange : Type := mkData {
  token : string;
  name : string;
  email : string;
  username : string;
  statusChangeMessage : string;
  emailNotifications : N;
  status : PropStatusT
}.

(** A call of [p.smtp.sendEmailTo]. *)
Record mail : Type := mkMail {
  Subject : string;
  Body : string;
  Recipients : list string
}.

Section WithServer.

(** [WebServerAddress] of the configuration; [url.Parse] followed by
    [String]; [tpl.Execute] on a template, nil included, with the text it
    produces; [notificationIsSet] for the setting
    [NotificationEmailMyProposalStatusChange]; the outcome of handing a mail
    to the SMTP client. *)
Variable WebServerAddress : string.
Variable url_Parse : string -> go_result string.
Variable tpl_Execute :
  option template -> proposalStatusChangeTemplateData -> go_result string.
Variable notificationIsSet : N -> bool.
Variable smtp_send : mail -> go_result unit.

(** [p.smtp.sendEmailTo]: the mail is recorded as sent. *)
Definition sendEmailTo (subject body : string) (recipients : list string)
  : Tlog.io mail unit :=
  let m := {| Subject := subject; Body := body; Recipients := recipients |} in
  (smtp_send m, [m]).

(** [createBody]. *)
Definition createBody (tpl : option template)
    (tplData : proposalStatusChangeTemplateData) : go_result string :=
  tpl_Execute tpl tplData.

(** [emailAuthorProposalStatusChange]. *)
Definition emailAuthorProposalStatusChange (name email link
    statusChangeMsg : string) (emailNotifications : N) (status : PropStatusT)
    (emails : list string) : Tlog.io mail unit :=
  if negb (notificationIsSet emailNotifications) then Tlog.quiet (Ret tt)
  else
    let '(subject, template) :=
      match status with
      | PropStatusCensored =>
          ("Your Proposal Has Been Censored",
           Some templateProposalCensoredForAuthor)
      | PropStatusPublic =>
          ("Your Proposal Has Been Published",
           Some templateProposalVettedForAuthor)
      | PropStatusOther => ("", None)
      end in
    let authorTplData :=
      {| Link := link; Name := name; Username := "";
         StatusChangeReason := statusChangeMsg |} in
    (body <- Tlog.quiet (createBody template authorTplData) ;;
     sendEmailTo subject body [email])%io.

(** [emailUsersProposalStatusChange]. *)
Definition emailUsersProposalStatusChange (name username link : string)
    (emails : list string) : Tlog.io mail unit :=
  if (0 <? length emails)%nat then Tlog.quiet (Ret tt)
  else
    let usersTplData :=
      {| Link := link; Name := name; Username := username;
         StatusChangeReason := "" |} in
    (body <- Tlog.quiet (createBody (Some templateProposalVetted) usersTplData) ;;
     sendEmailTo "New Proposal Published" body emails)%io.

(** [emailProposalStatusChange]; the route is [guiRouteProposalDetails]
    with the token in the place of "{token}". *)
Definition emailProposalStatusChange (data : dataProposalStatusChange)
    (emails : list string) : Tlog.io mail unit :=
  let route := ("/proposals/" ++ token data)%string in
  (l <- Tlog.quiet (url_Parse (WebServerAddress ++ route)%string) ;;
   _ <- emailAuthorProposalStatusChange (name data) (email data) l
          (statusChangeMessage data) (emailNotifications data) (status data)
          emails ;;
   emailUsersProposalStatusChange (name data) (username data) l emails)%io.

End WithServer.

End Email.

(** ** Commands of the politeiawww command line client *)

Module Cli.

Import Tlog.

(** [pi.PropStateT] and [pi.CommentVoteT], the values that the vote command
    uses; [CommentVoteInvalid] is the zero value of the variable [vote]. *)
Inductive PropStateT : Type := PropStateUnvetted | PropStateVetted.
Inductive CommentVoteT : Type :=
  | CommentVoteInvalid
  | CommentVoteUpvote
  | CommentVoteDownvote.

(** [CommentVoteCmd]: the positional arguments and the two flags. *)
Record CommentVoteCmd : Type := mkVoteCmd {
  ArgToken : string;
  ArgCommentID : string;
  ArgAction : string;
  Vetted : bool;
  Unvetted : bool
}.

(** [pi.CommentVote], the request. *)
Record CommentVote : Type := mkCommentVote {
  Token : string;
  State : PropStateT;
  CommentID : N;
  Vote : CommentVoteT;
  Signature : string;
  PublicKey : string
}.

(** [proposalsVettedCmd]. *)
Record proposalsVettedCmd : Type := mkVettedCmd {
  Before : string;
  After : string
}.

(** [strconv.ParseUint(s, 10, 32)]. *)
Definition ParseUint32 (s : string) : go_result N :=
  match s with
  | EmptyString => Err (Errorf "invalid syntax")
  | _ =>
      match Politeia.parse_digits 0 s with
      | None => Err (Errorf "invalid syntax")
      | Some n =>
          if (n <? 2 ^ 32)%N then Ret n else Err (Errorf "value out of range")
      end
  end.

(** What a command does towards the server and the terminal. *)
Inductive call (P R : Type) : Type :=
  | CallVersion
  | CallGetAllVetted (before after : string)
  | CallUserProposals (userID : string)
  | CallCommentVote (cv : CommentVote)
  | PrintRequest (cv : CommentVote)
  | PrintReply (r : R)
  | PrintProposals (page : list P).
Arguments CallVersion {P R}.
Arguments CallGetAllVetted {P R} before after.
Arguments CallUserProposals {P R} userID.
Arguments CallCommentVote {P R} cv.
Arguments PrintRequest {P R} cv.
Arguments PrintReply {P R} r.
Arguments PrintProposals {P R} page.

Section WithClient.

(** The identity of the configuration with its signing function, hex
    encoding, the conversions [string(state)] and [string(vote)], the
    server calls, [shared.VerifyProposal] and [shared.PrintJSON]. *)
Variable P R Identity : Type.
Variable cfg_Identity : option Identity.
Variable SignMessage : Identity -> string -> bytes.
Variable public_key : Identity -> bytes.
Variable hex_EncodeToString : bytes -> string.
Variable state_string : PropStateT -> string.
Variable vote_string : CommentVoteT -> string.
Variable client_CommentVote : CommentVote -> go_result R.
Variable client_Version : go_result string.
Variable client_GetAllVetted : string -> string -> go_result (list P).
Variable client_UserProposals : string -> go_result (list P).
Variable VerifyProposal : P -> string -> go_result unit.
Variable PrintJSON_request : CommentVote -> go_result unit.
Variable PrintJSON_reply : R -> go_result unit.
Variable PrintJSON_proposals : list P -> go_result unit.

Abbreviation cl := (call P R).

(** A call that is recorded and then answers. *)
Definition does {A} (c : cl) (r : go_result A) : io cl A := (r, [c]).

(** [CommentVoteCmd.Execute]. *)
Definition CommentVoteCmd_Execute (cmd : CommentVoteCmd) : io cl unit :=
  let token := ArgToken cmd in
  let commentID := ArgCommentID cmd in
  let action := ArgAction cmd in
  (state <- quiet
     (if Vetted cmd && Unvetted cmd
      then Err (Errorf "cannot use --vetted and --unvetted simultaneously")
      else if Unvetted cmd then Ret PropStateUnvetted
      else if Vetted cmd then Ret PropStateVetted
      else Err (Errorf "must specify either --vetted or unvetted")) ;;
   _ <- quiet
     (if negb (String.eqb action "upvote") && negb (String.eqb action "downvote")
      then Err (Errorf "invalid action")
      else Ret tt) ;;
   id <- quiet
     (match cfg_Identity with
      | None => Err (Errorf "user identity not found")
      | Some id => Ret id
      end) ;;
   let vote :=
     if String.eqb action "upvote" then CommentVoteUpvote
     else if String.eqb action "downvote" then CommentVoteDownvote
     else CommentVoteInvalid in
   let sig := SignMessage id
                (state_string state ++ token ++ commentID ++ vote_string vote) in
   ciUint <- quiet (ParseUint32 commentID) ;;
   let cv := {| Token := token; State := state; CommentID := ciUint;
                Vote := vote; Signature := hex_EncodeToString sig;
                PublicKey := hex_EncodeToString (public_key id) |} in
   _ <- does (PrintRequest cv) (PrintJSON_request cv) ;;
   cvr <- does (CallCommentVote cv) (client_CommentVote cv) ;;
   does (PrintReply cvr) (PrintJSON_reply cvr))%io.

(** The request that the vote command builds from its arguments. *)
Definition request_of (cmd : CommentVoteCmd) (id : Identity) (n : N)
  : CommentVote :=
  let state := if Unvetted cmd then PropStateUnvetted else PropStateVetted in
  let vote := if String.eqb (ArgAction cmd) "upvote"
              then CommentVoteUpvote else CommentVoteDownvote in
  {| Token := ArgToken cmd;
     State := state;
     CommentID := n;
     Vote := vote;
     Signature :=
       hex_EncodeToString
         (SignMessage id
            (state_string state ++ ArgToken cmd ++ ArgCommentID cmd
             ++ vote_string vote));
     PublicKey := hex_EncodeToString (public_key id) |}.

(** The loop that verifies the censorship record of every proposal. *)
Definition verify_all (pubkey : string) (ps : list P) : go_result unit :=
  fold_left
    (fun acc p =>
       bind acc (fun _ =>
         match VerifyProposal p pubkey with
         | Ret _ => Ret tt
         | Err _ => Err (Errorf "unable to verify proposal")
         | Panic => Panic
         end))
    ps (Ret tt).

(** [proposalsVettedCmd.Execute]. *)
Definition proposalsVettedCmd_Execute (cmd : proposalsVettedCmd)
  : io cl unit :=
  if negb (String.eqb (Before cmd) "") && negb (String.eqb (After cmd) "")
  then quiet (Err (Errorf
         "the 'before' and 'after' flags cannot be used at the same time"))
  else
    (pubkey <- does CallVersion client_Version ;;
     page <- does (CallGetAllVetted (Before cmd) (After cmd))
               (client_GetAllVetted (Before cmd) (After cmd)) ;;
     _ <- quiet (verify_all pubkey page) ;;
     does (PrintProposals page) (PrintJSON_proposals page))%io.

(** [userProposalsCmd.Execute]. *)
Definition userProposalsCmd_Execute (userID : string) : io cl unit :=
  (pubkey <- does CallVersion client_Version ;;
   page <- does (CallUserProposals userID) (client_UserProposals userID) ;;
   _ <- quiet (verify_all pubkey page) ;;
   does (PrintProposals page) (PrintJSON_proposals page))%io.

End WithClient.

End Cli.

(** * Properties *)

Lemma wrap64_small z : - 2 ^ 63 <= z < 2 ^ 63 -> wrap64 z = z.
Proof.
  intros Hz. unfold wrap64. rewrite Z.mod_small; lia.
Qed.

Lemma bind_Ret_inv {A B} (r : go_result A) (k : A -> go_result B) b :
  bind r k = Ret b -> exists a, r = Ret a /\ k a = Ret b.
Proof.
  destruct r as [a| |]; simpl; intros H; try discriminate. eauto.
Qed.

(** ** The test log client *)

Section TrillianFacts.

Import Trillian.

Variable hash : bytes -> bytes.

(** *** [treesAll] *)

Lemma treesAll_in_fold (order : list (Z * Tree)) (acc : list (option Tree)) :
  fold_left (fun acc kv => acc ++ [Some kv.2]) order acc
  = acc ++ (Some <$> order.*2).
Proof.
  revert acc. induction order as [|kv order IH]; intros acc; simpl.
  - by rewrite app_nil_r.
  - rewrite IH. by rewrite <- app_assoc.
Qed.

Lemma treesAll_in_eq (order : list (Z * Tree)) :
  treesAll_in order
  = replicate (length order) None ++ (Some <$> order.*2).
Proof. unfold treesAll_in. apply treesAll_in_fold. Qed.

(** *** [leavesAppend] *)

Lemma append_fold_Ret index batch st r :
  fold_left (append_step hash index) batch st = Ret r ->
  exists s, st = Ret s.
Proof.
  revert st. induction batch as [|l batch IH]; intros st; simpl.
  - eauto.
  - intros H. apply IH in H as [s Hs].
    unfold append_step in Hs. apply bind_Ret_inv in Hs as (a & -> & _). eauto.
Qed.

Lemma append_fold_index index batch :
  forall h cur q h' cur' q' seen,
    fold_left (append_step hash index) batch (Ret (h, cur, q))
      = Ret (h', cur', q') ->
    all_at index h seen ->
    all_at index h' (seen ++ omap id batch)
    /\ cur' = cur ++ omap id batch
    /\ q' = q ++ (mkQueued <$> omap id batch)
    /\ Forall (fun l => is_Some l) batch.
Proof.
  induction batch as [|l batch IH]; intros h cur q h' cur' q' seen Hf Hseen.
  - simpl in Hf. injection Hf as <- <- <-. simpl.
    rewrite !app_nil_r. auto.
  - simpl in Hf.
    destruct (append_fold_Ret _ _ _ _ Hf) as [[[h1 cur1] q1] Hstep].
    rewrite Hstep in Hf.
    unfold append_step in Hstep. simpl in Hstep.
    destruct l as [p|]; [|discriminate].
    destruct (h !! p) as [lf|] eqn:Hp; [|discriminate].
    injection Hstep as <- <- <-.
    apply (IH _ _ _ _ _ _ (seen ++ [p])) in Hf as (Hall & -> & -> & Hsome).
    + simpl. rewrite <- !app_assoc in *. simpl in *.
      repeat split; auto.
    + intros p' Hin. apply elem_of_app in Hin as [Hin|Hin].
      * destruct (decide (p = p')) as [->|Hne].
        -- by rewrite lookup_insert_eq.
        -- rewrite lookup_insert_ne by done. by apply Hseen.
      * apply list_elem_of_singleton in Hin as ->.
        by rewrite lookup_insert_eq.
Qed.

(** Whatever the batch, a successful [leavesAppend] gives every leaf of the
    batch one and the same index: the one that follows the tree's last
    leaf. *)
Lemma leavesAppend_one_index treeID batch h t q h' t' :
  leavesAppend hash treeID batch h t = Ret (q, h', t') ->
  exists index,
    next_index h (leaves_of t treeID) = Ret index
    /\ forall p, Some p ∈ batch -> LeafIndex <$> h' !! p = Some index.
Proof.
  unfold leavesAppend. intros H.
  apply bind_Ret_inv in H as (index & Hidx & H).
  apply bind_Ret_inv in H as ([[h1 cur1] q1] & Hfold & H).
  injection H as <- <- <-.
  exists index. split; [done|].
  apply (append_fold_index _ _ _ _ _ _ _ _ []) in Hfold as (Hall & _).
  - intros p Hin. apply Hall. simpl.
    apply list_elem_of_omap. exists (Some p). auto.
  - intros p Hin. by apply elem_of_nil in Hin.
Qed.

(** *** [leavesByRange] *)

Lemma leavesByRange_nil treeID startIndex count h t ls :
  leavesByRange treeID startIndex count h t = Ret ls -> ls = [].
Proof.
  unfold leavesByRange. destruct (leaves t !! treeID); [|discriminate].
  intros H. apply bind_Ret_inv in H as (_ & _ & H). by injection H.
Qed.

(** C1 (the code departs from the claim). Two fresh leaves appended in one
    batch to the empty tree 7 both end up with leaf index 0: the loop of
    [leavesAppend] never advances [index], so the second leaf does not
    receive index 1. *)
Theorem leavesAppend_batch_repeats_index :
  appended_indices hash 7 [Some 1%positive; Some 2%positive]
    heap_ab client_empty7
  = Ret [Some 0; Some 0].
Proof. vm_compute. reflexivity. Qed.

(** C4 (the code departs from the claim). Tree 7 holds one leaf, at index 0.
    For the range starting at 0 with count 1 the loop of [leavesByRange]
    collects that leaf, yet the function returns the nil slice. *)
Theorem leavesByRange_returns_nil :
  indices heap_ab (leaves_of client_one7 7) = [Some 0]
  /\ range_loop heap_ab 0 1 (leaves_of client_one7 7) = Ret (1, [1%positive])
  /\ leavesByRange 7 0 1 heap_ab client_one7 = Ret [].
Proof. repeat split; vm_compute; reflexivity. Qed.

(** C10. Whatever the order in which the map of trees is visited, for a
    client holding n trees [treesAll] returns a slice of length 2n whose
    first n entries are nil and whose remaining n entries are exactly the
    client's trees; when n > 0 the first entry a caller meets is nil. *)
Theorem treesAll_nil_prefix (t : TestTrillianClient) (order : list (Z * Tree)) :
  order ≡ₚ map_to_list (trees t) ->
  let n := size (trees t) in
  let r := treesAll_in order in
  length r = (2 * n)%nat
  /\ take n r = replicate n None
  /\ drop n r = Some <$> order.*2
  /\ (forall tr, Some tr ∈ drop n r <-> exists id, trees t !! id = Some tr)
  /\ ((0 < n)%nat -> head r = Some None).
Proof.
  intros Hperm n r.
  assert (Hlen : length order = n).
  { rewrite Hperm. unfold n. apply length_map_to_list. }
  assert (Hr : r = replicate n None ++ (Some <$> order.*2)).
  { unfold r. rewrite treesAll_in_eq. by rewrite Hlen. }
  assert (Hn : length (replicate n (@None Tree)) = n) by apply length_replicate.
  split; [|split; [|split; [|split]]].
  - rewrite Hr, length_app, Hn, !length_fmap. lia.
  - rewrite Hr. rewrite take_app_length'; done.
  - rewrite Hr. rewrite drop_app_length'; done.
  - intros tr. rewrite Hr, drop_app_length' by done.
    rewrite list_elem_of_fmap. split.
    + intros (tr' & [= <-] & Hin).
      apply list_elem_of_fmap in Hin as ([id tr'] & -> & Hin).
      exists id. apply elem_of_map_to_list. by rewrite <- Hperm.
    + intros [id Hid]. exists tr. split; [done|].
      apply list_elem_of_fmap. exists (id, tr). split; [done|].
      rewrite Hperm. by apply elem_of_map_to_list.
  - intros Hpos. rewrite Hr. destruct n; [lia|]. reflexivity.
Qed.

Lemma treesAll_nil_prefix_witness :
  map_to_list (trees client_two) ≡ₚ map_to_list (trees client_two)
  /\ treesAll client_two = Ret [None; None; Some tree7; Some tree9]
  /\ length (treesAll_in (map_to_list (trees client_two)))
     = (2 * size (trees client_two))%nat.
Proof.
  split; [reflexivity|]. split; [vm_compute; reflexivity|].
  apply (treesAll_nil_prefix client_two (map_to_list (trees client_two))).
  reflexivity.
Defined.

End TrillianFacts.

(** ** The blob store *)

Section StoreFacts.

Import Store.

Variable Join : string -> string -> string.

(** A key whose file does not exist ends [Get] with [store.ErrNotFound],
    whatever was read before it. *)
Lemma Get_loop_missing f d key rest blobs :
  d !! Join (root f) key = None ->
  Get_loop Join f d (key :: rest) blobs = Err ErrNotFound.
Proof. intros H. simpl. unfold ReadFile. by rewrite H. Qed.

(** An error of the operating system other than "does not exist" is
    returned to the caller. *)
Lemma Get_loop_unreadable f d key rest blobs msg :
  d !! Join (root f) key = Some (Unreadable msg) ->
  Get_loop Join f d (key :: rest) blobs = Err (ErrIO msg).
Proof. intros H. simpl. unfold ReadFile. by rewrite H. Qed.

(** When every key can be read, [Get] returns a map with an entry for each
    of them. *)
Lemma Get_loop_all_readable f d keys blobs :
  Forall (fun key => exists b, d !! Join (root f) key = Some (Readable b)) keys ->
  exists m, Get_loop Join f d keys blobs = Ret m
    /\ (forall key, key ∈ keys -> is_Some (m !! key))
    /\ (forall key, key ∉ keys -> m !! key = blobs !! key).
Proof.
  intros Hall. revert blobs.
  induction Hall as [|key keys [b Hb] _ IH]; intros blobs.
  - exists blobs. split; [done|]. split; [|done].
    intros key Hin. by apply elem_of_nil in Hin.
  - simpl. unfold ReadFile. rewrite Hb.
    destruct (IH (<[key := b]> blobs)) as (m & -> & Hin & Hout).
    exists m. split; [done|]. split.
    + intros k Hk. apply elem_of_cons in Hk as [Heq|Hk]; [|by apply Hin].
      destruct (decide (k ∈ keys)) as [Hk|Hk]; [by apply Hin|].
      rewrite (Hout _ Hk), Heq, lookup_insert_eq. eauto.
    + intros k Hk. apply not_elem_of_cons in Hk as [Hne Hk].
      rewrite (Hout _ Hk). by rewrite lookup_insert_ne.
Qed.

(** C3 (the code departs from the claim). Asked for the one key "k" over an
    empty directory, [Get] returns the error [store.ErrNotFound] instead of
    an empty map and a nil error. *)
Theorem Get_missing_key_is_error :
  Get Join fs_data ∅ ["k"] = Err ErrNotFound.
Proof. unfold Get. apply Get_loop_missing. apply lookup_empty. Qed.

(** C5 (the claim as stated fails). Put of one blob does not return one
    key: there is no result with a key list of length 1. *)
Lemma Put_returns_no_key :
  ~ exists ks d', Put fs_data ∅ [[1; 2; 3]] = (Ret ks, d')
                  /\ length ks = length [[1; 2; 3]].
Proof. intros (ks & d' & [= <- <-] & Hlen). discriminate Hlen. Qed.

(** C5 (amended). [Put] of this store is a stub: for every list of blobs it
    returns the empty key list and a nil error and leaves the directory
    untouched, so that submitting the same blobs twice gives the same
    (empty) answer both times and [Get] reads what it read before. *)
Theorem Put_is_stub (f : fileSystem) (d : disk) (blobs : list bytes) :
  Put f d blobs = (Ret [], d)
  /\ Put f (Put f d blobs).2 blobs = Put f d blobs
  /\ forall keys, Get Join f (Put f d blobs).2 keys = Get Join f d keys.
Proof. repeat split. Qed.

End StoreFacts.

(** ** The encryption key *)

Section KeyFacts.

Import Key.

Variable rand_nonce : go_result bytes.
Variable seal : Z -> bytes -> bytes -> bytes -> bytes.
Variable parse_header : bytes -> go_result (Z * bytes * bytes).
Variable open : bytes -> bytes -> bytes -> option bytes.

Lemma util_Zero_replicate (b : bytes) :
  util_Zero b = replicate (length b) 0.
Proof.
  unfold util_Zero. induction b as [|x b IH]; simpl; [done|]. by f_equal.
Qed.

Lemma Encrypt_nil_key h version blob :
  fails_loudly (Encrypt rand_nonce seal h {| key := None |} version blob).
Proof.
  unfold Encrypt, sbox_Encrypt. simpl. by destruct rand_nonce.
Qed.

Lemma Decrypt_nil_key h blob :
  fails_loudly (Decrypt parse_header open h {| key := None |} blob).
Proof.
  unfold Decrypt, sbox_Decrypt. simpl.
  by destruct (parse_header blob) as [[[v n] b]| |].
Qed.

(** C6. [zero] on a key whose pointer refers to a key array returns: it
    leaves that array with only zero bytes, every other array as it was,
    and the key pointer nil. Whenever [zero] returns, the array the key
    pointed to holds only zero bytes and the key pointer is nil; from then
    on, over any later heap, every [Encrypt] and every [Decrypt] ends in an
    error or a panic, never in a value, and so does a second [zero]. *)
Theorem zero_makes_key_unusable (h : heap) (e : EncryptionKey) :
  (forall l kb,
     key e = Some l -> h !! l = Some kb ->
     zero h e = Ret (<[l := replicate (length kb) 0]> h, {| key := None |}))
  /\ (forall h' e',
        zero h e = Ret (h', e') ->
        key e' = None
        /\ (exists l kb, key e = Some l /\ h !! l = Some kb
                         /\ h' !! l = Some (replicate (length kb) 0))
        /\ (forall h'' version blob,
              fails_loudly (Encrypt rand_nonce seal h'' e' version blob))
        /\ (forall h'' blob,
              fails_loudly (Decrypt parse_header open h'' e' blob))
        /\ (forall h'', zero h'' e' = Panic)).
Proof.
  split.
  - intros l kb Hk Hl. unfold zero.
    by rewrite Hk, Hl, util_Zero_replicate.
  - intros h' e'. unfold zero. destruct e as [[l|]]; simpl; [|discriminate].
    destruct (h !! l) as [kb|] eqn:Hl; [|discriminate].
    intros [= <- <-]. repeat split.
    + exists l, kb. repeat split; [done|].
      by rewrite lookup_insert_eq, util_Zero_replicate.
    + intros. apply Encrypt_nil_key.
    + intros. apply Decrypt_nil_key.
Qed.

End KeyFacts.

Lemma zero_makes_key_unusable_witness :
  Key.zero Key.heap_key Key.key_one
    = Ret (<[1%positive := replicate 32 0]> Key.heap_key, Key.mkKey None)
  /\ Key.Encrypt (Ret []) Key.plain_seal
       (<[1%positive := replicate 32 0]> Key.heap_key) (Key.mkKey None)
       1 [1; 2; 3] = Panic
  /\ Key.key (Key.mkKey None) = None.
Proof.
  destruct (zero_makes_key_unusable (Ret []) Key.plain_seal Key.plain_header
              Key.plain_open Key.heap_key Key.key_one) as [Hret Hafter].
  split; [exact (Hret 1%positive (replicate 32 7) eq_refl eq_refl)|].
  split; [reflexivity|].
  apply (Hafter (<[1%positive := replicate 32 0]> Key.heap_key)
           (Key.mkKey None)).
  reflexivity.
Defined.

(** ** The bundle checks *)

Section VerifyFacts.

Import Verify.

Variable Identity : Type.
Variable Sig : Type.
Variable json_Unmarshal : string -> go_result record.
Variable base64_DecodeString : string -> go_result bytes.
Variable hex_EncodeToString : bytes -> string.
Variable util_Digest : bytes -> bytes.
Variable util_ConvertDigest : string -> option bytes.
Variable merkle_Root : list bytes -> bytes.
Variable util_IdentityFromString : string -> go_result Identity.
Variable util_ConvertSignature : string -> go_result Sig.
Variable zeroSig : Sig.
Variable VerifyMessage : Identity -> string -> Sig -> bool.
Variable wwwutil_MerkleRoot : list files -> list metadata -> go_result string.

Local Abbreviation digest_step :=
  (digest_step base64_DecodeString util_Digest util_ConvertDigest).
Local Abbreviation payload_digest :=
  (payload_digest base64_DecodeString util_Digest).
Local Abbreviation merkleRoot :=
  (merkleRoot base64_DecodeString hex_EncodeToString util_Digest
     util_ConvertDigest merkle_Root).

Lemma digest_fold_Ret {A} (step : A -> string * string) what l st ds :
  fold_left (fun acc x => digest_step what (step x).1 (step x).2 acc) l st
    = Ret ds ->
  exists acc, st = Ret acc.
Proof.
  revert st. induction l as [|x l IH]; intros st; simpl; [eauto|].
  intros H. apply IH in H as [acc Hacc].
  unfold Verify.digest_step in Hacc.
  apply bind_Ret_inv in Hacc as (a & -> & _). eauto.
Qed.

(** A loop of [merkleRoot] that finishes has appended the digest of every
    decoded payload, in order, and has found it equal to the digest that
    the bundle states. *)
Lemma digest_fold_spec {A} (step : A -> string * string) what l acc ds :
  fold_left (fun acc x => digest_step what (step x).1 (step x).2 acc) l
    (Ret acc) = Ret ds ->
  exists new,
    ds = acc ++ new
    /\ (fun x => payload_digest (step x).1) <$> l = Some <$> new
    /\ Forall (fun x => exists b,
                 base64_DecodeString (step x).1 = Ret b
                 /\ util_ConvertDigest (step x).2 = Some (util_Digest b)) l.
Proof.
  revert acc. induction l as [|x l IH]; intros acc; simpl.
  - intros [= <-]. exists []. by rewrite app_nil_r.
  - intros H. destruct (digest_fold_Ret _ _ _ _ _ H) as [acc1 Hstep].
    rewrite Hstep in H. apply IH in H as (new & -> & Hnew & Hall).
    unfold Verify.digest_step in Hstep. simpl in Hstep.
    destruct (base64_DecodeString (step x).1) as [b| |] eqn:Hb;
      simpl in Hstep; try discriminate.
    destruct (util_ConvertDigest (step x).2) as [cd|] eqn:Hcd;
      [|discriminate].
    unfold bytes_Equal in Hstep. case_bool_decide; [|discriminate].
    injection Hstep as <-. subst cd.
    exists (copy32 (util_Digest b) :: new). split; [|split].
    + by rewrite <- app_assoc.
    + rewrite !fmap_cons. f_equal; [|exact Hnew].
      unfold Verify.payload_digest. by rewrite Hb.
    + constructor; eauto.
Qed.

Lemma root_slice_Ret (ds : list bytes) (root : bytes) :
  root_slice merkle_Root ds = Ret root -> ds <> [] /\ root = merkle_Root ds.
Proof. destruct ds; [discriminate|]. by intros [= <-]. Qed.

Lemma merkleRoot_spec fs mds m :
  merkleRoot fs mds = Ret m ->
  exists digests,
    content_digests base64_DecodeString util_Digest fs mds = Some <$> digests
    /\ m = hex_EncodeToString (merkle_Root digests).
Proof.
  unfold Verify.merkleRoot. intros H.
  apply bind_Ret_inv in H as (d1 & H1 & H).
  apply bind_Ret_inv in H as (d2 & H2 & H).
  apply bind_Ret_inv in H as (root & Hroot & H). injection H as <-.
  apply root_slice_Ret in Hroot as [_ ->].
  apply (digest_fold_spec (fun f => (FPayload f, FDigest f))) in H1
    as (n1 & -> & Hn1 & _).
  apply (digest_fold_spec (fun f => (MPayload f, MDigest f))) in H2
    as (n2 & -> & Hn2 & _).
  exists (n1 ++ n2). split; [|done].
  unfold content_digests. simpl in *.
  rewrite fmap_app. f_equal; [exact Hn1 | exact Hn2].
Qed.

(** C2. A bundle is accepted only if the merkle root recomputed over its
    files and metadata equals the merkle field of the censorship record and
    the censorship record signature verifies, under the server's public
    key, the message merkle followed by the token. This holds for the
    proposal check and for the record check, where the root is the hex form
    of the merkle root of the SHA-256 digests of the file payloads followed
    by those of the metadata payloads. A bundle that fails either check is
    not accepted. *)
Theorem verify_accepts_only_checked (payload : string) :
  (verifyProposal Identity Sig json_Unmarshal util_IdentityFromString
     util_ConvertSignature VerifyMessage wwwutil_MerkleRoot payload = Ret tt ->
   exists prop id sig,
     json_Unmarshal payload = Ret prop
     /\ wwwutil_MerkleRoot (Files prop) (Metadata prop)
        = Ret (Merkle (CensorshipRecord prop))
     /\ util_IdentityFromString (ServerPublicKey prop) = Ret id
     /\ util_ConvertSignature (CRSignature (CensorshipRecord prop)) = Ret sig
     /\ VerifyMessage id
          (Merkle (CensorshipRecord prop) ++ Token (CensorshipRecord prop))
          sig = true)
  /\
  (verifyRecord Identity Sig json_Unmarshal base64_DecodeString
     hex_EncodeToString util_Digest util_ConvertDigest merkle_Root
     util_IdentityFromString util_ConvertSignature zeroSig VerifyMessage
     payload = Ret tt ->
   exists rec digests id sig,
     json_Unmarshal payload = Ret rec
     /\ content_digests base64_DecodeString util_Digest
          (Files rec) (Metadata rec) = Some <$> digests
     /\ hex_EncodeToString (merkle_Root digests)
        = Merkle (CensorshipRecord rec)
     /\ util_IdentityFromString (ServerPublicKey rec) = Ret id
     /\ util_ConvertSignature (CRSignature (CensorshipRecord rec)) = Ret sig
     /\ VerifyMessage id
          (Merkle (CensorshipRecord rec) ++ Token (CensorshipRecord rec))
          sig = true)
  /\
  (forall prop m,
     json_Unmarshal payload = Ret prop ->
     wwwutil_MerkleRoot (Files prop) (Metadata prop) = Ret m ->
     m <> Merkle (CensorshipRecord prop) ->
     verifyProposal Identity Sig json_Unmarshal util_IdentityFromString
       util_ConvertSignature VerifyMessage wwwutil_MerkleRoot payload
     = Err (Errorf "Merkle roots do not match"))
  /\
  (forall prop uid usig id sig,
     json_Unmarshal payload = Ret prop ->
     wwwutil_MerkleRoot (Files prop) (Metadata prop)
       = Ret (Merkle (CensorshipRecord prop)) ->
     util_IdentityFromString (PublicKey prop) = Ret uid ->
     util_ConvertSignature (Signature prop) = Ret usig ->
     VerifyMessage uid (Merkle (CensorshipRecord prop)) usig = true ->
     util_IdentityFromString (ServerPublicKey prop) = Ret id ->
     util_ConvertSignature (CRSignature (CensorshipRecord prop)) = Ret sig ->
     VerifyMessage id
       (Merkle (CensorshipRecord prop) ++ Token (CensorshipRecord prop))
       sig = false ->
     verifyProposal Identity Sig json_Unmarshal util_IdentityFromString
       util_ConvertSignature VerifyMessage wwwutil_MerkleRoot payload
     = Err (Errorf "Invalid censhorship record signature")).
Proof.
  split; [|split; [|split]]; cycle 2.
  - intros prop m Hprop Hm Hne. unfold verifyProposal.
    rewrite Hprop. simpl. rewrite Hm. simpl.
    destruct (String.eqb m (Merkle (CensorshipRecord prop))) eqn:Heq; [|done].
    by apply String.eqb_eq in Heq.
  - intros prop uid usig id sig Hprop Hm Huid Husig Hu Hid Hsig Hv.
    unfold verifyProposal. rewrite Hprop. simpl. rewrite Hm. simpl.
    rewrite String.eqb_refl. simpl. rewrite Huid. simpl. rewrite Husig. simpl.
    rewrite Hu. simpl. rewrite Hid. simpl. rewrite Hsig. simpl.
    by rewrite Hv.
  - unfold verifyProposal. intros H.
    apply bind_Ret_inv in H as (prop & Hprop & H).
    apply bind_Ret_inv in H as (merkle & Hm & H).
    destruct (String.eqb merkle (Merkle (CensorshipRecord prop))) eqn:Heq;
      simpl in H; [|discriminate].
    apply String.eqb_eq in Heq. subst merkle.
    apply bind_Ret_inv in H as (uid & _ & H).
    apply bind_Ret_inv in H as (usig & _ & H).
    destruct (VerifyMessage uid _ usig); simpl in H; [|discriminate].
    apply bind_Ret_inv in H as (id & Hid & H).
    apply bind_Ret_inv in H as (sig & Hsig & H).
    destruct (VerifyMessage id _ sig) eqn:Hv; simpl in H; [|discriminate].
    exists prop, id, sig. repeat split; assumption.
  - unfold verifyRecord. intros H.
    apply bind_Ret_inv in H as (rec & Hrec & H).
    apply bind_Ret_inv in H as (m & Hm & H).
    destruct (String.eqb m (Merkle (CensorshipRecord rec))) eqn:Heq;
      simpl in H; [|discriminate].
    apply String.eqb_eq in Heq. subst m.
    apply merkleRoot_spec in Hm as (digests & Hd & Hroot).
    apply bind_Ret_inv in H as (uid & _ & H).
    destruct (VerifyMessage uid _ _); simpl in H; [|discriminate].
    apply bind_Ret_inv in H as (id & Hid & H).
    apply bind_Ret_inv in H as (sig & Hsig & H).
    destruct (VerifyMessage id _ sig) eqn:Hv; simpl in H; [|discriminate].
    exists rec, digests, id, sig. repeat split; auto.
Qed.

End VerifyFacts.

Lemma verify_accepts_only_checked_witness :
  Verify.verifyProposal string string (fun _ => Ret Verify.toy_bundle)
    Ret Ret Verify.toy_verify (fun _ _ => Ret "m") "bundle" = Ret tt
  /\ exists prop id sig,
       Ret Verify.toy_bundle = Ret prop
       /\ Ret "m" = Ret (Verify.Merkle (Verify.CensorshipRecord prop))
       /\ Ret (Verify.ServerPublicKey prop) = Ret id
       /\ Ret (Verify.CRSignature (Verify.CensorshipRecord prop)) = Ret sig
       /\ Verify.toy_verify id
            (Verify.Merkle (Verify.CensorshipRecord prop)
             ++ Verify.Token (Verify.CensorshipRecord prop)) sig = true.
Proof.
  split; [reflexivity|].
  apply (verify_accepts_only_checked string string
           (fun _ => Ret Verify.toy_bundle) (fun _ => Ret [])
           (fun _ => "m") Verify.toy_digest (fun _ => Some (replicate 32 0))
           (fun _ => []) Ret Ret "" Verify.toy_verify (fun _ _ => Ret "m")
           "bundle").
  reflexivity.
Defined.

(** ** The plugin inventory *)

Section WwwFacts.

Import Www.

Variable pluginInventory : nat -> go_result (list pd.Plugin).

(** The loop from [retries] on, with [d] attempts left before [maxRetries]
    and enough fuel: it sleeps the fixed interval after every failed call
    and stops at the first answer or when [retries] reaches [maxRetries]. *)
Lemma retry_loop_spec (d : nat) :
  forall fuel retries plugins slept,
    (retries + d = maxRetries)%nat -> (d < fuel)%nat ->
    exists r n,
      retry_loop pluginInventory fuel retries plugins slept
        = Some (r, slept ++ replicate n sleepInterval)
      /\ (forall i, (i < n)%nat ->
            exists e, pluginInventory (retries + i)%nat = Err e)
      /\ ((n = d /\ r = Err (Errorf "max retries exceeded"))
          \/ ((n < d)%nat /\ exists pi,
                 pluginInventory (retries + n)%nat = Ret pi
                 /\ r = Ret (plugins ++ (convertPluginFromPD <$> pi)))
          \/ ((n < d)%nat /\ pluginInventory (retries + n)%nat = Panic
              /\ r = Panic)).
Proof.
  induction d as [|d IH]; intros fuel retries plugins slept Hd Hfuel.
  - destruct fuel as [|fuel]; [lia|]. simpl.
    destruct (Nat.eqb_spec retries maxRetries) as [_|Hne]; [|lia].
    exists (Err (Errorf "max retries exceeded")), 0%nat. simpl.
    rewrite app_nil_r. split; [done|]. split; [intros; lia|]. by left.
  - destruct fuel as [|fuel]; [lia|]. simpl.
    destruct (Nat.eqb_spec retries maxRetries) as [Heq|_]; [lia|].
    destruct (pluginInventory retries) as [pi|e|] eqn:Hcall.
    + exists (Ret (plugins ++ (convertPluginFromPD <$> pi))), 0%nat. simpl.
      rewrite app_nil_r, Nat.add_0_r. split; [done|]. split; [intros; lia|].
      right. left. split; [lia|]. eauto.
    + destruct (IH fuel (S retries) plugins (slept ++ [sleepInterval]))
        as (r & n & Hloop & Hfail & Hcase); [lia|lia|].
      exists r, (S n). split; [|split].
      * rewrite Hloop. simpl. by rewrite <- app_assoc.
      * intros i Hi. destruct i as [|i].
        -- rewrite Nat.add_0_r. eauto.
        -- replace (retries + S i)%nat with (S retries + i)%nat by lia.
           apply Hfail. lia.
      * replace (retries + S n)%nat with (S retries + n)%nat by lia.
        destruct Hcase as [[-> ->]|[[Hn Hpi]|[Hn Hp]]].
        -- by left.
        -- right. left. split; [lia|done].
        -- right. right. split; [lia|done].
    + exists Panic, 0%nat. simpl.
      rewrite app_nil_r, Nat.add_0_r. split; [done|]. split; [intros; lia|].
      right. right. split; [lia|done].
Qed.

(** C9 (amended). [getPluginInventory] always returns. It calls politeiad
    at most [maxRetries] = 1000 times and sleeps the same 5 seconds after
    every failed call. If all 1000 calls fail it returns the error "max
    retries exceeded"; if the call number n < 1000 is the first one to
    succeed it returns the converted plugin list of that answer. *)
Theorem getPluginInventory_fixed_interval :
  exists r n,
    getPluginInventory pluginInventory = Some (r, replicate n sleepInterval)
    /\ (n <= maxRetries)%nat
    /\ (forall i, (i < n)%nat -> exists e, pluginInventory i = Err e)
    /\ ((n = maxRetries /\ r = Err (Errorf "max retries exceeded"))
        \/ ((n < maxRetries)%nat /\ exists pi,
               pluginInventory n = Ret pi
               /\ r = Ret (convertPluginFromPD <$> pi))
        \/ ((n < maxRetries)%nat /\ pluginInventory n = Panic /\ r = Panic)).
Proof.
  unfold getPluginInventory.
  destruct (retry_loop_spec maxRetries (S maxRetries) 0 [] [])
    as (r & n & Hloop & Hfail & Hcase); [lia|lia|].
  exists r, n. split; [exact Hloop|]. split; [|split; [exact Hfail|exact Hcase]].
  destruct Hcase as [[-> _]|[[Hn _]|[Hn _]]]; lia.
Qed.

End WwwFacts.

(** C9 (the claim as stated fails). With politeiad unreachable for the
    first two calls, the two delays are both 5 seconds: the second is not
    the first times a factor greater than 1, so the delays are not an
    exponential backoff. *)
Lemma getPluginInventory_not_exponential :
  Www.getPluginInventory Www.down_twice
    = Some (Ret [Www.convertPluginFromPD Www.pd_comments],
            [Www.sleepInterval; Www.sleepInterval])
  /\ ~ Www.exponential_backoff [Www.sleepInterval; Www.sleepInterval].
Proof.
  split; [vm_compute; reflexivity|].
  intros (base & factor & Hbase & Hfactor & Hd).
  pose proof (Hd 0%nat _ eq_refl) as H0.
  pose proof (Hd 1%nat _ eq_refl) as H1.
  simpl in H0, H1. rewrite Z.pow_1_r in H1. nia.
Qed.

(** ** The comments plugin *)

Section StringFacts.

Local Arguments String.append !_ _ /.

Lemma sapp_assoc (a b c : string) :
  ((a ++ b) ++ c)%string = (a ++ b ++ c)%string.
Proof. induction a as [|x a IH]; simpl; [done|]. f_equal. exact IH. Qed.

Lemma slength_app (a b : string) :
  String.length (a ++ b) = (String.length a + String.length b)%nat.
Proof. induction a as [|x a IH]; simpl; [done|]. f_equal. exact IH. Qed.

(** Two concatenations with heads of the same length are equal only piece
    by piece. *)
Lemma sapp_same_length_inv (a a' b b' : string) :
  String.length a = String.length a' ->
  (a ++ b)%string = (a' ++ b')%string -> a = a' /\ b = b'.
Proof.
  revert a'. induction a as [|x a IH]; intros [|x' a']; simpl;
    try discriminate; [done|].
  intros [= Hlen] [= -> H]. destruct (IH a' Hlen H) as [-> ->]. done.
Qed.

Lemma sapp_inv_tail (a a' b : string) :
  (a ++ b)%string = (a' ++ b)%string -> a = a'.
Proof.
  intros H. apply (sapp_same_length_inv a a' b b); [|exact H].
  apply (f_equal String.length) in H. rewrite !slength_app in H. lia.
Qed.

Lemma sapp_snoc_inv (a a' : string) (x x' : Ascii.ascii) :
  (a ++ String x "")%string = (a' ++ String x' "")%string ->
  a = a' /\ x = x'.
Proof.
  intros H.
  assert (Hlen : String.length a = String.length a').
  { apply (f_equal String.length) in H. rewrite !slength_app in H.
    simpl in H. lia. }
  destruct (sapp_same_length_inv a a' _ _ Hlen H) as [-> [= ->]]. done.
Qed.

(** The decimal form of a natural number does not end in a minus sign. *)
Lemma pretty_N_go_no_dash_end (x : N) (t : string) :
  t <> ""%string -> (forall u, t <> (u ++ "-")%string) ->
  forall u, pretty_N_go x t <> (u ++ "-")%string.
Proof.
  revert t. induction (N.lt_wf_0 x) as [x _ IH]; intros t Hne Ht.
  assert (x = 0 \/ 0 < x)%N as [->|Hpos] by lia.
  - by rewrite pretty_N_go_0.
  - rewrite pretty_N_go_step by done. apply IH.
    + by apply N.div_lt.
    + discriminate.
    + intros [|a u]; simpl.
      * intros [= _ Ht']. by destruct Hne.
      * intros [= _ Ht']. by destruct (Ht u).
Qed.

Lemma pretty_N_no_dash_end (n : N) (u : string) :
  pretty n <> (u ++ "-")%string.
Proof.
  unfold pretty, pretty_N. case_decide as Hn.
  - destruct u as [|a [|b u]]; simpl; discriminate.
  - rewrite pretty_N_go_step by lia. apply pretty_N_go_no_dash_end.
    + discriminate.
    + intros [|a [|b v]]; simpl; try discriminate.
      unfold pretty_N_char. by repeat case_match.
Qed.

End StringFacts.

Lemma string_app_inv_head (a b c : string) :
  (a ++ b)%string = (a ++ c)%string -> b = c.
Proof.
  induction a as [|x a IH]; simpl; [done|]. intros [= H]. by apply IH.
Qed.

Lemma toy_sign_verifies sk m :
  Comments.toy_verify (Comments.toy_pub sk) m (Comments.toy_sign sk m) = true.
Proof. unfold Comments.toy_verify. apply String.eqb_refl. Qed.

Lemma toy_sign_binds sk m m' :
  Comments.toy_verify (Comments.toy_pub sk) m (Comments.toy_sign sk m') = true ->
  m = m'.
Proof.
  unfold Comments.toy_verify, Comments.toy_sign, Comments.toy_pub.
  intros H. apply String.eqb_eq in H. symmetry.
  by apply string_app_inv_head in H.
Qed.

(** *** What the canonical strings determine *)

Section MessageFacts.

Import Comments.

Local Arguments String.append !_ _ /.

(** The state is the first character of a canonical string. *)
Lemma state_prefix_inv (s s' : StateT) (r r' : string) :
  (pretty (state_code s) ++ r)%string = (pretty (state_code s') ++ r')%string ->
  s = s' /\ r = r'.
Proof. destruct s, s'; simpl; intros [= ->]; done. Qed.

(** A comment id followed by a vote can be read in one way only. *)
Lemma vote_tail_inv (c c' : N) (x x' : VoteT) :
  (pretty c ++ pretty (vote_code x))%string
  = (pretty c' ++ pretty (vote_code x'))%string ->
  c = c' /\ x = x'.
Proof.
  assert (Hdash : forall a : string,
            (a ++ "-1")%string = ((a ++ "-") ++ "1")%string).
  { intros a. by rewrite sapp_assoc. }
  change (pretty (vote_code VoteInvalid)) with "0"%string.
  change (pretty (vote_code VoteDownvote)) with "-1"%string.
  change (pretty (vote_code VoteUpvote)) with "1"%string.
  destruct x, x'; intros H;
    try (apply sapp_inv_tail in H; apply (inj pretty) in H; by subst);
    rewrite ?Hdash in H; apply sapp_snoc_inv in H as [H Hc];
    try discriminate Hc.
  - by destruct (pretty_N_no_dash_end c' (pretty c)).
  - by destruct (pretty_N_no_dash_end c (pretty c')).
Qed.

(** With tokens of one length, as valid tokens are, the canonical string of
    a vote determines every field of it. *)
Lemma vote_msg_inj (s s' : StateT) (token token' : string) (c c' : N)
    (x x' : VoteT) :
  String.length token = String.length token' ->
  vote_msg s token c x = vote_msg s' token' c' x' ->
  s = s' /\ token = token' /\ c = c' /\ x = x'.
Proof.
  unfold vote_msg. intros Hlen H.
  apply state_prefix_inv in H as [-> H].
  apply sapp_same_length_inv in H as [-> H]; [|exact Hlen].
  apply vote_tail_inv in H as [-> ->]. done.
Qed.

(** The canonical string of a comment determines the state and, with tokens
    of one length, the token; of the parent id and the text it determines
    only their concatenation. *)
Lemma comment_msg_inv (s s' : StateT) (token token' : string) (p p' : N)
    (txt txt' : string) :
  String.length token = String.length token' ->
  comment_msg s token p txt = comment_msg s' token' p' txt' ->
  s = s' /\ token = token'
  /\ (pretty p ++ txt)%string = (pretty p' ++ txt')%string.
Proof.
  unfold comment_msg. intros Hlen H.
  apply state_prefix_inv in H as [-> H].
  apply sapp_same_length_inv in H as [-> H]; [|exact Hlen]. done.
Qed.

Lemma comment_msg_differs (s s' : StateT) (token token' : string) (p p' : N)
    (txt txt' : string) :
  String.length token' = String.length token ->
  s' <> s \/ token' <> token \/ (p' <> p /\ txt' = txt)
  \/ (p' = p /\ txt' <> txt) ->
  comment_msg s' token' p' txt' <> comment_msg s token p txt.
Proof.
  intros Hlen Hne H. apply comment_msg_inv in H as (Hs & Ht & H); [|done].
  destruct Hne as [Hne|[Hne|[[Hne ->]|[-> Hne]]]]; try done.
  - apply sapp_inv_tail in H. by apply (inj pretty) in H.
  - by apply string_app_inv_head in H.
Qed.

End MessageFacts.

Section CommentsFacts.

Import Comments.

Variable verify : string -> string -> string -> bool.
Variable pubkey_valid : string -> bool.
Variable token_valid : string -> bool.
Variable PolicyCommentLengthMax : nat.
Variable PolicyVoteChangesMax : nat.

(** The signature scheme: [sign sk m] verifies under the public key of
    [sk] for the message [m], and for no other message. *)
Variable pub : string -> string.
Variable sign : string -> string -> string.
Hypothesis sign_verifies : forall sk m, verify (pub sk) m (sign sk m) = true.
Hypothesis sign_binds :
  forall sk m m', verify (pub sk) m (sign sk m') = true -> m = m'.
Hypothesis pub_valid : forall sk, pubkey_valid (pub sk) = true.

Local Abbreviation cmdVote :=
  (cmdVote verify pubkey_valid token_valid PolicyVoteChangesMax).
Local Abbreviation cmdEdit :=
  (cmdEdit verify pubkey_valid token_valid PolicyCommentLengthMax).
Local Abbreviation cast_all :=
  (cast_all verify pubkey_valid token_valid PolicyVoteChangesMax).
Local Abbreviation verifySignature := (verifySignature verify pubkey_valid).

Lemma verifySignature_good sk m :
  verifySignature (sign sk m) (pub sk) m = Ret tt.
Proof.
  unfold Comments.verifySignature. by rewrite pub_valid, sign_verifies.
Qed.

Lemma verifySignature_wrong sk m m' :
  m' <> m ->
  verifySignature (sign sk m') (pub sk) m
  = Err (PluginUserError ErrorStatusSignatureInvalid).
Proof.
  intros Hne. unfold Comments.verifySignature. rewrite pub_valid. simpl.
  destruct (verify (pub sk) m (sign sk m')) eqn:Hv; [|done].
  apply sign_binds in Hv. congruence.
Qed.

(** The canonical string starts with the state: messages over the vetted
    and the unvetted state differ, whatever the other fields. *)
Lemma vote_msg_state token c x token' c' x' :
  vote_msg StateVetted token' c' x' <> vote_msg StateUnvetted token c x.
Proof. unfold vote_msg. simpl. discriminate. Qed.

Lemma comment_msg_state token p txt token' p' txt' :
  comment_msg StateVetted token' p' txt' <> comment_msg StateUnvetted token p txt.
Proof. unfold comment_msg. simpl. discriminate. Qed.

(** A signature that passes the handler's first checks but was made over
    another message stops the handler at the signature check. *)
Lemma cmdVote_wrong_signature st v sk m' :
  State v <> StateInvalid -> token_valid (Token v) = true ->
  VoteV v <> VoteInvalid -> PublicKey v = pub sk ->
  m' <> vote_msg (State v) (Token v) (CommentID v) (VoteV v) ->
  cmdVote st (vote_signed v (sign sk m'))
  = Err (PluginUserError ErrorStatusSignatureInvalid).
Proof.
  intros Hs Ht Hx Hpk Hne. unfold Comments.cmdVote, verifyStateToken. simpl.
  rewrite bool_decide_eq_false_2 by done. rewrite Ht. simpl.
  rewrite bool_decide_eq_false_2 by done. simpl.
  rewrite Hpk. by rewrite verifySignature_wrong.
Qed.

Lemma cmdEdit_wrong_signature st e sk m' :
  EState e <> StateInvalid -> token_valid (EToken e) = true ->
  EPublicKey e = pub sk ->
  m' <> comment_msg (EState e) (EToken e) (EParentID e) (EComment e) ->
  cmdEdit st (edit_signed e (sign sk m'))
  = Err (PluginUserError ErrorStatusSignatureInvalid).
Proof.
  intros Hs Ht Hpk Hne. unfold Comments.cmdEdit, verifyStateToken. simpl.
  rewrite bool_decide_eq_false_2 by done. rewrite Ht. simpl.
  rewrite Hpk. by rewrite verifySignature_wrong.
Qed.

(** What the vote handler does with a well-formed, correctly signed vote on
    an existing comment of another user: the number of votes that the user
    has cast on the comment decides. *)
Lemma cmdVote_valid st sk s token cid user c x :
  s <> StateInvalid -> token_valid token = true -> x <> VoteInvalid ->
  token ∈ records st -> comments st !! (token, cid) = Some c ->
  CUserID c <> user ->
  cmdVote st (vote_by user s token cid (pub sk)
                (sign sk (vote_msg s token cid x)) x)
  = if (PolicyVoteChangesMax <? length (default [] (votes st !! (token, cid, user))))%nat
    then Err (PluginUserError ErrorStatusVoteChangesMax)
    else Ret (with_vote st (token, cid, user) x).
Proof.
  intros Hs Ht Hx Hrec Hc Hu. unfold Comments.cmdVote, verifyStateToken. simpl.
  rewrite bool_decide_eq_false_2 by done. rewrite Ht. simpl.
  rewrite bool_decide_eq_false_2 by done. simpl.
  rewrite verifySignature_good. simpl.
  rewrite bool_decide_eq_true_2 by done. simpl. rewrite Hc.
  destruct (PolicyVoteChangesMax <? _)%nat; [done|].
  by rewrite bool_decide_eq_false_2 by done.
Qed.

Lemma cmdVote_admissible st sk v :
  PublicKey v = pub sk ->
  vote_admissible token_valid PolicyVoteChangesMax st v ->
  cmdVote st (vote_signed v (sign sk (vote_msg_of v)))
  = Ret (with_vote st (Token v, CommentID v, UserID v) (VoteV v)).
Proof.
  intros Hpk (Hs & Ht & Hx & Hrec & (c & Hc & Hu) & Hlen).
  pose proof (cmdVote_valid st sk _ _ _ _ c _ Hs Ht Hx Hrec Hc Hu) as H.
  unfold vote_by in H. unfold vote_signed, vote_msg_of. rewrite Hpk, H.
  destruct (Nat.ltb_spec PolicyVoteChangesMax
              (length (default [] (votes st !! (Token v, CommentID v, UserID v)))));
    [lia|done].
Qed.

Lemma cmdEdit_admissible st sk e :
  EPublicKey e = pub sk ->
  edit_admissible token_valid PolicyCommentLengthMax st e ->
  is_Ret (cmdEdit st (edit_signed e (sign sk (edit_msg_of e)))) = true.
Proof.
  intros Hpk (Hs & Ht & Hlen & Hrec & (c & Hc & Hu & Hp & Htxt)).
  unfold Comments.cmdEdit, verifyStateToken, edit_msg_of. simpl.
  rewrite bool_decide_eq_false_2 by done. rewrite Ht. simpl.
  rewrite Hpk, verifySignature_good. simpl.
  destruct (Nat.ltb_spec PolicyCommentLengthMax (String.length (EComment e)));
    [lia|]. simpl.
  rewrite bool_decide_eq_true_2 by done. simpl. rewrite Hc.
  rewrite !bool_decide_eq_true_2 by done. simpl.
  by rewrite bool_decide_eq_false_2 by done.
Qed.

(** C7 (amended). Take a vote and an edit that pass every other check of
    their handlers. With the signature made over their own canonical string
    both commands succeed. With a signature made, under the same key, over
    a combination of state, token and content-specific fields whose
    canonical string differs from the payload's, both are refused with the
    user error [ErrorStatusSignatureInvalid]. That is so for every
    signature over another state, whatever the other fields. With a token
    of the payload's length it is so for a vote signed over any other
    combination, and for an edit signed over another state or token, over
    another parent id with the payload's text, or over another text with
    the payload's parent id. An edit signed over a combination with the
    payload's canonical string is accepted. *)
Theorem wrong_signature_rejected (st : plugin_state) (sk : string)
    (v : Vote) (e : Edit) :
  PublicKey v = pub sk -> EPublicKey e = pub sk ->
  vote_admissible token_valid PolicyVoteChangesMax st v ->
  edit_admissible token_valid PolicyCommentLengthMax st e ->
  (is_Ret (cmdVote st (vote_signed v (sign sk (vote_msg_of v)))) = true
   /\ is_Ret (cmdEdit st (edit_signed e (sign sk (edit_msg_of e)))) = true)
  /\ (forall s' token' c' x',
        vote_msg s' token' c' x' <> vote_msg_of v ->
        cmdVote st (vote_signed v (sign sk (vote_msg s' token' c' x')))
        = Err (PluginUserError ErrorStatusSignatureInvalid))
  /\ (forall s' token' p' txt',
        comment_msg s' token' p' txt' <> edit_msg_of e ->
        cmdEdit st (edit_signed e (sign sk (comment_msg s' token' p' txt')))
        = Err (PluginUserError ErrorStatusSignatureInvalid))
  /\ (forall s' token' c' x',
        s' <> State v ->
        cmdVote st (vote_signed v (sign sk (vote_msg s' token' c' x')))
        = Err (PluginUserError ErrorStatusSignatureInvalid))
  /\ (forall s' token' p' txt',
        s' <> EState e ->
        cmdEdit st (edit_signed e (sign sk (comment_msg s' token' p' txt')))
        = Err (PluginUserError ErrorStatusSignatureInvalid))
  /\ (forall s' token' c' x',
        String.length token' = String.length (Token v) ->
        (s', token', c', x') <> (State v, Token v, CommentID v, VoteV v) ->
        cmdVote st (vote_signed v (sign sk (vote_msg s' token' c' x')))
        = Err (PluginUserError ErrorStatusSignatureInvalid))
  /\ (forall s' token' p' txt',
        String.length token' = String.length (EToken e) ->
        s' <> EState e \/ token' <> EToken e
        \/ (p' <> EParentID e /\ txt' = EComment e)
        \/ (p' = EParentID e /\ txt' <> EComment e) ->
        cmdEdit st (edit_signed e (sign sk (comment_msg s' token' p' txt')))
        = Err (PluginUserError ErrorStatusSignatureInvalid))
  /\ (forall s' token' p' txt',
        comment_msg s' token' p' txt' = edit_msg_of e ->
        is_Ret (cmdEdit st (edit_signed e
                  (sign sk (comment_msg s' token' p' txt')))) = true).
Proof.
  intros Hvpk Hepk Hv He.
  pose proof Hv as (Hs & Ht & Hx & _).
  pose proof He as (Hes & Het & _).
  split; [split|repeat split].
  - by rewrite cmdVote_admissible.
  - by apply cmdEdit_admissible.
  - intros. by apply cmdVote_wrong_signature.
  - intros. by apply cmdEdit_wrong_signature.
  - intros s' token' c' x' Hne. apply cmdVote_wrong_signature; try done.
    unfold vote_msg. intros H. by apply state_prefix_inv in H as [? _].
  - intros s' token' p' txt' Hne. apply cmdEdit_wrong_signature; try done.
    unfold comment_msg. intros H. by apply state_prefix_inv in H as [? _].
  - intros s' token' c' x' Hlen Hne. apply cmdVote_wrong_signature; try done.
    intros H. apply vote_msg_inj in H as (-> & -> & -> & ->); done.
  - intros s' token' p' txt' Hlen Hne.
    apply cmdEdit_wrong_signature; try done.
    by apply comment_msg_differs.
  - intros s' token' p' txt' ->. by apply cmdEdit_admissible.
Qed.

(** *** Vote changes *)

Lemma cast_all_cons st v vs :
  cast_all st (v :: vs) = bind (cmdVote st v) (fun s => cast_all s vs).
Proof.
  unfold Comments.cast_all. simpl.
  destruct (cmdVote st v) as [s|err|]; simpl; [done| |].
  - induction vs as [|w vs IH]; simpl; [done|exact IH].
  - induction vs as [|w vs IH]; simpl; [done|exact IH].
Qed.

(** Votes of one user on one comment pile up as long as the user's earlier
    votes on it number at most [PolicyVoteChangesMax]. *)
Lemma cast_all_valid sk s token cid user c (xs : list VoteT) :
  s <> StateInvalid -> token_valid token = true ->
  Forall (fun x => x <> VoteInvalid) xs -> CUserID c <> user ->
  forall st,
    token ∈ records st -> comments st !! (token, cid) = Some c ->
    (length (default [] (votes st !! (token, cid, user))) + length xs
     <= S PolicyVoteChangesMax)%nat ->
    exists st',
      cast_all st
        ((fun x => vote_by user s token cid (pub sk)
                     (sign sk (vote_msg s token cid x)) x) <$> xs) = Ret st'
      /\ records st' = records st /\ comments st' = comments st
      /\ default [] (votes st' !! (token, cid, user))
         = default [] (votes st !! (token, cid, user)) ++ xs.
Proof.
  intros Hs Ht Hxs Hu. induction Hxs as [|x xs Hx _ IH]; intros st Hrec Hc Hlen.
  - exists st. simpl. by rewrite app_nil_r.
  - rewrite fmap_cons, cast_all_cons.
    rewrite (cmdVote_valid st sk s token cid user c x) by done.
    simpl in Hlen.
    destruct (Nat.ltb_spec PolicyVoteChangesMax
                (length (default [] (votes st !! (token, cid, user)))));
      [lia|]. simpl.
    destruct (IH (with_vote st (token, cid, user) x)) as (st' & Hcast & Hr & Hcm & Hv).
    + done.
    + done.
    + simpl. rewrite lookup_insert_eq. simpl. rewrite length_app. simpl. lia.
    + exists st'. split; [done|]. split; [done|]. split; [done|].
      rewrite Hv. simpl. rewrite lookup_insert_eq. simpl.
      by rewrite <- app_assoc.
Qed.

(** C8. A user who has not yet voted on a comment of another user casts
    [PolicyVoteChangesMax + 1] well-formed, correctly signed votes on it:
    the first vote and [PolicyVoteChangesMax] changes of it. All of them
    succeed and are recorded. The next vote of that user on that comment
    would exceed [PolicyVoteChangesMax] changes: it is refused with the user
    error [ErrorStatusVoteChangesMax]. *)
Theorem vote_changes_max (st : plugin_state) (sk : string) (s : StateT)
    (token : string) (cid : N) (user : string) (c : Comment)
    (xs : list VoteT) (x : VoteT) :
  s <> StateInvalid -> token_valid token = true ->
  token ∈ records st -> comments st !! (token, cid) = Some c ->
  CUserID c <> user -> votes st !! (token, cid, user) = None ->
  Forall (fun x => x <> VoteInvalid) xs -> x <> VoteInvalid ->
  length xs = S PolicyVoteChangesMax ->
  let cast := fun x => vote_by user s token cid (pub sk)
                         (sign sk (vote_msg s token cid x)) x in
  (forall n, (n <= S PolicyVoteChangesMax)%nat ->
     exists st', cast_all st (cast <$> take n xs) = Ret st'
                 /\ default [] (votes st' !! (token, cid, user)) = take n xs)
  /\ exists st',
       cast_all st (cast <$> xs) = Ret st'
       /\ votes st' !! (token, cid, user) = Some xs
       /\ cmdVote st' (cast x)
          = Err (PluginUserError ErrorStatusVoteChangesMax)
       /\ cast_all st (cast <$> xs ++ [x])
          = Err (PluginUserError ErrorStatusVoteChangesMax).
Proof.
  intros Hs Ht Hrec Hc Hu Hnone Hxs Hx Hlen cast.
  split.
  - intros n Hn.
    assert (Hpre : Forall (fun x => x <> VoteInvalid) (take n xs))
      by (by apply Forall_take).
    destruct (cast_all_valid sk s token cid user c (take n xs) Hs Ht
                Hpre Hu st Hrec Hc) as (st' & Hcast & _ & _ & Hv).
    + rewrite Hnone, length_take. simpl. lia.
    + exists st'. split; [exact Hcast|]. by rewrite Hv, Hnone.
  - destruct (cast_all_valid sk s token cid user c xs Hs Ht Hxs Hu st Hrec Hc)
      as (st' & Hcast & Hr & Hcm & Hv).
    { rewrite Hnone. simpl. lia. }
    rewrite Hnone in Hv. simpl in Hv.
    assert (Hrej : cmdVote st' (cast x)
                   = Err (PluginUserError ErrorStatusVoteChangesMax)).
    { unfold cast. rewrite (cmdVote_valid st' sk s token cid user c x);
        [|done|done|done|by rewrite Hr|by rewrite Hcm|done].
      rewrite Hv, Hlen.
      by destruct (Nat.ltb_spec PolicyVoteChangesMax (S PolicyVoteChangesMax));
        [|lia]. }
    exists st'. split; [exact Hcast|]. split; [|split; [exact Hrej|]].
    + destruct (votes st' !! (token, cid, user)) as [l|] eqn:Hl; simpl in Hv.
      * by subst l.
      * subst xs. discriminate Hlen.
    + rewrite fmap_app. unfold Comments.cast_all in *. unfold cast in *.
      rewrite fold_left_app, Hcast. simpl. exact Hrej.
Qed.

End CommentsFacts.

Lemma bob_vote_admissible n :
  Comments.vote_admissible (fun _ => true) n Comments.st_one_comment
    (Comments.bob_vote Comments.VoteUpvote).
Proof.
  split; [discriminate|]. split; [reflexivity|]. split; [discriminate|].
  split; [simpl; by apply elem_of_singleton|]. split.
  - eexists. split; [vm_compute; reflexivity|discriminate].
  - vm_compute. lia.
Qed.

Lemma alice_edit_admissible :
  Comments.edit_admissible (fun _ => true) 100 Comments.st_one_comment
    Comments.alice_edit.
Proof.
  split; [discriminate|]. split; [reflexivity|]. split; [vm_compute; lia|].
  split; [simpl; by apply elem_of_singleton|].
  eexists. split; [vm_compute; reflexivity|]. by repeat split.
Qed.

Lemma wrong_signature_rejected_witness :
  is_Ret (Comments.cmdVote Comments.toy_verify (fun _ => true) (fun _ => true) 5
            Comments.st_one_comment (Comments.bob_vote Comments.VoteUpvote))
    = true
  /\ Comments.cmdVote Comments.toy_verify (fun _ => true) (fun _ => true) 5
       Comments.st_one_comment
       (Comments.vote_signed (Comments.bob_vote Comments.VoteUpvote)
          (Comments.toy_sign "k"
             (Comments.vote_msg Comments.StateVetted "abcd" 1 Comments.VoteUpvote)))
     = Err (PluginUserError ErrorStatusSignatureInvalid).
Proof.
  split; [vm_compute; reflexivity|].
  destruct (wrong_signature_rejected Comments.toy_verify (fun _ => true)
              (fun _ => true) 100 5 Comments.toy_pub Comments.toy_sign
              toy_sign_verifies toy_sign_binds (fun _ => eq_refl)
              Comments.st_one_comment "k"
              (Comments.bob_vote Comments.VoteUpvote) Comments.alice_edit
              eq_refl eq_refl (bob_vote_admissible 5) alice_edit_admissible)
    as (_ & _ & _ & H & _).
  apply (H Comments.StateVetted "abcd" 1%N Comments.VoteUpvote). discriminate.
Defined.

(** C7 (the claim as stated fails). The reply of "alice" has parent id 1
    and she edits its text to "2 cents". A signature made over another
    combination, parent id 12 and text " cents", has the same canonical
    string, so the edit that carries it is not refused: the handler
    stores the new text. *)
Theorem wrong_combination_accepted :
  (12%N, " cents"%string)
    <> (Comments.EParentID Comments.reply_edit,
        Comments.EComment Comments.reply_edit)
  /\ Comments.comment_msg Comments.StateUnvetted "abcd" 12 " cents"
     = Comments.edit_msg_of Comments.reply_edit
  /\ is_Ret (Comments.cmdEdit Comments.toy_verify (fun _ => true)
               (fun _ => true) 100 Comments.st_reply
               (Comments.edit_signed Comments.reply_edit
                  (Comments.toy_sign "k"
                     (Comments.comment_msg Comments.StateUnvetted "abcd" 12
                        " cents")))) = true
  /\ Comments.cmdEdit Comments.toy_verify (fun _ => true) (fun _ => true) 100
       Comments.st_reply
       (Comments.edit_signed Comments.reply_edit
          (Comments.toy_sign "k"
             (Comments.comment_msg Comments.StateUnvetted "abcd" 12 " cents")))
     <> Err (PluginUserError ErrorStatusSignatureInvalid).
Proof.
  split; [discriminate|]. split; [vm_compute; reflexivity|].
  split; [vm_compute; reflexivity|]. vm_compute. discriminate.
Qed.

Lemma vote_changes_max_witness :
  is_Ret (Comments.cast_all Comments.toy_verify (fun _ => true) (fun _ => true) 1
            Comments.st_one_comment
            (Comments.bob_vote <$> [Comments.VoteDownvote; Comments.VoteUpvote]))
    = true
  /\ Comments.cast_all Comments.toy_verify (fun _ => true) (fun _ => true) 1
       Comments.st_one_comment
       (Comments.bob_vote <$>
          [Comments.VoteDownvote; Comments.VoteUpvote; Comments.VoteDownvote])
     = Err (PluginUserError ErrorStatusVoteChangesMax).
Proof.
  split; [vm_compute; reflexivity|].
  destruct (vote_changes_max Comments.toy_verify (fun _ => true)
              (fun _ => true) 1 Comments.toy_pub Comments.toy_sign
              toy_sign_verifies (fun _ => eq_refl)
              Comments.st_one_comment "k" Comments.StateUnvetted "abcd" 1%N
              "bob" {| Comments.CUserID := "alice"; Comments.CParentID := 0;
                       Comments.CText := "hi" |}
              [Comments.VoteDownvote; Comments.VoteUpvote] Comments.VoteDownvote)
    as (_ & st' & _ & _ & _ & H);
    [discriminate | reflexivity | simpl; by apply elem_of_singleton
    | vm_compute; reflexivity | discriminate | vm_compute; reflexivity
    | repeat constructor; discriminate | discriminate | reflexivity | ].
  exact H.
Defined.

(** * Further properties of the code *)

(** ** The test log client: trees and appends *)

Section TrillianMore.

Import Trillian TrillianInv.

Variable hash : bytes -> bytes.

(** [treeNew] followed by the lookups: the new tree is found under its id,
    its leaf list exists and is empty (also when the id was in use, whose
    leaves are then gone), and no other tree is touched. A failure to
    marshal the private key is returned as it is. *)
Theorem treeNew_then_lookup (id : Z) (k : bytes) (e : error)
    (t : TestTrillianClient) :
  (exists tr t',
      treeNew id (Ret k) t = Ret (tr, t')
      /\ TreeId tr = id
      /\ tree t' id = Ret tr
      /\ leavesAll id t' = Ret []
      /\ forall id', id' <> id ->
           tree t' id' = tree t id' /\ leavesAll id' t' = leavesAll id' t)
  /\ treeNew id (Err e) t = Err e.
Proof.
  split; [|done].
  eexists _, _. split; [reflexivity|]. split; [done|].
  unfold tree, leavesAll. simpl. rewrite !lookup_insert_eq.
  split; [done|]. split; [done|].
  intros id' Hne. by rewrite !lookup_insert_ne.
Qed.

(** The loop of [leavesAppend] over pointers that refer to leaves. *)
Lemma append_fold_valid index (ps : list loc) :
  forall h cur q,
    valid_ptrs h ps ->
    exists h',
      fold_left (append_step hash index) (Some <$> ps) (Ret (h, cur, q))
        = Ret (h', cur ++ ps, q ++ (mkQueued <$> ps))
      /\ (forall p, p ∈ ps ->
            h' !! p = stamp hash index <$> h !! p)
      /\ (forall p, p ∉ ps -> h' !! p = h !! p).
Proof.
  induction ps as [|p ps IH]; intros h cur q Hv.
  - exists h. simpl. rewrite !app_nil_r. split; [done|].
    split; [|done]. intros p Hin. by apply elem_of_nil in Hin.
  - apply Forall_cons in Hv as [[lf Hp] Hv].
    rewrite fmap_cons. simpl. rewrite Hp. simpl.
    destruct (IH (<[p := stamp hash index lf]> h) (cur ++ [p])
                (q ++ [mkQueued p])) as (h' & Hfold & Hin & Hout).
    { eapply Forall_impl; [exact Hv|]. intros p' [lf' Hp'].
      destruct (decide (p = p')) as [->|Hne].
      - rewrite lookup_insert_eq. eauto.
      - rewrite lookup_insert_ne by done. eauto. }
    exists h'. split; [|split].
    + unfold stamp in Hfold. rewrite Hfold.
      by rewrite <- !app_assoc.
    + intros p' Hp'. destruct (decide (p' ∈ ps)) as [Hps|Hps].
      * rewrite (Hin _ Hps). destruct (decide (p = p')) as [->|Hne].
        -- rewrite lookup_insert_eq, Hp. done.
        -- by rewrite lookup_insert_ne.
      * apply elem_of_cons in Hp' as [->|Hp']; [|done].
        rewrite (Hout _ Hps), lookup_insert_eq, Hp. done.
    + intros p' Hp'. apply not_elem_of_cons in Hp' as [Hne Hps].
      rewrite (Hout _ Hps). by rewrite lookup_insert_ne.
Qed.

Lemma next_index_valid h cur :
  valid_ptrs h cur -> exists index, next_index h cur = Ret index.
Proof.
  intros Hv. unfold next_index. destruct (last cur) as [p|] eqn:Hlast; [|eauto].
  apply last_Some in Hlast as [l' ->].
  apply Forall_app in Hv as [_ Hv]. apply Forall_cons in Hv as [[lf Hp] _].
  rewrite Hp. eauto.
Qed.

(** What a call of [leavesAppend] over valid pointers amounts to. *)
Lemma leavesAppend_valid treeID (ps : list loc) h t :
  valid_ptrs h (leaves_of t treeID) -> valid_ptrs h ps ->
  exists index h',
    next_index h (leaves_of t treeID) = Ret index
    /\ leavesAppend hash treeID (Some <$> ps) h t
       = Ret (mkQueued <$> ps, h',
              match ps with
              | [] => t
              | _ => {| trees := trees t;
                        leaves := <[treeID := leaves_of t treeID ++ ps]> (leaves t) |}
              end)
    /\ (forall p, p ∈ ps -> h' !! p = stamp hash index <$> h !! p)
    /\ (forall p, p ∉ ps -> h' !! p = h !! p).
Proof.
  intros Hcur Hps. destruct (next_index_valid _ _ Hcur) as [index Hidx].
  destruct (append_fold_valid index ps h (leaves_of t treeID) [] Hps)
    as (h' & Hfold & Hin & Hout).
  exists index, h'. split; [done|]. split; [|done].
  unfold leavesAppend. rewrite Hidx. simpl. rewrite Hfold. simpl.
  by destruct ps.
Qed.

(** [leavesAppend] followed by [leavesAll]: for a batch of pointers to
    leaves, the call succeeds, queues one entry per leaf in batch order, and
    the tree then lists its former leaves followed by the batch; the trees
    and the leaves of every other tree are as before. *)
Theorem leavesAppend_then_leavesAll (treeID : Z) (ps : list loc)
    (h : heap) (t : TestTrillianClient) :
  valid_ptrs h (leaves_of t treeID) -> valid_ptrs h ps -> ps <> [] ->
  exists h' t',
    leavesAppend hash treeID (Some <$> ps) h t
      = Ret (mkQueued <$> ps, h', t')
    /\ leavesAll treeID t' = Ret (leaves_of t treeID ++ ps)
    /\ trees t' = trees t
    /\ forall id', id' <> treeID -> leaves t' !! id' = leaves t !! id'.
Proof.
  intros Hcur Hps Hne.
  destruct (leavesAppend_valid treeID ps h t Hcur Hps)
    as (index & h' & _ & Happ & _).
  destruct ps as [|p ps]; [done|].
  eexists _, _. split; [exact Happ|].
  unfold leavesAll. simpl. rewrite lookup_insert_eq.
  split; [done|]. split; [done|].
  intros id' Hid. by rewrite lookup_insert_ne.
Qed.

End TrillianMore.

Lemma leavesAppend_then_leavesAll_witness :
  Trillian.leavesAppend TrillianInv.rev_hash 7
    [Some 1%positive; Some 2%positive] Trillian.heap_ab Trillian.client_empty7
  = Ret ([Trillian.mkQueued 1; Trillian.mkQueued 2],
         <[2%positive := TrillianInv.stamp TrillianInv.rev_hash 0 Trillian.leaf_b]>
           (<[1%positive := TrillianInv.stamp TrillianInv.rev_hash 0 Trillian.leaf_a]>
              Trillian.heap_ab),
         {| Trillian.trees := Trillian.trees Trillian.client_empty7;
            Trillian.leaves :=
              <[7 := [1%positive; 2%positive]]>
                (Trillian.leaves Trillian.client_empty7) |})
  /\ exists h' t',
       Trillian.leavesAppend TrillianInv.rev_hash 7
         (Some <$> [1%positive; 2%positive]) Trillian.heap_ab
         Trillian.client_empty7
       = Ret (Trillian.mkQueued <$> [1%positive; 2%positive], h', t')
       /\ Trillian.leavesAll 7 t'
          = Ret (Trillian.leaves_of Trillian.client_empty7 7
                 ++ [1%positive; 2%positive])
       /\ Trillian.trees t' = Trillian.trees Trillian.client_empty7
       /\ forall id', id' <> 7 ->
            Trillian.leaves t' !! id'
            = Trillian.leaves Trillian.client_empty7 !! id'.
Proof.
  split; [vm_compute; reflexivity|].
  apply leavesAppend_then_leavesAll.
  - constructor.
  - repeat constructor; eexists; vm_compute; reflexivity.
  - discriminate.
Defined.

(** ** The test log client: what an append writes *)

Section TrillianWrites.

Import Trillian TrillianInv.

Variable hash : bytes -> bytes.

Lemma append_fold_Ret_valid index (ps : list loc) :
  forall h cur q r,
    fold_left (append_step hash index) (Some <$> ps) (Ret (h, cur, q)) = Ret r ->
    valid_ptrs h ps.
Proof.
  induction ps as [|p ps IH]; intros h cur q r Hf; [constructor|].
  rewrite fmap_cons in Hf. simpl in Hf.
  destruct (h !! p) as [lf|] eqn:Hp; simpl in Hf.
  - apply IH in Hf. constructor; [by rewrite Hp|].
    eapply Forall_impl; [exact Hf|]. intros p' [lf' Hp'].
    destruct (decide (p = p')) as [->|Hne]; [by rewrite Hp|].
    rewrite lookup_insert_ne in Hp' by done. eauto.
  - exfalso. clear -Hf. induction ps as [|p' ps IH']; simpl in Hf; [done|auto].
Qed.

Lemma append_fold_Panic index batch :
  fold_left (append_step hash index) batch Panic = Panic.
Proof. induction batch as [|l batch IH]; simpl; [done|exact IH]. Qed.

Lemma append_fold_not_Err index batch :
  forall s e, fold_left (append_step hash index) batch (Ret s) <> Err e.
Proof.
  induction batch as [|l batch IH]; intros [[h cur] q] e; simpl; [done|].
  destruct l as [p|]; [|by rewrite append_fold_Panic].
  destruct (h !! p); [apply IH|by rewrite append_fold_Panic].
Qed.

(** A nil pointer anywhere in the batch makes [leavesAppend] panic: the
    call cannot return, neither with a value nor with an error. *)
Theorem leavesAppend_nil_panics (treeID : Z) (batch : list (option loc))
    (h : heap) (t : TestTrillianClient) :
  None ∈ batch -> leavesAppend hash treeID batch h t = Panic.
Proof.
  intros Hnil. unfold leavesAppend, next_index.
  destruct (last (leaves_of t treeID)) as [p|]; simpl.
  2: { destruct (fold_left _ batch _) as [[[h1 c1] q1]|e|] eqn:Hf; simpl; [|..].
       - apply (append_fold_index hash) with (seen := []) in Hf as (_ & _ & _ & Hall).
         + rewrite Forall_forall in Hall. by destruct (Hall _ Hnil).
         + intros p' Hp'. by apply elem_of_nil in Hp'.
       - by apply append_fold_not_Err in Hf.
       - done. }
  destruct (h !! p) as [lf|]; simpl; [|done].
  destruct (fold_left _ batch _) as [[[h1 c1] q1]|e|] eqn:Hf; simpl; [|..].
  - apply (append_fold_index hash) with (seen := []) in Hf as (_ & _ & _ & Hall).
    + rewrite Forall_forall in Hall. by destruct (Hall _ Hnil).
    + intros p' Hp'. by apply elem_of_nil in Hp'.
  - by apply append_fold_not_Err in Hf.
  - done.
Qed.

(** A successful [leavesAppend] writes through the pointers it was given:
    every leaf of the batch gets its merkle leaf hash recomputed from its
    value and the index that follows the tree's last leaf, value and extra
    data are kept, and no leaf outside the batch is modified. *)
Theorem leavesAppend_writes_through (treeID : Z) (ps : list loc)
    (h h' : heap) (t t' : TestTrillianClient) (q : list QueuedLeafProof) :
  leavesAppend hash treeID (Some <$> ps) h t = Ret (q, h', t') ->
  exists index,
    next_index h (leaves_of t treeID) = Ret index
    /\ (forall p lf, p ∈ ps -> h !! p = Some lf ->
          h' !! p = Some (stamp hash index lf))
    /\ (forall p, p ∉ ps -> h' !! p = h !! p).
Proof.
  unfold leavesAppend. intros H.
  apply bind_Ret_inv in H as (index & Hidx & H).
  apply bind_Ret_inv in H as ([[h1 cur1] q1] & Hfold & H).
  injection H as <- <- <-.
  pose proof (append_fold_Ret_valid _ _ _ _ _ _ Hfold) as Hv.
  destruct (append_fold_valid hash index ps h (leaves_of t treeID) [] Hv)
    as (h2 & Hfold2 & Hin & Hout).
  rewrite Hfold in Hfold2. injection Hfold2 as -> _ _.
  exists index. split; [done|]. split; [|done].
  intros p lf Hp Hlf. by rewrite (Hin _ Hp), Hlf.
Qed.

Lemma contiguous_valid h ls : contiguous h ls -> valid_ptrs h ls.
Proof.
  intros Hc. apply Forall_lookup. intros i p Hi.
  specialize (Hc i p Hi). destruct (h !! p); [eauto|discriminate].
Qed.

Lemma next_index_contiguous h ls :
  contiguous h ls -> Z.of_nat (length ls) < 2 ^ 63 ->
  next_index h ls = Ret (Z.of_nat (length ls)).
Proof.
  intros Hc Hlen. unfold next_index.
  destruct (last ls) as [p|] eqn:Hlast.
  - rewrite last_lookup in Hlast. specialize (Hc _ _ Hlast).
    destruct (h !! p) as [lf|]; [|discriminate]. injection Hc as Hc.
    rewrite Hc. f_equal. destruct ls as [|x ls]; [discriminate|].
    simpl length in *. simpl pred. rewrite wrap64_small; lia.
  - apply last_None in Hlast. by subst ls.
Qed.

(** Appended one at a time, fresh leaves are numbered 0, 1, 2, ...: when
    the leaves of a tree carry their positions as indices, appending a
    single leaf that is not yet in the tree succeeds and the leaves of the
    tree again carry their positions as indices. *)
Theorem leavesAppend_single_contiguous (treeID : Z) (p : loc) (lf : LogLeaf)
    (h : heap) (t : TestTrillianClient) :
  contiguous h (leaves_of t treeID) -> p ∉ leaves_of t treeID ->
  h !! p = Some lf -> Z.of_nat (length (leaves_of t treeID)) < 2 ^ 63 ->
  exists h' t',
    leavesAppend hash treeID [Some p] h t = Ret ([mkQueued p], h', t')
    /\ leaves_of t' treeID = leaves_of t treeID ++ [p]
    /\ LeafIndex <$> h' !! p = Some (Z.of_nat (length (leaves_of t treeID)))
    /\ contiguous h' (leaves_of t' treeID).
Proof.
  intros Hc Hfresh Hp Hlen.
  destruct (leavesAppend_valid hash treeID [p] h t) as (index & h' & Hidx & Happ & Hin & Hout).
  { by apply contiguous_valid. }
  { constructor; [by rewrite Hp|constructor]. }
  rewrite (next_index_contiguous _ _ Hc Hlen) in Hidx. injection Hidx as <-.
  eexists _, _. split; [exact Happ|].
  assert (Hnew : LeafIndex <$> h' !! p
                 = Some (Z.of_nat (length (leaves_of t treeID)))).
  { rewrite (Hin p) by apply list_elem_of_singleton, eq_refl. by rewrite Hp. }
  assert (Hl : leaves_of {| trees := trees t;
                            leaves := <[treeID := leaves_of t treeID ++ [p]]>
                                        (leaves t) |} treeID
               = leaves_of t treeID ++ [p]).
  { unfold leaves_of at 1. simpl. by rewrite lookup_insert_eq. }
  rewrite Hl. split; [done|]. split; [done|].
  intros i p' Hi. apply lookup_app_Some in Hi as [Hi|[Hge Hi]].
  - rewrite Hout; [by apply Hc|].
    intros Heq. apply list_elem_of_singleton in Heq as ->.
    apply Hfresh. apply list_elem_of_lookup. eauto.
  - destruct (i - length (leaves_of t treeID))%nat as [|n] eqn:Hn; [|done].
    injection Hi as <-. rewrite Hnew. do 2 f_equal. lia.
Qed.

(** Leaves are shared, not copied: when the pointer of a leaf that is
    already in the tree is appended again, the earlier entry is renumbered
    too, so that two positions of the tree carry the same index. *)
Theorem leavesAppend_same_pointer_reindexed (treeID : Z) (p : loc) (i : nat)
    (h : heap) (t : TestTrillianClient) :
  valid_ptrs h (leaves_of t treeID) ->
  leaves_of t treeID !! i = Some p ->
  exists index h' t',
    next_index h (leaves_of t treeID) = Ret index
    /\ leavesAppend hash treeID [Some p] h t = Ret ([mkQueued p], h', t')
    /\ indices h' (leaves_of t' treeID) !! i = Some (Some index)
    /\ indices h' (leaves_of t' treeID) !! length (leaves_of t treeID)
       = Some (Some index).
Proof.
  intros Hv Hi.
  assert (Hp : is_Some (h !! p)).
  { unfold valid_ptrs in Hv. rewrite Forall_lookup in Hv. by apply (Hv i). }
  destruct Hp as [lf Hp].
  destruct (leavesAppend_valid hash treeID [p] h t Hv)
    as (index & h' & Hidx & Happ & Hin & _).
  { constructor; [by rewrite Hp|constructor]. }
  eexists index, _, _. split; [done|]. split; [exact Happ|].
  assert (Hnew : LeafIndex <$> h' !! p = Some index).
  { rewrite (Hin p) by apply list_elem_of_singleton, eq_refl. by rewrite Hp. }
  assert (Hl : leaves_of {| trees := trees t;
                            leaves := <[treeID := leaves_of t treeID ++ [p]]>
                                        (leaves t) |} treeID
               = leaves_of t treeID ++ [p]).
  { unfold leaves_of at 1. simpl. by rewrite lookup_insert_eq. }
  rewrite Hl. unfold indices. rewrite !list_lookup_fmap. split.
  - rewrite lookup_app_l by (by eapply lookup_lt_Some).
    rewrite Hi. simpl. by rewrite Hnew.
  - rewrite lookup_app_r by lia. rewrite Nat.sub_diag. simpl. by rewrite Hnew.
Qed.

End TrillianWrites.

(** ** The test log client: unknown trees and the range loop *)

Section TrillianEdges.

Import Trillian TrillianInv.

Variable hash : bytes -> bytes.

(** [leavesAppend] does not look the tree up: on an id that no [treeNew]
    has created, a non-empty batch of valid leaves is accepted, numbered
    from 0 and stored, after which [leavesAll] lists it although [tree]
    still reports that the tree is not found. *)
Theorem leavesAppend_unknown_tree (treeID : Z) (ps : list loc)
    (h : heap) (t : TestTrillianClient) :
  trees t !! treeID = None -> leaves t !! treeID = None ->
  valid_ptrs h ps -> ps <> [] ->
  exists h' t',
    leavesAppend hash treeID (Some <$> ps) h t
      = Ret (mkQueued <$> ps, h', t')
    /\ leavesAll treeID t = Err (Errorf "Tree ID does not contain any leaf data")
    /\ leavesAll treeID t' = Ret ps
    /\ tree t' treeID = Err (Errorf "Tree ID not found")
    /\ forall p, p ∈ ps -> LeafIndex <$> h' !! p = Some 0.
Proof.
  intros Htree Hleaves Hps Hne.
  assert (Hcur : leaves_of t treeID = []).
  { unfold leaves_of. by rewrite Hleaves. }
  destruct (leavesAppend_valid hash treeID ps h t)
    as (index & h' & Hidx & Happ & Hin & _);
    [rewrite Hcur; constructor|done|].
  rewrite Hcur in Hidx, Happ. injection Hidx as <-.
  destruct ps as [|p ps]; [done|].
  eexists _, _. split; [exact Happ|].
  unfold leavesAll, tree. simpl. rewrite Hleaves, Htree, lookup_insert_eq.
  repeat split.
  intros p' Hp'. rewrite (Hin _ Hp').
  unfold valid_ptrs in Hps. rewrite Forall_forall in Hps.
  by destruct (Hps _ Hp') as [lf ->].
Qed.

Lemma range_step_Ret (h : heap) (startIndex count c : Z) (acc : list loc)
    (p : loc) (lf : LogLeaf) :
  h !! p = Some lf ->
  range_step h startIndex count (Ret (c, acc)) p
  = if (startIndex <=? LeafIndex lf) && (c <? count)
    then Ret (wrap64 (c + 1), acc ++ [p]) else Ret (c, acc).
Proof. intros Hp. unfold range_step. simpl. by rewrite Hp. Qed.

(** The loop of [leavesByRange] over the leaves from position [k] on. *)
Lemma range_fold_contiguous (h : heap) (startIndex count : Z) (l : list loc) :
  forall (k : nat) (c : Z) (acc : list loc),
    (forall j p, l !! j = Some p ->
       LeafIndex <$> h !! p = Some (Z.of_nat (k + j))) ->
    0 <= c -> count < 2 ^ 63 -> (c = 0 \/ startIndex <= Z.of_nat k) ->
    fold_left (range_step h startIndex count) l (Ret (c, acc))
    = Ret (c + Z.of_nat (length (take (Z.to_nat (count - c))
                                   (drop (Z.to_nat startIndex - k) l))),
           acc ++ take (Z.to_nat (count - c))
                    (drop (Z.to_nat startIndex - k) l)).
Proof.
  induction l as [|p l IH]; intros k c acc Hidx Hc Hcount Hpast.
  - simpl. rewrite drop_nil, take_nil, app_nil_r. simpl. f_equal. f_equal. lia.
  - pose proof (Hidx 0%nat p eq_refl) as Hp.
    destruct (h !! p) as [lf|] eqn:Hlf; [|discriminate].
    injection Hp as Hp. rewrite Nat.add_0_r in Hp.
    assert (Hidx' : forall j p', l !! j = Some p' ->
              LeafIndex <$> h !! p' = Some (Z.of_nat (S k + j))).
    { intros j p' Hj. rewrite (Hidx (S j) p' Hj). do 2 f_equal. lia. }
    cbn [fold_left]. rewrite (range_step_Ret _ _ _ _ _ _ _ Hlf), Hp.
    destruct (Z.leb_spec startIndex (Z.of_nat k)) as [Hle|Hlt].
    + replace (Z.to_nat startIndex - k)%nat with 0%nat by lia.
      destruct (Z.ltb_spec c count) as [Hcc|Hcc]; simpl.
      * rewrite wrap64_small by lia.
        rewrite (IH (S k) (c + 1) (acc ++ [p])); [|done|lia|done|right; lia].
        replace (Z.to_nat startIndex - S k)%nat with 0%nat by lia.
        replace (Z.to_nat (count - c)) with (S (Z.to_nat (count - (c + 1))))
          by lia.
        rewrite !drop_0. cbn [take length]. rewrite Nat2Z.inj_succ.
        rewrite <- app_assoc. cbn [app]. f_equal. f_equal. lia.
      * rewrite (IH (S k) c acc); [|done|lia|done|right; lia].
        replace (Z.to_nat (count - c)) with 0%nat by lia. done.
    + assert (c = 0) as -> by (destruct Hpast; lia).
      simpl. rewrite (IH (S k) 0 acc); [|done|lia|done|by left].
      replace (Z.to_nat startIndex - k)%nat
        with (S (Z.to_nat startIndex - S k)) by lia.
      done.
Qed.

(** On a tree whose leaves carry their positions as indices, the loop of
    [leavesByRange] collects the first [count] leaves whose index is at
    least [startIndex], in order; for a non-negative [startIndex] these are
    the leaves with index in [startIndex, startIndex + count). (The function
    itself then returns nil, not this list.) *)
Theorem range_loop_contiguous (h : heap) (startIndex count : Z)
    (ls : list loc) :
  contiguous h ls -> count < 2 ^ 63 ->
  let res := take (Z.to_nat count) (drop (Z.to_nat startIndex) ls) in
  range_loop h startIndex count ls = Ret (Z.of_nat (length res), res)
  /\ (0 <= startIndex ->
      forall i p, res !! i = Some p <->
        (Z.of_nat i < count /\ ls !! (Z.to_nat startIndex + i)%nat = Some p)).
Proof.
  intros Hc Hcount res. split.
  - unfold range_loop.
    rewrite (range_fold_contiguous h startIndex count ls 0 0 []);
      [|intros j p Hj; by apply Hc|lia|done|by left].
    rewrite Z.sub_0_r, Nat.sub_0_r. done.
  - intros Hstart i p. unfold res. rewrite lookup_take_Some, lookup_drop.
    split; intros [H1 H2]; (split; [done|lia]) || (split; [lia|done]).
Qed.

End TrillianEdges.

Lemma contiguous_one7 :
  TrillianInv.contiguous Trillian.heap_ab
    (Trillian.leaves_of Trillian.client_one7 7).
Proof.
  intros [|i] p Hi; [|destruct i; discriminate Hi].
  injection Hi as <-. reflexivity.
Qed.

Lemma contiguous_ac :
  TrillianInv.contiguous TrillianInv.heap_ac [1%positive; 3%positive].
Proof.
  intros [|[|i]] p Hi; [| |destruct i; discriminate Hi];
    injection Hi as <-; reflexivity.
Qed.

Lemma leavesAppend_nil_panics_witness :
  Trillian.leavesAppend TrillianInv.rev_hash 7 [Some 1%positive; None]
    Trillian.heap_ab Trillian.client_empty7 = Panic.
Proof.
  apply leavesAppend_nil_panics. apply list_elem_of_further, list_elem_of_here.
Defined.

Lemma leavesAppend_writes_through_witness :
  exists index,
    Trillian.next_index Trillian.heap_ab
      (Trillian.leaves_of Trillian.client_one7 7) = Ret index
    /\ (forall p lf, p ∈ [2%positive] -> Trillian.heap_ab !! p = Some lf ->
          <[2%positive := TrillianInv.stamp TrillianInv.rev_hash 1 Trillian.leaf_b]>
            Trillian.heap_ab !! p
          = Some (TrillianInv.stamp TrillianInv.rev_hash index lf))
    /\ (forall p, p ∉ [2%positive] ->
          <[2%positive := TrillianInv.stamp TrillianInv.rev_hash 1 Trillian.leaf_b]>
            Trillian.heap_ab !! p
          = Trillian.heap_ab !! p).
Proof.
  eapply (leavesAppend_writes_through TrillianInv.rev_hash 7 [2%positive]
            Trillian.heap_ab _ Trillian.client_one7).
  vm_compute. reflexivity.
Defined.

Lemma leavesAppend_single_contiguous_witness :
  exists h' t',
    Trillian.leavesAppend TrillianInv.rev_hash 7 [Some 2%positive]
      Trillian.heap_ab Trillian.client_one7
    = Ret ([Trillian.mkQueued 2], h', t')
    /\ Trillian.leaves_of t' 7
       = Trillian.leaves_of Trillian.client_one7 7 ++ [2%positive]
    /\ Trillian.LeafIndex <$> h' !! 2%positive
       = Some (Z.of_nat (length (Trillian.leaves_of Trillian.client_one7 7)))
    /\ TrillianInv.contiguous h' (Trillian.leaves_of t' 7).
Proof.
  apply (leavesAppend_single_contiguous TrillianInv.rev_hash 7 2%positive
           Trillian.leaf_b).
  - exact contiguous_one7.
  - intros Hin. apply list_elem_of_singleton in Hin. discriminate Hin.
  - reflexivity.
  - reflexivity.
Defined.

Lemma leavesAppend_same_pointer_reindexed_witness :
  exists index h' t',
    Trillian.next_index Trillian.heap_ab
      (Trillian.leaves_of Trillian.client_one7 7) = Ret index
    /\ Trillian.leavesAppend TrillianInv.rev_hash 7 [Some 1%positive]
         Trillian.heap_ab Trillian.client_one7
       = Ret ([Trillian.mkQueued 1], h', t')
    /\ Trillian.indices h' (Trillian.leaves_of t' 7) !! 0%nat
       = Some (Some index)
    /\ Trillian.indices h' (Trillian.leaves_of t' 7)
         !! length (Trillian.leaves_of Trillian.client_one7 7)
       = Some (Some index).
Proof.
  apply (leavesAppend_same_pointer_reindexed TrillianInv.rev_hash 7 1%positive
           0%nat).
  - repeat constructor. eexists. vm_compute. reflexivity.
  - reflexivity.
Defined.

Lemma leavesAppend_unknown_tree_witness :
  exists h' t',
    Trillian.leavesAppend TrillianInv.rev_hash 5 (Some <$> [1%positive])
      Trillian.heap_ab Trillian.newTestTrillianClient
    = Ret (Trillian.mkQueued <$> [1%positive], h', t')
    /\ Trillian.leavesAll 5 Trillian.newTestTrillianClient
       = Err (Errorf "Tree ID does not contain any leaf data")
    /\ Trillian.leavesAll 5 t' = Ret [1%positive]
    /\ Trillian.tree t' 5 = Err (Errorf "Tree ID not found")
    /\ forall p, p ∈ [1%positive] -> Trillian.LeafIndex <$> h' !! p = Some 0.
Proof.
  apply leavesAppend_unknown_tree.
  - reflexivity.
  - reflexivity.
  - repeat constructor. eexists. vm_compute. reflexivity.
  - discriminate.
Defined.

Lemma range_loop_contiguous_witness :
  Trillian.range_loop TrillianInv.heap_ac 1 5 [1%positive; 3%positive]
  = Ret (1, [3%positive]).
Proof.
  apply (range_loop_contiguous TrillianInv.heap_ac 1 5 [1%positive; 3%positive]).
  - exact contiguous_ac.
  - reflexivity.
Defined.

(** ** The blob store: when [Get] returns a map *)

Section StoreMore.

Import Store StoreInv.

Variable Join : string -> string -> string.

Lemma Get_loop_Ret f d keys :
  forall blobs m,
    Get_loop Join f d keys blobs = Ret m ->
    Forall (readable Join f d) keys
    /\ forall key, m !! key
                   = if decide (key ∈ keys) then content_of Join f d key
                     else blobs !! key.
Proof.
  induction keys as [|k keys IH]; intros blobs m; simpl.
  - intros [= <-]. split; [constructor|]. intros key.
    destruct (decide (key ∈ [])) as [Hin|_]; [by apply elem_of_nil in Hin|done].
  - unfold ReadFile. destruct (d !! Join (root f) k) as [[b|msg]|] eqn:Hk;
      try discriminate.
    intros H. apply IH in H as [Hall Hm]. split.
    + constructor; [by exists b|done].
    + intros key. rewrite Hm.
      destruct (decide (key ∈ keys)) as [Hin|Hout].
      * rewrite decide_True; [done|]. by apply elem_of_cons; right.
      * destruct (decide (key = k)) as [->|Hne].
        -- rewrite decide_True by (apply elem_of_cons; by left).
           rewrite lookup_insert_eq. unfold content_of. by rewrite Hk.
        -- rewrite decide_False.
           ++ by rewrite lookup_insert_ne.
           ++ intros Hin. apply elem_of_cons in Hin as [?|?]; done.
Qed.

(** [Get] returns a map exactly when every requested key has a readable
    file, and the map then holds, for each requested key and for no other
    key, the bytes of its file. *)
Theorem Get_returns_map_iff (f : fileSystem) (d : disk) (keys : list string) :
  ((exists m, Get Join f d keys = Ret m) <-> Forall (readable Join f d) keys)
  /\ forall m, Get Join f d keys = Ret m ->
       forall key b, m !! key = Some b
                     <-> key ∈ keys /\ d !! Join (root f) key = Some (Readable b).
Proof.
  split; [split|].
  - intros [m Hm]. by apply Get_loop_Ret in Hm as [Hall _].
  - intros Hall. destruct (Get_loop_all_readable Join f d keys ∅ Hall)
      as (m & Hm & _). by exists m.
  - intros m Hm key b. apply Get_loop_Ret in Hm as [_ Hm]. rewrite Hm.
    destruct (decide (key ∈ keys)) as [Hin|Hout].
    + unfold content_of.
      destruct (d !! Join (root f) key) as [[b'|msg]|]; split;
        try (intros [_ [= <-]]; done); try (intros [= <-]; done);
        try discriminate; try (intros [_ ?]; discriminate).
    + rewrite lookup_empty. split; [discriminate|]. intros [? _]. done.
Qed.

(** The first key that cannot be read decides the error, and no map is
    returned: [store.ErrNotFound] when its file does not exist, the error of
    the operating system otherwise. *)
Theorem Get_first_failure (f : fileSystem) (d : disk)
    (pre rest : list string) (key : string) :
  Forall (readable Join f d) pre ->
  (d !! Join (root f) key = None ->
   Get Join f d (pre ++ key :: rest) = Err ErrNotFound)
  /\ (forall msg, d !! Join (root f) key = Some (Unreadable msg) ->
      Get Join f d (pre ++ key :: rest) = Err (ErrIO msg)).
Proof.
  intros Hpre. unfold Get. generalize (∅ : gmap string bytes).
  induction Hpre as [|k pre [b Hk] _ IH]; intros blobs.
  - split; [apply Get_loop_missing|intros msg; apply Get_loop_unreadable].
  - simpl. unfold ReadFile. rewrite Hk. apply IH.
Qed.

End StoreMore.

Lemma Get_first_failure_witness :
  Store.Get Store.join_slash Store.fs_data
    {[ "data/a" := Store.Readable [1] ]} ["a"; "b"] = Err ErrNotFound.
Proof.
  apply (Get_first_failure Store.join_slash Store.fs_data
           {[ "data/a" := Store.Readable [1] ]} ["a"] [] "b").
  - repeat constructor. exists [1]. reflexivity.
  - reflexivity.
Defined.

(** ** The verification tools: receipts, digests and dispatch *)

Section VerifyMoreFacts.

Import Verify VerifyMore.

Variable Identity : Type.
Variable Sig : Type.
Variable json_Unmarshal : string -> go_result record.
Variable json_Unmarshal_comments : string -> go_result (list comment).
Variable base64_DecodeString : string -> go_result bytes.
Variable hex_EncodeToString : bytes -> string.
Variable util_Digest : bytes -> bytes.
Variable util_ConvertDigest : string -> option bytes.
Variable merkle_Root : list bytes -> bytes.
Variable util_IdentityFromString : string -> go_result Identity.
Variable util_ConvertSignature : string -> go_result Sig.
Variable VerifyMessage : Identity -> string -> Sig -> bool.
Variable wwwutil_MerkleRoot : list files -> list metadata -> go_result string.
Variable ioutil_ReadFile : string -> go_result string.

Local Abbreviation verify_receipt :=
  (verify_receipt Identity Sig util_IdentityFromString util_ConvertSignature
     VerifyMessage).
Local Abbreviation verifyComments :=
  (verifyComments Identity Sig json_Unmarshal_comments util_IdentityFromString
     util_ConvertSignature VerifyMessage).
Local Abbreviation entry_ok :=
  (entry_ok base64_DecodeString util_Digest util_ConvertDigest).
Local Abbreviation digest_step :=
  (digest_step base64_DecodeString util_Digest util_ConvertDigest).
Local Abbreviation merkleRoot :=
  (merkleRoot base64_DecodeString hex_EncodeToString util_Digest
     util_ConvertDigest merkle_Root).
Local Abbreviation merkleRoot_old :=
  (merkleRoot_old base64_DecodeString hex_EncodeToString util_Digest
     merkle_Root).
Local Abbreviation payload_digest :=
  (payload_digest base64_DecodeString util_Digest).

Lemma verify_receipt_fold_Ret cs st :
  fold_left verify_receipt cs st = Ret tt -> st = Ret tt.
Proof.
  revert st. induction cs as [|c cs IH]; intros st; simpl; [done|].
  intros H. apply IH in H. unfold VerifyMore.verify_receipt in H.
  apply bind_Ret_inv in H as ([] & -> & _). done.
Qed.

Lemma verify_receipt_fold cs :
  fold_left verify_receipt cs (Ret tt) = Ret tt
  <-> Forall (fun c => exists id receipt,
                util_IdentityFromString (CServerPublicKey c) = Ret id
                /\ util_ConvertSignature (Receipt c) = Ret receipt
                /\ VerifyMessage id (CSignature c) receipt = true) cs.
Proof.
  induction cs as [|c cs IH]; cbn [fold_left].
  - split; [constructor|done].
  - split.
    + intros H. pose proof (verify_receipt_fold_Ret _ _ H) as Hc.
      rewrite Hc in H. apply IH in H. constructor; [|done].
      unfold VerifyMore.verify_receipt in Hc. simpl in Hc.
      apply bind_Ret_inv in Hc as (id & Hid & Hc).
      apply bind_Ret_inv in Hc as (r & Hr & Hc).
      destruct (VerifyMessage id (CSignature c) r) eqn:Hv; [|discriminate].
      eauto.
    + intros Hall. apply Forall_cons in Hall as [(id & r & Hid & Hr & Hv) Hall].
      assert (Hstep : verify_receipt (Ret tt) c = Ret tt).
      { unfold VerifyMore.verify_receipt. simpl.
        rewrite Hid. simpl. rewrite Hr. simpl. by rewrite Hv. }
      rewrite Hstep. by apply IH.
Qed.

(** [verifyComments] accepts a bundle exactly when it decodes and, for
    every comment of it, the server key and the receipt convert and the
    receipt verifies the comment's signature under that key. In particular
    an empty bundle is accepted. *)
Theorem verifyComments_iff (payload : string) :
  verifyComments payload = Ret tt
  <-> exists cs,
        json_Unmarshal_comments payload = Ret cs
        /\ Forall (fun c => exists id receipt,
                     util_IdentityFromString (CServerPublicKey c) = Ret id
                     /\ util_ConvertSignature (Receipt c) = Ret receipt
                     /\ VerifyMessage id (CSignature c) receipt = true) cs.
Proof.
  unfold VerifyMore.verifyComments. split.
  - intros H. apply bind_Ret_inv in H as (cs & Hcs & H).
    exists cs. split; [done|]. by apply verify_receipt_fold.
  - intros (cs & -> & Hall). simpl. by apply verify_receipt_fold.
Qed.

Lemma digest_fold_ok {A} (step : A -> string * string) what l :
  Forall (fun x => entry_ok (step x).1 (step x).2) l ->
  forall acc, exists new,
    fold_left (fun acc x => digest_step what (step x).1 (step x).2 acc) l
      (Ret acc) = Ret (acc ++ new)
    /\ (fun x => payload_digest (step x).1) <$> l = Some <$> new.
Proof.
  induction 1 as [|x l (b & Hb & Hcd) _ IH]; intros acc.
  - exists []. simpl. by rewrite app_nil_r.
  - destruct (IH (acc ++ [copy32 (util_Digest b)])) as (new & Hfold & Hnew).
    exists (copy32 (util_Digest b) :: new). split.
    + cbn [fold_left].
      assert (Hstep : digest_step what (step x).1 (step x).2 (Ret acc)
                      = Ret (acc ++ [copy32 (util_Digest b)])).
      { unfold Verify.digest_step. simpl. rewrite Hb. simpl. rewrite Hcd.
        unfold bytes_Equal. by rewrite bool_decide_eq_true_2. }
      rewrite Hstep, Hfold. by rewrite <- app_assoc.
    + rewrite !fmap_cons. f_equal; [|done].
      unfold Verify.payload_digest. by rewrite Hb.
Qed.

(** [merkleRoot] returns a root exactly when the bundle has a file or a
    metadata stream, and every file and every metadata stream has a payload
    that decodes and a stated digest equal to the digest of the decoded
    payload; the root is then the hex form of the merkle root of those
    digests, files first. A single disagreeing digest makes it return an
    error. For a bundle with no file and no metadata stream it panics:
    [merkle.Root] has no root to point to. *)
Theorem merkleRoot_iff (fs : list files) (mds : list metadata) (m : string) :
  (merkleRoot fs mds = Ret m
   <-> (fs <> [] \/ mds <> [])
       /\ Forall (fun f => entry_ok (FPayload f) (FDigest f)) fs
       /\ Forall (fun md => entry_ok (MPayload md) (MDigest md)) mds
       /\ exists digests,
            content_digests base64_DecodeString util_Digest fs mds
              = Some <$> digests
            /\ m = hex_EncodeToString (merkle_Root digests))
  /\ merkleRoot [] [] = Panic.
Proof.
  split; [|reflexivity]. split.
  - intros H. pose proof H as H0. unfold Verify.merkleRoot in H.
    apply bind_Ret_inv in H as (d1 & H1 & H).
    apply bind_Ret_inv in H as (d2 & H2 & _).
    split.
    { destruct fs as [|f fs]; [|by left]. destruct mds as [|md mds]; [|by right].
      discriminate H0. }
    apply (digest_fold_spec base64_DecodeString util_Digest util_ConvertDigest
             (fun f => (FPayload f, FDigest f))) in H1 as (_ & _ & _ & Hfs).
    apply (digest_fold_spec base64_DecodeString util_Digest util_ConvertDigest
             (fun f => (MPayload f, MDigest f))) in H2 as (_ & _ & _ & Hmds).
    split; [exact Hfs|]. split; [exact Hmds|].
    by apply (merkleRoot_spec base64_DecodeString hex_EncodeToString
                util_Digest util_ConvertDigest merkle_Root).
  - intros (Hne & Hfs & Hmds & digests & Hd & ->).
    destruct (digest_fold_ok (fun f => (FPayload f, FDigest f)) "file" fs Hfs [])
      as (n1 & H1 & Hn1).
    destruct (digest_fold_ok (fun f => (MPayload f, MDigest f)) "metadata" mds
                Hmds ([] ++ n1)) as (n2 & H2 & Hn2).
    assert (Hd' : Some <$> (n1 ++ n2) = Some <$> digests).
    { rewrite <- Hd. unfold content_digests. rewrite fmap_app.
      f_equal; symmetry; [exact Hn1|exact Hn2]. }
    apply (inj (fmap Some)) in Hd'.
    assert (Hlen : length digests = (length fs + length mds)%nat).
    { rewrite <- Hd', length_app.
      apply (f_equal length) in Hn1. apply (f_equal length) in Hn2.
      rewrite !length_fmap in Hn1. rewrite !length_fmap in Hn2. lia. }
    unfold Verify.merkleRoot. simpl in *. rewrite H1. simpl. rewrite H2. simpl.
    rewrite Hd'. destruct digests as [|d digests]; [|done].
    destruct Hne as [Hne|Hne]; [destruct fs|destruct mds]; simpl in Hlen;
      done || lia.
Qed.

Lemma digest_fold_old {A B} (stepa : A -> string * string) (payb : B -> string)
    what (la : list A) (lb : list B) :
  (fun x => (stepa x).1) <$> la = payb <$> lb ->
  forall acc ds,
    fold_left (fun acc x => digest_step what (stepa x).1 (stepa x).2 acc) la
      (Ret acc) = Ret ds ->
    fold_left (fun acc x => digest_step_old base64_DecodeString util_Digest
                              (payb x) acc) lb (Ret acc) = Ret ds.
Proof.
  revert lb. induction la as [|a la IH]; intros [|b lb] Heq acc ds;
    try discriminate; simpl; [done|].
  injection Heq as Hp Heq. intros H.
  destruct (digest_fold_Ret base64_DecodeString util_Digest util_ConvertDigest
              _ _ _ _ _ H) as [acc1 Hstep].
  rewrite Hstep in H. apply (IH lb Heq) in H.
  unfold Verify.digest_step in Hstep. simpl in Hstep.
  unfold digest_step_old. simpl. rewrite <- Hp.
  destruct (base64_DecodeString (stepa a).1) as [bs| |]; simpl in *;
    try discriminate.
  destruct (util_ConvertDigest (stepa a).2) as [cd|]; [|discriminate].
  destruct (bytes_Equal (util_Digest bs) cd); [|discriminate].
  injection Hstep as <-. exact H.
Qed.

(** The two record verifiers agree on bundles that pass the digest check:
    when [merkleRoot] returns a root for a bundle, the older [merkleRoot],
    which does not compare digests, returns the same root for the same
    payloads. *)
Theorem merkleRoot_old_agrees (fs : list files) (fs_old : list files_mime)
    (mds : list metadata) (m : string) :
  FPayload <$> fs = OPayload <$> fs_old ->
  merkleRoot fs mds = Ret m ->
  merkleRoot_old fs_old mds = Ret m.
Proof.
  intros Hpay H. unfold Verify.merkleRoot in H.
  apply bind_Ret_inv in H as (d1 & H1 & H).
  apply bind_Ret_inv in H as (d2 & H2 & H).
  unfold VerifyMore.merkleRoot_old.
  apply (digest_fold_old (fun f => (FPayload f, FDigest f)) OPayload "file"
           fs fs_old Hpay) in H1.
  apply (digest_fold_old (fun f => (MPayload f, MDigest f)) MPayload "metadata"
           mds mds eq_refl) in H2.
  rewrite H1. simpl. rewrite H2. simpl. exact H.
Qed.

(** The verifier's [_main] returns nil only when it was given exactly one
    path and exactly one of the flags [-proposal] and [-comments], the file
    could be read, and the check chosen by the flag accepted its content. *)
Theorem main_verify_accepts_only (args : list string) (fp fc : bool) :
  main_verify Identity Sig json_Unmarshal json_Unmarshal_comments
    util_IdentityFromString util_ConvertSignature VerifyMessage
    wwwutil_MerkleRoot ioutil_ReadFile args fp fc = Ret tt ->
  exists path payload,
    args = [path] /\ fp = negb fc
    /\ ioutil_ReadFile path = Ret payload
    /\ (fp = true ->
        verifyProposal Identity Sig json_Unmarshal util_IdentityFromString
          util_ConvertSignature VerifyMessage wwwutil_MerkleRoot payload
        = Ret tt)
    /\ (fc = true -> verifyComments payload = Ret tt).
Proof.
  unfold main_verify. destruct args as [|path [|x args]]; simpl; try discriminate.
  destruct fp, fc; simpl; try discriminate; unfold index_at; simpl;
    intros H; apply bind_Ret_inv in H as (payload & Hread & H);
    exists path, payload; repeat split; try done.
Qed.

(** [verifyRecord] of the command line tool reads its four parameters
    before it checks their number: with fewer than four it panics with an
    index out of range and never returns its "Must pass all input
    parameters" error. With four or more it accepts exactly when the key
    and the signature convert and the signature verifies merkle root
    followed by token. *)
Theorem verifyRecord_cli (flagArgs : list string) :
  ((length flagArgs < 5)%nat ->
   VerifyMore.verifyRecord Identity Sig util_IdentityFromString
     util_ConvertSignature VerifyMessage flagArgs = Panic)
  /\ forall action pk token root signature rest,
       flagArgs = action :: pk :: token :: root :: signature :: rest ->
       (VerifyMore.verifyRecord Identity Sig util_IdentityFromString
          util_ConvertSignature VerifyMessage flagArgs = Ret tt
        <-> exists id sig,
              util_IdentityFromString pk = Ret id
              /\ util_ConvertSignature signature = Ret sig
              /\ VerifyMessage id (root ++ token) sig = true).
Proof.
  split.
  - intros Hlen. unfold VerifyMore.verifyRecord, slice_from, index_at.
    destruct flagArgs as [|a [|b [|c [|d [|e l]]]]]; simpl in *; try done; lia.
  - intros action pk token root signature rest ->.
    unfold VerifyMore.verifyRecord, slice_from, index_at. simpl. split.
    + intros H. apply bind_Ret_inv in H as (id & Hid & H).
      apply bind_Ret_inv in H as (sig & Hsig & H).
      destruct (VerifyMessage id (root ++ token) sig) eqn:Hv; [|discriminate].
      eauto.
    + intros (id & sig & -> & -> & Hv). simpl. by rewrite Hv.
Qed.

End VerifyMoreFacts.

Lemma merkleRoot_old_agrees_witness :
  VerifyMore.merkleRoot_old (fun _ => Ret []) (fun _ => "m") Verify.toy_digest
    (fun _ => [])
    [ {| VerifyMore.OName := "index.md"; VerifyMore.OMIME := "text/plain";
         VerifyMore.ODigest := "00"; VerifyMore.OPayload := "" |} ]
    (Verify.Metadata Verify.toy_bundle)
  = Ret "m".
Proof.
  apply (merkleRoot_old_agrees (fun _ => Ret []) (fun _ => "m")
           Verify.toy_digest (fun _ => Some (replicate 32 0)) (fun _ => [])
           (Verify.Files Verify.toy_bundle)).
  - reflexivity.
  - reflexivity.
Defined.

Lemma main_verify_accepts_only_witness :
  exists path payload,
    ["bundle.json"] = [path] /\ true = negb false
    /\ Ret path = Ret payload
    /\ (true = true ->
        Verify.verifyProposal string string (fun _ => Ret Verify.toy_bundle)
          Ret Ret Verify.toy_verify (fun _ _ => Ret "m") payload = Ret tt)
    /\ (false = true ->
        VerifyMore.verifyComments string string
          (fun _ => Ret VerifyMore.toy_comments) Ret Ret Verify.toy_verify
          payload = Ret tt).
Proof.
  apply (main_verify_accepts_only string string
           (fun _ => Ret Verify.toy_bundle)
           (fun _ => Ret VerifyMore.toy_comments) Ret Ret Verify.toy_verify
           (fun _ _ => Ret "m") Ret ["bundle.json"] true false).
  reflexivity.
Defined.

(** ** The politeiatlog tool *)

Lemma typed_line_is_not_yes (line : string) :
  String.eqb (line ++ Tlog.newline) "y" = false
  /\ String.eqb (line ++ Tlog.newline) "yes" = false.
Proof.
  destruct line as [|a [|b [|c [|d line]]]]; split; apply String.eqb_neq;
    simpl; intros H; try discriminate H;
    injection H; intros; try discriminate;
    repeat match goal with
           | H' : (?l ++ Tlog.newline)%string = _ |- _ =>
               destruct l; discriminate H'
           end.
Qed.

Section TlogFacts.

Import Tlog.

Variable T L : Type.
Variable ParseInt : string -> go_result Z.
Variable tclient_Tree : Z -> go_result T.
Variable tclient_LeavesAll : Z -> go_result (list L).
Variable tclient_LeavesByRange : Z -> Z -> Z -> go_result (list L).
Variable leavesParse : list L -> go_result unit.
Variable answer : string.

(** The [tree] action cannot succeed: it requires exactly one argument
    after the action and then reads the second one. Whatever the command
    line, it returns [errInputParams] or panics with an index out of range,
    and it never prints a tree. *)
Theorem tree_never_succeeds (flagArgs : list string) :
  ((tree T L ParseInt tclient_Tree flagArgs).1 = Err errInputParams
   \/ (tree T L ParseInt tclient_Tree flagArgs).1 = Panic)
  /\ forall t, EvTree t ∉ (tree T L ParseInt tclient_Tree flagArgs).2.
Proof.
  unfold tree, slice_from, index_at.
  destruct flagArgs as [|action [|a [|b args]]]; simpl.
  - split; [by right|]. intros t Hin. by apply elem_of_nil in Hin.
  - split; [by left|]. intros t Hin.
    apply list_elem_of_singleton in Hin. discriminate Hin.
  - split; [by right|]. intros t Hin. by apply elem_of_nil in Hin.
  - split; [by left|]. intros t Hin.
    apply list_elem_of_singleton in Hin. discriminate Hin.
Qed.

(** For a tree with more than 30 leaves [leavesAll] asks for confirmation,
    but the answer is compared, line feed included, with "y" and "yes":
    whatever line the user types, the tool returns nil without running
    [leavesParse]. With at most 30 leaves it runs [leavesParse] unprompted
    and returns its result. *)
Theorem leavesAll_typed_answer (action a line : string) (id : Z)
    (ls : list L) :
  ParseInt a = Ret id -> tclient_LeavesAll id = Ret ls ->
  answer = (line ++ newline)%string ->
  ((defaultMaxLeavesLength < length ls)%nat ->
   leavesAll T L ParseInt tclient_LeavesAll leavesParse answer [action; a]
   = (Ret tt, [EvPrompt (length ls)]))
  /\ ((length ls <= defaultMaxLeavesLength)%nat ->
      leavesAll T L ParseInt tclient_LeavesAll leavesParse answer [action; a]
      = (leavesParse ls, [EvParsed ls])).
Proof.
  intros Hid Hls ->. unfold leavesAll, slice_from, index_at. simpl.
  rewrite Hid. simpl. rewrite Hls. simpl. unfold confirm_and_parse.
  destruct (typed_line_is_not_yes line) as [Hy Hyes].
  split; intros Hlen.
  - destruct (Nat.ltb_spec defaultMaxLeavesLength (length ls)); [|lia].
    simpl. by rewrite Hy, Hyes.
  - destruct (Nat.ltb_spec defaultMaxLeavesLength (length ls)); [lia|].
    simpl. by destruct (leavesParse ls).
Qed.

(** The earlier [leavesByRange] parses the tree id, the start index and the
    count all from its first argument: the second and third arguments have
    no effect, and the client is asked for the range (x, x, x) where x is
    the tree id. *)
Theorem leavesByRange_v0_ignores_range (action a s c s' c' : string) :
  leavesByRange_v0 T L ParseInt tclient_LeavesByRange [action; a; s; c]
  = leavesByRange_v0 T L ParseInt tclient_LeavesByRange [action; a; s'; c']
  /\ forall x ls,
       ParseInt a = Ret x -> tclient_LeavesByRange x x x = Ret ls ->
       leavesByRange_v0 T L ParseInt tclient_LeavesByRange [action; a; s; c]
       = (Ret tt, EvRange x x x :: (print_leaves T L ls).2).
Proof.
  split; [reflexivity|].
  intros x ls Hx Hls. unfold leavesByRange_v0, slice_from, index_at. simpl.
  rewrite Hx. simpl. by rewrite Hls.
Qed.

End TlogFacts.

Lemma leavesAll_typed_answer_witness :
  Tlog.leavesAll nat nat Tlog.toy_ParseInt Tlog.forty_leaves
    (fun _ => Err ErrNotFound) ("yes" ++ Tlog.newline) ["leaves"; "7"]
  = (Ret tt, [Tlog.EvPrompt 40]).
Proof.
  apply (leavesAll_typed_answer nat nat Tlog.toy_ParseInt Tlog.forty_leaves
           (fun _ => Err ErrNotFound) ("yes" ++ Tlog.newline)
           "leaves" "7" "yes" 7 (seq 0 40)).
  - reflexivity.
  - reflexivity.
  - reflexivity.
  - vm_compute. lia.
Defined.

(** ** The metadata flags of the politeia tool *)

Section PoliteiaFacts.

Import Politeia Stdlib.Strings.Ascii.

Local Arguments String.append !_ _ /.
Local Arguments Ascii.eqb : simpl never.
Local Arguments is_digit : simpl never.

Lemma stake_app (a b : string) : stake (String.length a) (a ++ b) = a.
Proof.
  induction a as [|x a IH]; simpl; [by destruct b|]. f_equal. exact IH.
Qed.

Lemma sdrop_app (a b : string) : sdrop (String.length a) (a ++ b) = b.
Proof. induction a as [|x a IH]; simpl; [done|exact IH]. Qed.

(** A literal prefix of an expression matches itself. *)
Lemma match_lit (p : string) (items : list item) (s : string) :
  match_items (lit p ++ items) (p ++ s)
  = (fun n => (String.length p + n)%nat) <$> match_items items s.
Proof.
  induction p as [|c p IH]; simpl.
  - by destruct (match_items items s).
  - rewrite Ascii.eqb_refl, IH. by destruct (match_items items s).
Qed.

Lemma match_lit_inv (p : string) (items : list item) (v : string) (n : nat) :
  match_items (lit p ++ items) v = Some n ->
  exists s n', v = (p ++ s)%string /\ match_items items s = Some n'
               /\ n = (String.length p + n')%nat.
Proof.
  revert v n. induction p as [|c p IH]; intros v n; simpl.
  - intros H. exists v, n. done.
  - destruct v as [|c' v]; [done|].
    destruct (Ascii.eqb_spec c c') as [<-|]; [|done].
    destruct (match_items (lit p ++ items) v) as [m|] eqn:Hm; [|done].
    intros [= <-]. apply IH in Hm as (s & n' & -> & Hs & ->).
    exists s, n'. done.
Qed.

Lemma is_digit_colon : is_digit ":"%char = false.
Proof. reflexivity. Qed.

Lemma digit_not_colon (c : Ascii.ascii) :
  is_digit c = true -> Ascii.eqb ":"%char c = false.
Proof.
  intros Hc. destruct (Ascii.eqb_spec ":"%char c) as [<-|]; [|done].
  by rewrite is_digit_colon in Hc.
Qed.

(** One or two digits followed by a colon. *)
Lemma match_digits_colon (ds rest : string) :
  digits12 ds = true ->
  match_items [Digits 1 2; Chr ":"%char] (ds ++ ":" ++ rest)
  = Some (String.length ds + 1)%nat.
Proof.
  destruct ds as [|a [|b [|c ds]]]; try discriminate; simpl.
  - intros ->. rewrite ?is_digit_colon. simpl. by rewrite ?Ascii.eqb_refl.
  - intros [-> ->]%andb_prop. simpl. by rewrite ?Ascii.eqb_refl.
Qed.

Lemma match_digits_colon_inv (s : string) (n : nat) :
  match_items [Digits 1 2; Chr ":"%char] s = Some n ->
  exists ds rest, s = (ds ++ ":" ++ rest)%string /\ digits12 ds = true
                  /\ n = (String.length ds + 1)%nat.
Proof.
  destruct s as [|a s]; simpl; [done|].
  destruct (is_digit a) eqn:Ha; [|done].
  destruct s as [|b s]; simpl; [done|].
  destruct (is_digit b) eqn:Hb.
  - rewrite (digit_not_colon _ Hb).
    destruct s as [|c s]; simpl; [done|].
    destruct (Ascii.eqb_spec ":"%char c) as [<-|]; simpl; [|done].
    intros [= <-]. exists (String a (String b EmptyString)), s.
    simpl. by rewrite Ha, Hb.
  - destruct (Ascii.eqb_spec ":"%char b) as [<-|]; simpl; [|done].
    intros [= <-]. exists (String a EmptyString), s. simpl. by rewrite Ha.
Qed.

(** The digits of an action are what [regexMDID] finds in its prefix. *)
Lemma find_id (p ds : string) :
  no_digit p = true -> digits12 ds = true ->
  FindString_anywhere regexMDID (p ++ ds ++ ":") = ds.
Proof.
  intros Hp Hds. induction p as [|c p IH]; simpl.
  - destruct ds as [|a [|b [|x ds]]]; try discriminate; simpl in *.
    + rewrite Hds. simpl. by rewrite ?is_digit_colon.
    + apply andb_prop in Hds as [-> ->]. done.
  - simpl in Hp. apply andb_prop in Hp as [Hc Hp].
    apply negb_true_iff in Hc. rewrite Hc. by apply IH.
Qed.

Lemma is_digit_value (c : Ascii.ascii) :
  is_digit c = true -> (Ascii.N_of_ascii c - 48 <= 9)%N.
Proof.
  unfold is_digit, Ascii.nat_of_ascii. intros [H1 H2]%andb_prop.
  apply Nat.leb_le in H1, H2. lia.
Qed.

(** One or two digits parse to a number below 100. *)
Lemma ParseUint_digits12 (ds : string) :
  digits12 ds = true -> exists i, ParseUint ds = Ret i /\ (i < 100)%N.
Proof.
  destruct ds as [|a [|b [|c ds]]]; try discriminate; simpl.
  - intros Ha. rewrite Ha. pose proof (is_digit_value _ Ha).
    eexists. split.
    + destruct (N.ltb_spec (10 * 0 + (Ascii.N_of_ascii a - 48)) (2 ^ 64));
        [reflexivity|lia].
    + lia.
  - intros [Ha Hb]%andb_prop. rewrite Ha, Hb.
    pose proof (is_digit_value _ Ha). pose proof (is_digit_value _ Hb).
    eexists. split.
    + destruct (N.ltb_spec (10 * (10 * 0 + (Ascii.N_of_ascii a - 48))
                            + (Ascii.N_of_ascii b - 48)) (2 ^ 64));
        [reflexivity|lia].
    + lia.
Qed.

(** The decimal form of a number below 100 has one or two digits and parses
    back to the number. *)
Lemma pretty_small_nat (n : nat) :
  (n < 100)%nat ->
  digits12 (pretty (N.of_nat n)) = true
  /\ ParseUint (pretty (N.of_nat n)) = Ret (N.of_nat n).
Proof.
  intros Hn. do 100 (destruct n as [|n]; [by vm_compute|]). lia.
Qed.

Lemma pretty_small (id : N) :
  (id < 100)%N ->
  digits12 (pretty id) = true /\ ParseUint (pretty id) = Ret id.
Proof.
  intros Hid. rewrite <- (N2Nat.id id). apply pretty_small_nat. lia.
Qed.

(** An action flag: its prefix is what the expression finds, the rest is
    the payload. *)
Lemma md_action (p ds payload : string) :
  digits12 ds = true ->
  MatchString (lit p ++ [Digits 1 2; Chr ":"%char]) (p ++ ds ++ ":" ++ payload)
    = true
  /\ FindString (lit p ++ [Digits 1 2; Chr ":"%char]) (p ++ ds ++ ":" ++ payload)
     = (p ++ ds ++ ":")%string
  /\ sdrop (String.length (p ++ ds ++ ":")) (p ++ ds ++ ":" ++ payload)
     = payload.
Proof.
  intros Hds.
  assert (Hm : match_items (lit p ++ [Digits 1 2; Chr ":"%char])
                 (p ++ ds ++ ":" ++ payload)
               = Some (String.length (p ++ ds ++ ":"))).
  { rewrite match_lit, match_digits_colon by done. simpl.
    by rewrite !slength_app. }
  assert (Hv : (p ++ ds ++ ":" ++ payload)%string
               = ((p ++ ds ++ ":") ++ payload)%string).
  { by rewrite !sapp_assoc. }
  unfold MatchString, FindString. rewrite Hm. split; [|split].
  - by apply bool_decide_eq_true_2.
  - rewrite Hv. apply stake_app.
  - rewrite Hv. apply sdrop_app.
Qed.

Lemma md_action_inv (p v : string) :
  MatchString (lit p ++ [Digits 1 2; Chr ":"%char]) v = true ->
  exists ds rest, v = (p ++ ds ++ ":" ++ rest)%string /\ digits12 ds = true.
Proof.
  unfold MatchString. intros H. apply bool_decide_eq_true_1 in H as [n Hn].
  apply match_lit_inv in Hn as (s & n' & -> & Hs & _).
  apply match_digits_colon_inv in Hs as (ds & rest & -> & Hds & _).
  by exists ds, rest.
Qed.

Lemma not_append (rest : string) :
  MatchString regexAppendMD ("overwritemetadata" ++ rest) = false
  /\ MatchString regexAppendMD ("token:" ++ rest) = false
  /\ MatchString regexOverwriteMD ("token:" ++ rest) = false.
Proof. repeat split. Qed.

Lemma token_found (tok : string) :
  MatchString regexToken ("token:" ++ tok) = true
  /\ sdrop (String.length (FindString regexToken ("token:" ++ tok)))
       ("token:" ++ tok) = tok.
Proof. split; reflexivity. Qed.

(** What one iteration does with an action as the user writes it. *)
Lemma md_step_flag (st : md_state) (a : bool * N * string) :
  (a.1.2 < 100)%N ->
  md_step st (md_flag a)
  = Ret {| mdAppend := mdAppend st ++ (if a.1.1 then [md_of a] else []);
           mdOverwrite := mdOverwrite st ++ (if a.1.1 then [] else [md_of a]);
           token := token st;
           tokenCount := tokenCount st |}.
Proof.
  destruct a as [[app id] payload]. cbn [fst snd]. intros Hid.
  destruct (pretty_small id Hid) as [Hds Hparse].
  unfold md_flag, md_of, append_flag, overwrite_flag. cbn [fst snd].
  revert Hds Hparse. generalize (pretty id). intros ds Hds Hparse.
  unfold md_step. destruct app.
  - unfold regexAppendMD.
    destruct (md_action "appendmetadata" ds payload Hds) as (Hm & Hf & Hd).
    rewrite Hm, Hf, Hd.
    rewrite (find_id "appendmetadata" ds eq_refl Hds), Hparse.
    cbn [bind]. by rewrite app_nil_r.
  - destruct (not_append (ds ++ ":" ++ payload)) as (Hn & _). rewrite Hn.
    unfold regexOverwriteMD.
    destruct (md_action "overwritemetadata" ds payload Hds) as (Hm & Hf & Hd).
    rewrite Hm, Hf, Hd.
    rewrite (find_id "overwritemetadata" ds eq_refl Hds), Hparse.
    cbn [bind]. by rewrite app_nil_r.
Qed.

Lemma md_step_token (st : md_state) (tok : string) :
  md_step st (token_flag tok)
  = if negb (tokenCount st =? 0)%N
    then Err (Errorf "only 1 token allowed")
    else Ret {| mdAppend := mdAppend st; mdOverwrite := mdOverwrite st;
                token := tok; tokenCount := (tokenCount st + 1)%N |}.
Proof.
  unfold md_step, token_flag.
  destruct (not_append tok) as (_ & -> & ->).
  destruct (token_found tok) as [-> ->]. done.
Qed.

Lemma md_loop_Err (flags : list string) (e : error) :
  md_loop flags (Err e) = Err e.
Proof. induction flags as [|v flags IH]; simpl; [done|exact IH]. Qed.

Lemma md_loop_app (l1 l2 : list string) (st : go_result md_state) :
  md_loop (l1 ++ l2) st = md_loop l2 (md_loop l1 st).
Proof. unfold md_loop. apply fold_left_app. Qed.

(** The loop over actions as the user writes them. *)
Lemma md_loop_flags (l : list (bool * N * string)) :
  Forall (fun a => (a.1.2 < 100)%N) l ->
  forall st,
    md_loop (md_flag <$> l) (Ret st)
    = Ret {| mdAppend := mdAppend st
                         ++ (md_of <$> filter (fun a => a.1.1 = true) l);
             mdOverwrite := mdOverwrite st
                            ++ (md_of <$> filter (fun a => a.1.1 = false) l);
             token := token st;
             tokenCount := tokenCount st |}.
Proof.
  induction 1 as [|a l Ha _ IH]; intros st.
  - simpl. rewrite !app_nil_r. by destruct st.
  - rewrite fmap_cons. unfold md_loop in *. cbn [fold_left bind].
    rewrite (md_step_flag st a Ha), IH. simpl.
    rewrite !filter_cons. destruct a as [[[] id] payload]; simpl;
      rewrite ?app_nil_r, <- ?app_assoc; done.
Qed.

(** Round trip of the command line: the token flag and, before and after
    it, any number of append and overwrite actions with stream ids below
    100 are parsed back into the appended streams, the overwritten streams
    (each list in command line order, with id and payload as written) and
    the token. *)
Theorem validateMetadataFlags_round_trip (pre post : list (bool * N * string))
    (tok : string) :
  Forall (fun a => (a.1.2 < 100)%N) (pre ++ post) ->
  validateMetadataFlags
    ((md_flag <$> pre) ++ token_flag tok :: (md_flag <$> post))
  = Ret (md_of <$> filter (fun a => a.1.1 = true) (pre ++ post),
         md_of <$> filter (fun a => a.1.1 = false) (pre ++ post),
         tok).
Proof.
  intros Hall. apply Forall_app in Hall as [Hpre Hpost].
  unfold validateMetadataFlags.
  rewrite md_loop_app, (md_loop_flags pre Hpre). simpl.
  change (fold_left _ (md_flag <$> post) ?x) with (md_loop (md_flag <$> post) x).
  rewrite md_step_token. simpl.
  rewrite (md_loop_flags post Hpost). simpl.
  by rewrite !filter_app, !fmap_app.
Qed.

(** Exactly one token: without a token flag the actions are refused with
    "must provide token", and a second token flag is refused with "only 1
    token allowed", whatever follows it. *)
Theorem validateMetadataFlags_one_token (l mid : list (bool * N * string))
    (tok1 tok2 : string) (rest : list string) :
  Forall (fun a => (a.1.2 < 100)%N) (l ++ mid) ->
  validateMetadataFlags (md_flag <$> l) = Err (Errorf "must provide token")
  /\ validateMetadataFlags
       ((md_flag <$> l) ++ token_flag tok1
          :: (md_flag <$> mid) ++ token_flag tok2 :: rest)
     = Err (Errorf "only 1 token allowed").
Proof.
  intros Hall. apply Forall_app in Hall as [Hl Hmid].
  unfold validateMetadataFlags. split.
  - by rewrite (md_loop_flags l Hl).
  - rewrite md_loop_app, (md_loop_flags l Hl). simpl.
    change (fold_left _ ?fl ?x) with (md_loop fl x).
    rewrite md_step_token. simpl.
    rewrite md_loop_app, (md_loop_flags mid Hmid). simpl.
    change (fold_left _ ?fl ?x) with (md_loop fl x).
    rewrite md_step_token. simpl. by rewrite md_loop_Err.
Qed.

(** One iteration keeps the stream ids below 100, and what it adds is the
    number and the payload that the flag spells out. *)
Lemma md_step_ids (st st' : md_state) (v : string) :
  md_step st v = Ret st' ->
  Forall (fun m => (ID m < 100)%N) (mdAppend st ++ mdOverwrite st) ->
  Forall (fun m => (ID m < 100)%N) (mdAppend st' ++ mdOverwrite st').
Proof.
  unfold md_step. intros H Hall. apply Forall_app in Hall as [Ha Ho].
  destruct (MatchString regexAppendMD v) eqn:Happ.
  - apply (md_action_inv "appendmetadata") in Happ as (ds & rest & -> & Hds).
    unfold regexAppendMD in H.
    destruct (md_action "appendmetadata" ds rest Hds) as (_ & Hf & _).
    rewrite Hf, (find_id "appendmetadata" ds eq_refl Hds) in H.
    destruct (ParseUint_digits12 ds Hds) as (i & Hi & Hlt).
    rewrite Hi in H. injection H as <-. simpl.
    apply Forall_app. split; [|done]. apply Forall_app. split; [done|].
    by constructor.
  - destruct (MatchString regexOverwriteMD v) eqn:Hover.
    + apply (md_action_inv "overwritemetadata") in Hover
        as (ds & rest & -> & Hds).
      unfold regexOverwriteMD in H.
      destruct (md_action "overwritemetadata" ds rest Hds) as (_ & Hf & _).
      rewrite Hf, (find_id "overwritemetadata" ds eq_refl Hds) in H.
      destruct (ParseUint_digits12 ds Hds) as (i & Hi & Hlt).
      rewrite Hi in H. injection H as <-. simpl.
      apply Forall_app. split; [done|]. apply Forall_app. split; [done|].
      by constructor.
    + destruct (MatchString regexToken v); [|discriminate].
      destruct (negb (tokenCount st =? 0)%N); [discriminate|].
      injection H as <-. simpl. apply Forall_app. done.
Qed.

Lemma md_loop_ids (flags : list string) :
  forall st st',
    md_loop flags (Ret st) = Ret st' ->
    Forall (fun m => (ID m < 100)%N) (mdAppend st ++ mdOverwrite st) ->
    Forall (fun m => (ID m < 100)%N) (mdAppend st' ++ mdOverwrite st').
Proof.
  induction flags as [|v flags IH]; intros st st' H Hall.
  - injection H as <-. done.
  - unfold md_loop in *. cbn [fold_left bind] in H.
    destruct (md_step st v) as [st1|e|] eqn:Hstep.
    + eapply IH; [exact H|]. by eapply md_step_ids.
    + change (fold_left _ flags (Err e)) with (md_loop flags (Err e)) in H.
      by rewrite md_loop_Err in H.
    + exfalso. clear -H. induction flags as [|w flags IH']; simpl in H;
        [discriminate|auto].
Qed.

(** Whatever the command line, the stream ids that
    [validateMetadataFlags] returns are below 100: the expressions admit
    one or two digits, an action with a longer number is no action. *)
Theorem validateMetadataFlags_ids (flags : list string)
    (mdA mdO : list MetadataStream) (tok : string) :
  validateMetadataFlags flags = Ret (mdA, mdO, tok) ->
  Forall (fun m => (ID m < 100)%N) (mdA ++ mdO).
Proof.
  unfold validateMetadataFlags. intros H.
  apply bind_Ret_inv in H as (st & Hloop & H).
  destruct (negb (tokenCount st =? 1)%N); [discriminate|].
  injection H as <- <- <-.
  eapply md_loop_ids; [exact Hloop|]. constructor.
Qed.

End PoliteiaFacts.

Lemma small_ids_sample :
  Forall (fun a : bool * N * string => (a.1.2 < 100)%N)
    ([(true, 3%N, "foo=bar")] ++ [(false, 12%N, "x")]).
Proof. repeat constructor. Qed.

Lemma validateMetadataFlags_round_trip_witness :
  Politeia.validateMetadataFlags
    ["appendmetadata3:foo=bar"; "token:abc"; "overwritemetadata12:x"]
  = Ret ([Politeia.mkMD 3 "foo=bar"], [Politeia.mkMD 12 "x"], "abc").
Proof.
  exact (validateMetadataFlags_round_trip
           [(true, 3%N, "foo=bar")] [(false, 12%N, "x")] "abc"
           small_ids_sample).
Defined.

Lemma validateMetadataFlags_one_token_witness :
  Politeia.validateMetadataFlags ["appendmetadata3:foo=bar"]
    = Err (Errorf "must provide token")
  /\ Politeia.validateMetadataFlags
       ["appendmetadata3:foo=bar"; "token:abc"; "overwritemetadata12:x";
        "token:def"; "anything"]
     = Err (Errorf "only 1 token allowed").
Proof.
  exact (validateMetadataFlags_one_token
           [(true, 3%N, "foo=bar")] [(false, 12%N, "x")] "abc" "def"
           ["anything"] small_ids_sample).
Defined.

Lemma validateMetadataFlags_ids_witness :
  Forall (fun m => (Politeia.ID m < 100)%N)
    ([Politeia.mkMD 3 "foo=bar"] ++ [Politeia.mkMD 12 "x"]).
Proof.
  apply (validateMetadataFlags_ids
           ["appendmetadata3:foo=bar"; "token:abc"; "overwritemetadata12:x"]
           _ _ "abc").
  vm_compute. reflexivity.
Defined.

(** ** The status change mails *)

Section EmailFacts.

Import Email.

Variable WebServerAddress : string.
Variable url_Parse : string -> go_result string.
Variable tpl_Execute :
  option template -> proposalStatusChangeTemplateData -> go_result string.
Variable notificationIsSet : N -> bool.
Variable smtp_send : mail -> go_result unit.

Lemma users_mail_recipients (name username link : string)
    (emails : list string) :
  forall m,
    m ∈ (emailUsersProposalStatusChange tpl_Execute smtp_send name username
           link emails).2 ->
    Recipients m = [].
Proof.
  unfold emailUsersProposalStatusChange, createBody, sendEmailTo.
  destruct emails as [|x emails]; simpl.
  - destruct (tpl_Execute _ _) as [body| |]; simpl; intros m Hm.
    + apply list_elem_of_singleton in Hm as ->. done.
    + by apply elem_of_nil in Hm.
    + by apply elem_of_nil in Hm.
  - intros m Hm. by apply elem_of_nil in Hm.
Qed.

Lemma author_mail_recipients (name email link msg : string) (n : N)
    (status : PropStatusT) (emails : list string) :
  forall m,
    m ∈ (emailAuthorProposalStatusChange tpl_Execute notificationIsSet
           smtp_send name email link msg n status emails).2 ->
    Recipients m = [email].
Proof.
  unfold emailAuthorProposalStatusChange, createBody, sendEmailTo.
  destruct (notificationIsSet n); simpl.
  - destruct status; simpl;
      destruct (tpl_Execute _ _) as [body| |]; simpl; intros m Hm;
      try (by apply elem_of_nil in Hm);
      apply list_elem_of_singleton in Hm as ->; done.
  - intros m Hm. by apply elem_of_nil in Hm.
Qed.

(** Nobody but the author is mailed about a status change: the mail for
    the users with the notification set is skipped whenever there is a
    user to send it to, and is sent, to nobody, when there is none. Every
    recipient of every mail that [emailProposalStatusChange] hands to the
    SMTP client is the author's address. *)
Theorem status_change_mails_only_author (data : dataProposalStatusChange)
    (emails : list string) :
  (emails <> [] ->
   forall name username link,
     emailUsersProposalStatusChange tpl_Execute smtp_send name username link
       emails = (Ret tt, []))
  /\ forall m,
       m ∈ (emailProposalStatusChange WebServerAddress url_Parse tpl_Execute
              notificationIsSet smtp_send data emails).2 ->
       forall x, x ∈ Recipients m -> x = email data.
Proof.
  split.
  - intros Hne name username link. unfold emailUsersProposalStatusChange.
    by destruct emails.
  - intros m Hm x Hx. unfold emailProposalStatusChange in Hm.
    destruct (url_Parse _) as [l| |]; simpl in Hm;
      try (by apply elem_of_nil in Hm).
    destruct (emailAuthorProposalStatusChange tpl_Execute notificationIsSet
                smtp_send (name data) (email data) l (statusChangeMessage data)
                (emailNotifications data) (status data) emails)
      as [[[]|e|] out] eqn:Hauthor; simpl in Hm.
    + destruct (emailUsersProposalStatusChange tpl_Execute smtp_send
                  (name data) (username data) l emails) as [r out'] eqn:Husers.
      simpl in Hm. apply elem_of_app in Hm as [Hm|Hm].
      * pose proof (author_mail_recipients (name data) (email data) l
                      (statusChangeMessage data) (emailNotifications data)
                      (status data) emails m) as Ha.
        rewrite Hauthor in Ha. rewrite (Ha Hm) in Hx.
        by apply list_elem_of_singleton in Hx.
      * pose proof (users_mail_recipients (name data) (username data) l
                      emails m) as Hu.
        rewrite Husers in Hu. rewrite (Hu Hm) in Hx.
        by apply elem_of_nil in Hx.
    + pose proof (author_mail_recipients (name data) (email data) l
                    (statusChangeMessage data) (emailNotifications data)
                    (status data) emails m) as Ha.
      rewrite Hauthor in Ha. rewrite (Ha Hm) in Hx.
      by apply list_elem_of_singleton in Hx.
    + pose proof (author_mail_recipients (name data) (email data) l
                    (statusChangeMessage data) (emailNotifications data)
                    (status data) emails m) as Ha.
      rewrite Hauthor in Ha. rewrite (Ha Hm) in Hx.
      by apply list_elem_of_singleton in Hx.
Qed.

End EmailFacts.

(** ** The encryption key: copies of the struct *)

Section KeyCopies.

Import Key.

Variable rand_nonce : go_result bytes.
Variable seal : Z -> bytes -> bytes -> bytes -> bytes.

(** [NewEncryptionKey] keeps the caller's pointer and [zero] wipes the
    array behind it: an [EncryptionKey] that holds the same pointer (a copy
    of the struct, a second key made from the same array) does not fail
    after [zero], it encrypts under the all-zero key. *)
Theorem zero_leaves_copies_with_zero_key (h h' : heap) (e e' e2 : EncryptionKey)
    (l : loc) (kb : bytes) :
  key e = Some l -> h !! l = Some kb -> key e2 = key e ->
  zero h e = Ret (h', e') ->
  forall version blob,
    Encrypt rand_nonce seal h' e2 version blob
    = bind rand_nonce (fun nonce =>
        Ret (seal version nonce (replicate (length kb) 0) blob)).
Proof.
  intros Hk Hl He2. unfold zero. rewrite Hk, Hl. intros [= <- <-].
  intros version blob. unfold Encrypt, sbox_Encrypt, deref.
  rewrite He2, Hk, lookup_insert_eq, util_Zero_replicate. done.
Qed.

End KeyCopies.

Lemma zero_leaves_copies_with_zero_key_witness :
  Key.Encrypt (Ret [9]) Key.plain_seal
    (<[1%positive := replicate 32 0]> Key.heap_key)
    (Key.NewEncryptionKey (Some 1%positive)) 1 [1; 2; 3]
  = bind (Ret [9]) (fun nonce =>
      Ret (Key.plain_seal 1 nonce (replicate (length (replicate 32 7)) 0)
             [1; 2; 3])).
Proof.
  apply (zero_leaves_copies_with_zero_key (Ret [9]) Key.plain_seal
           Key.heap_key (<[1%positive := replicate 32 0]> Key.heap_key)
           Key.key_one (Key.mkKey None)
           (Key.NewEncryptionKey (Some 1%positive)) 1%positive
           (replicate 32 7)).
  - reflexivity.
  - reflexivity.
  - reflexivity.
  - reflexivity.
Defined.

(** ** The command line client: what reaches the server and the terminal *)

Section CliFacts.

Import Tlog Cli.

Variable P R Identity : Type.
Variable cfg_Identity : option Identity.
Variable SignMessage : Identity -> string -> bytes.
Variable public_key : Identity -> bytes.
Variable hex_EncodeToString : bytes -> string.
Variable state_string : PropStateT -> string.
Variable vote_string : CommentVoteT -> string.
Variable client_CommentVote : CommentVote -> go_result R.
Variable client_Version : go_result string.
Variable client_GetAllVetted : string -> string -> go_result (list P).
Variable client_UserProposals : string -> go_result (list P).
Variable VerifyProposal : P -> string -> go_result unit.
Variable PrintJSON_request : CommentVote -> go_result unit.
Variable PrintJSON_reply : R -> go_result unit.
Variable PrintJSON_proposals : list P -> go_result unit.

Local Abbreviation vote_cmd :=
  (CommentVoteCmd_Execute P R Identity cfg_Identity SignMessage public_key
     hex_EncodeToString state_string vote_string client_CommentVote
     PrintJSON_request PrintJSON_reply).
Local Abbreviation vetted_cmd :=
  (proposalsVettedCmd_Execute P R client_Version client_GetAllVetted
     VerifyProposal PrintJSON_proposals).
Local Abbreviation request :=
  (request_of Identity SignMessage public_key hex_EncodeToString
     state_string vote_string).

Lemma verify_all_Err (pk : string) (ps : list P) (r : go_result unit) :
  (forall u, r <> Ret u) ->
  fold_left
    (fun acc p =>
       bind acc (fun _ =>
         match VerifyProposal p pk with
         | Ret _ => Ret tt
         | Err _ => Err (Errorf "unable to verify proposal")
         | Panic => Panic
         end)) ps r <> Ret tt.
Proof.
  revert r. induction ps as [|p ps IH]; intros r Hr; simpl.
  - apply Hr.
  - apply IH. intros u. destruct r as [a| |]; simpl; try discriminate.
    by destruct (Hr a).
Qed.

Lemma verify_all_Ret (pk : string) (ps : list P) :
  verify_all P VerifyProposal pk ps = Ret tt
  <-> Forall (fun p => VerifyProposal p pk = Ret tt) ps.
Proof.
  unfold verify_all. induction ps as [|p ps IH]; simpl.
  - split; [constructor | done].
  - destruct (VerifyProposal p pk) as [[]| |] eqn:Hp.
    + rewrite IH. split.
      * intros H. by constructor.
      * by inversion 1.
    + split.
      * intros H. by apply verify_all_Err in H.
      * inversion 1; congruence.
    + split.
      * intros H. by apply verify_all_Err in H.
      * inversion 1; congruence.
Qed.

Lemma elem_io_bind {E A B} (m : io E A) (k : A -> io E B) (x : E) :
  x ∈ (io_bind m k).2
  <-> x ∈ m.2 \/ exists a, m.1 = Ret a /\ x ∈ (k a).2.
Proof.
  destruct m as [[a| |] out]; unfold io_bind; cbn [fst snd].
  - destruct (k a) as [r out'] eqn:Hk. cbn [snd]. rewrite elem_of_app.
    split.
    + intros [H|H]; [by left|]. right. exists a. by rewrite Hk.
    + intros [H|(a' & [= <-] & H)]; [by left|]. right. by rewrite Hk in H.
  - split; [by left|]. by intros [H|(a' & [=] & _)].
  - split; [by left|]. by intros [H|(a' & [=] & _)].
Qed.

Lemma elem_quiet {E A} (r : go_result A) (x : E) : x ∈ (quiet r).2 <-> False.
Proof. unfold quiet. cbn [snd]. by rewrite elem_of_nil. Qed.

Lemma elem_does {A} (c x : call P R) (r : go_result A) :
  x ∈ (does P R c r).2 <-> x = c.
Proof. unfold does. cbn [snd]. by rewrite list_elem_of_singleton. Qed.

(** The vote command sends a request to the server exactly when one
    of the two flags is set and not the other, the action is upvote or
    downvote, the configuration has an identity, the comment id parses as
    an unsigned 32-bit number and the request could be printed; the
    request is then the one built from the arguments, signed over the
    comment id as it was typed. *)
Theorem commentvote_sends_iff (cmd : CommentVoteCmd) (cv : CommentVote) :
  CallCommentVote cv ∈ (vote_cmd cmd).2
  <-> Vetted cmd <> Unvetted cmd
      /\ (ArgAction cmd = "upvote" \/ ArgAction cmd = "downvote")
      /\ exists id n,
           cfg_Identity = Some id
           /\ ParseUint32 (ArgCommentID cmd) = Ret n
           /\ cv = request cmd id n
           /\ PrintJSON_request cv = Ret tt.
Proof.
  unfold CommentVoteCmd_Execute, request_of.
  destruct cmd as [token commentID action vetted unvetted]; cbn [ArgToken
    ArgCommentID ArgAction Vetted Unvetted].
  rewrite elem_io_bind, elem_quiet. setoid_rewrite elem_io_bind.
  setoid_rewrite elem_quiet. setoid_rewrite elem_io_bind.
  setoid_rewrite elem_quiet. setoid_rewrite elem_io_bind.
  setoid_rewrite elem_quiet. setoid_rewrite elem_io_bind.
  setoid_rewrite elem_does. setoid_rewrite elem_io_bind.
  setoid_rewrite elem_does. unfold quiet, does. cbn [fst].
  split.
  - intros [[]|(state & Hs & [[]|([] & Ha & [[]|(id & Hid & [[]|(n & Hn &
      [[=]|([] & Hp & [[= ->]|(r & _ & [=])])])])])])].
    destruct cfg_Identity as [id'|]; [|discriminate Hid].
    injection Hid as ->.
    assert (Hflags : vetted <> unvetted
                     /\ state = if unvetted then PropStateUnvetted
                                else PropStateVetted).
    { destruct vetted, unvetted; cbn in Hs; try discriminate Hs;
        injection Hs as <-; by split. }
    destruct Hflags as [Hflags ->].
    destruct (String.eqb action "upvote") eqn:Hup.
    + apply String.eqb_eq in Hup.
      split; [done|]. split; [by left|]. by exists id, n.
    + destruct (String.eqb action "downvote") eqn:Hdown;
        [|discriminate Ha].
      apply String.eqb_eq in Hdown.
      split; [done|]. split; [by right|]. by exists id, n.
  - intros (Hflags & Hact & id & n & Hid & Hn & -> & Hp). right.
    exists (if unvetted then PropStateUnvetted else PropStateVetted).
    split; [by destruct vetted, unvetted|]. right. exists tt.
    assert (Hv : (if String.eqb action "upvote" then CommentVoteUpvote
                  else if String.eqb action "downvote"
                       then CommentVoteDownvote else CommentVoteInvalid)
                 = if String.eqb action "upvote" then CommentVoteUpvote
                   else CommentVoteDownvote).
    { destruct Hact as [->| ->]; reflexivity. }
    split; [by destruct Hact as [->| ->]|]. right. exists id.
    split; [by rewrite Hid|]. right. exists n. split; [done|].
    rewrite Hv. right. exists tt. split; [done|]. by left.
Qed.

(** The vetted proposals command prints a page exactly when at most
    one of the two flags is given, the server answered both calls, every
    proposal of the page verified against the public key of the version
    reply; with both flags it fails before any call. *)
Theorem proposalsvetted_prints_iff (cmd : proposalsVettedCmd)
    (page : list P) :
  (PrintProposals page ∈ (vetted_cmd cmd).2
   <-> (Before cmd = "" \/ After cmd = "")
       /\ exists pubkey,
            client_Version = Ret pubkey
            /\ client_GetAllVetted (Before cmd) (After cmd) = Ret page
            /\ Forall (fun p => VerifyProposal p pubkey = Ret tt) page)
  /\ (Before cmd <> "" /\ After cmd <> "" ->
      exists e, vetted_cmd cmd = (Err e, [])).
Proof.
  unfold proposalsVettedCmd_Execute.
  destruct cmd as [before after]; cbn [Before After].
  destruct (String.eqb before "") eqn:Hb;
    [apply String.eqb_eq in Hb | apply String.eqb_neq in Hb];
    (destruct (String.eqb after "") eqn:Haf;
      [apply String.eqb_eq in Haf | apply String.eqb_neq in Haf]);
    cbn [negb andb].
  4: { split.
       - rewrite elem_quiet. split; [done|]. by intros [[?|?] _].
       - intros _. by eexists. }
  all: split; [|by intros [? ?]].
  all: rewrite elem_io_bind, elem_does; setoid_rewrite elem_io_bind;
    setoid_rewrite elem_does; setoid_rewrite elem_io_bind;
    setoid_rewrite elem_quiet; setoid_rewrite elem_does;
    unfold quiet, does; cbn [fst].
  all: split;
    [ intros [[=]|(pk & Hv & [[=]|(pg & Hg & [[]|([] & Hall & [= ->])])])];
      (split; [by auto|]); exists pk; by rewrite <- verify_all_Ret
    | intros (_ & pk & Hv & Hg & Hall); right; exists pk; split; [done|];
      right; exists page; split; [done|]; right; exists tt;
      by rewrite verify_all_Ret ].
Qed.

(** The user proposals command prints the proposals of a user
    exactly when the server answered both calls and every proposal
    verified against the public key of the version reply. *)
Theorem userproposals_prints_iff (userID : string) (page : list P) :
  PrintProposals page
    ∈ (userProposalsCmd_Execute P R client_Version client_UserProposals
         VerifyProposal PrintJSON_proposals userID).2
  <-> exists pubkey,
        client_Version = Ret pubkey
        /\ client_UserProposals userID = Ret page
        /\ Forall (fun p => VerifyProposal p pubkey = Ret tt) page.
Proof.
  unfold userProposalsCmd_Execute.
  rewrite elem_io_bind, elem_does; setoid_rewrite elem_io_bind;
    setoid_rewrite elem_does; setoid_rewrite elem_io_bind;
    setoid_rewrite elem_quiet; setoid_rewrite elem_does;
    unfold quiet, does; cbn [fst].
  split.
  - intros [[=]|(pk & Hv & [[=]|(pg & Hg & [[]|([] & Hall & [= ->])])])].
    exists pk. by rewrite <- verify_all_Ret.
  - intros (pk & Hv & Hg & Hall). right. exists pk. split; [done|].
    right. exists page. split; [done|]. right. exists tt.
    by rewrite verify_all_Ret.
Qed.

End CliFacts.
